(** * Hades Dialogue Player: the dialogue-tree builder and the menu loop

    A shallow embedding of [hdialogue/hdialogue.py] (classes [Cue], [VO],
    [Bank]) and of [play_interactive.py] (classes [Breadcrumb], [Option],
    [App]), followed by the properties proved about them.

    Python values are modelled as they reach the code: the decoded JSON
    documents are trees of [json] values, exceptions are values of [exn],
    and [print] appends to an explicit output log. *)

From Stdlib Require Import ZArith List String Ascii Bool Lia PeanoNat.
From Stdlib Require Import DecimalString DecimalNat.
From Stdlib Require Import Floats.SpecFloat.
Import ListNotations.
Local Open Scope string_scope.
Local Open Scope list_scope.
Set Warnings "-register-all".

(* ===================================================================== *)
(** * Python values and built-ins used by the program                     *)
(* ===================================================================== *)

Module Py.

(** What [json.load] returns: [None], [bool], [int], [float], [str],
    [list] and [dict].  A [dict] is kept as its list of items in insertion
    order; the keys of a real [dict] are pairwise distinct ([dict_wf]).
    Characters of a [str] are the code points below 256. *)
Inductive json : Type :=
| JNull
| JBool (b : bool)
| JInt (z : Z)
| JFloat (f : spec_float)
| JStr (s : string)
| JList (l : list json)
| JDict (kvs : list (string * json)).

(** The exceptions that can leave the modelled code. *)
Inductive exn : Type :=
| NotACueException
| NoCuesException
| NoVOsException
| TypeError
| ValueError
| KeyError
| OverflowError
| IndexError
| AttributeError
| RecursionError.

Definition exn_eqb (a b : exn) : bool :=
  match a, b with
  | NotACueException, NotACueException
  | NoCuesException, NoCuesException
  | NoVOsException, NoVOsException
  | TypeError, TypeError
  | ValueError, ValueError
  | KeyError, KeyError
  | OverflowError, OverflowError
  | IndexError, IndexError
  | AttributeError, AttributeError
  | RecursionError, RecursionError => true
  | _, _ => false
  end.

(** A Python number as the delay fields hold it: the literal [0] is an
    [int], the value of [float(...)] is a binary64 float. *)
Inductive pynum : Type :=
| PInt (z : Z)
| PFloat (f : spec_float).

(** binary64 *)
Definition prec : Z := 53.
Definition emax : Z := 1024.

Definition float_add : spec_float -> spec_float -> spec_float := SFadd prec emax.
Definition float_zero : spec_float := S754_zero false.

(** [float(z)] for an [int]: the nearest binary64, [OverflowError] when
    that is not finite. *)
Definition float_of_Z (z : Z) : exn + spec_float :=
  match binary_normalize prec emax z 0 false with
  | S754_infinity _ => inl OverflowError
  | f => inr f
  end.

(** Lines written by [print], kept by what they report. *)
Inductive diag : Type :=
| WarnCueWithoutMatch (v : string)
| WarnUnknownDataType (v : json)
| WarnMoreThanOneCategory (label : string).

(** ** Output and exceptions *)

Inductive outcome (A : Type) : Type :=
| Ok (a : A)
| Raise (e : exn).
Arguments Ok {A} a.
Arguments Raise {A} e.

(** A computation: the lines printed, then the value returned or the
    exception raised. *)
Definition M (A : Type) : Type := (list diag * outcome A)%type.

Definition ret {A} (a : A) : M A := ([], Ok a).
Definition raise {A} (e : exn) : M A := ([], Raise e).
Definition print (d : diag) : M unit := ([d], Ok tt).

Definition bind {A B} (m : M A) (f : A -> M B) : M B :=
  match m with
  | (out, Raise e) => (out, Raise e)
  | (out, Ok a) => let (out', r) := f a in (out ++ out', r)
  end.

(** [try: m  except e: h] *)
Definition try_except {A} (m : M A) (e : exn) (h : M A) : M A :=
  match m with
  | (out, Raise e') =>
      if exn_eqb e' e then let (out', r) := h in (out ++ out', r) else m
  | (_, Ok _) => m
  end.

Definition lift {A} (r : exn + A) : M A :=
  match r with
  | inl e => raise e
  | inr a => ret a
  end.

Definition output {A} (m : M A) : list diag := fst m.
Definition result {A} (m : M A) : outcome A := snd m.

Module Notations.
Notation "x <- m ;; k" := (bind m (fun x => k))
  (at level 61, m at next level, right associativity).
Notation "m ;;; k" := (bind m (fun _ => k))
  (at level 61, right associativity).
End Notations.
Import Notations.

(** ** Strings *)

(** [str(n)] for a non-negative [int]. *)
Definition str (n : nat) : string := NilZero.string_of_uint (Nat.to_uint n).

Fixpoint startswith (s p : string) : bool :=
  match p with
  | EmptyString => true
  | String c p' =>
      match s with
      | EmptyString => false
      | String d s' => Ascii.eqb c d && startswith s' p'
      end
  end.

(** [p in s] for two strings. *)
Fixpoint str_contains (s p : string) : bool :=
  startswith s p ||
  match s with
  | EmptyString => false
  | String _ s' => str_contains s' p
  end.

(** [str.isspace] on one character (code point below 256): what [\s]
    matches and [\S] refuses in a [str] pattern. *)
Definition isspace (c : ascii) : bool :=
  let n := nat_of_ascii c in
  (Nat.leb 9 n && Nat.leb n 13) || (Nat.leb 28 n && Nat.leb n 32)
  || Nat.eqb n 133 || Nat.eqb n 160.

(** ** Dictionaries *)

Fixpoint dict_get {V} (kvs : list (string * V)) (k : string) : option V :=
  match kvs with
  | [] => None
  | (k', v) :: rest => if String.eqb k' k then Some v else dict_get rest k
  end.

Definition dict_in {V} (k : string) (kvs : list (string * V)) : bool :=
  match dict_get kvs k with
  | Some _ => true
  | None => false
  end.

(** [d[k] = v]: an existing key keeps its place. *)
Fixpoint dict_set {V} (kvs : list (string * V)) (k : string) (v : V)
  : list (string * V) :=
  match kvs with
  | [] => [(k, v)]
  | (k', v') :: rest =>
      if String.eqb k' k then (k', v) :: rest
      else (k', v') :: dict_set rest k v
  end.

Definition dict_wf {V} (kvs : list (string * V)) : Prop :=
  NoDup (map fst kvs).

(** ** Operators on decoded values *)

Definition is_str (v : json) (s : string) : bool :=
  match v with
  | JStr s' => String.eqb s' s
  | _ => false
  end.

(** [k in data] for a string [k]. *)
Definition py_in (k : string) (data : json) : M bool :=
  match data with
  | JDict kvs => ret (dict_in k kvs)
  | JList l => ret (existsb (fun v => is_str v k) l)
  | JStr s => ret (str_contains s k)
  | _ => raise TypeError
  end.

(** [data[k]] for a string [k]. *)
Definition py_getitem (data : json) (k : string) : M json :=
  match data with
  | JDict kvs =>
      match dict_get kvs k with
      | Some v => ret v
      | None => raise KeyError
      end
  | _ => raise TypeError
  end.

Section Float.
(** [float(s)] for a [str]: the built-in's parser, [None] where it
    raises [ValueError]. *)
Variable float_of_str : string -> option spec_float.

(** [float(v)] *)
Definition py_float (v : json) : M spec_float :=
  match v with
  | JFloat f => ret f
  | JInt z => lift (float_of_Z z)
  | JBool b => ret (if b then SFone prec emax else float_zero)
  | JStr s =>
      match float_of_str s with
      | Some f => ret f
      | None => raise ValueError
      end
  | _ => raise TypeError
  end.
End Float.

(** [a + b] *)
Definition py_add (a b : pynum) : M pynum :=
  match a, b with
  | PInt x, PInt y => ret (PInt (x + y))
  | PInt x, PFloat g => f <- lift (float_of_Z x) ;; ret (PFloat (float_add f g))
  | PFloat f, PInt y => g <- lift (float_of_Z y) ;; ret (PFloat (float_add f g))
  | PFloat f, PFloat g => ret (PFloat (float_add f g))
  end.

(** [a > 0] and [a >= 0] *)
Definition pynum_sign (a : pynum) : option comparison :=
  match a with
  | PInt z => Some (Z.compare z 0)
  | PFloat f => SFcompare f float_zero
  end.

Definition py_ge0 (a : pynum) : bool :=
  match pynum_sign a with
  | Some (Gt | Eq) => true
  | _ => false
  end.

End Py.

(* ===================================================================== *)
(** * hdialogue/hdialogue.py                                              *)
(* ===================================================================== *)

Module HDialogue.
Import Py Py.Notations.

(** ** [VO.vo_re = re.compile(r'^/VO/(?P<cue>\S+)$')] *)

Definition newline : string := String (ascii_of_nat 10) EmptyString.

Fixpoint skip (n : nat) (s : string) : string :=
  match n, s with
  | S n', String _ s' => skip n' s'
  | _, _ => s
  end.

(** The longest prefix of non-space characters, and what follows it. *)
Fixpoint nonspace_run (s : string) : string * string :=
  match s with
  | EmptyString => (EmptyString, EmptyString)
  | String c s' =>
      if isspace c then (EmptyString, s)
      else let (t, tail) := nonspace_run s' in (String c t, tail)
  end.

(** [vo_re.match(s)], giving [match.group('cue')].  After the prefix,
    [\S+] takes the whole run of non-space characters (giving one back
    would leave a non-space character where [$] has to match), and [$]
    matches at the end of [s] or before a final newline. *)
Definition vo_re_match (s : string) : option string :=
  if startswith s "/VO/" then
    let (t, tail) := nonspace_run (skip 4 s) in
    match t with
    | EmptyString => None
    | _ => if String.eqb tail EmptyString || String.eqb tail newline then Some t else None
    end
  else None.

(** [vo_re.match(v)] on a decoded value: [re] refuses what is not a
    [str]. *)
Definition vo_re_match_value (v : json) : M (option string) :=
  match v with
  | JStr s => ret (vo_re_match s)
  | _ => raise TypeError
  end.

(** ** [class Cue] *)

Record Cue : Type := mkCue {
  cue : string;
  text : option json;
  delay : pynum;
  start_sound : option string;
  choice : option json
}.

Definition set_delay (c : Cue) (d : pynum) : Cue :=
  mkCue (cue c) (text c) d (start_sound c) (choice c).

(** What [print('...{}'.format(v))] reports for a value that went through
    [vo_re.match], hence a [str]. *)
Definition warn_without_match (v : json) : M unit :=
  match v with
  | JStr s => print (WarnCueWithoutMatch s)
  | _ => ret tt
  end.

(** [data['StartSound'].startswith('/SFX/')] and the comparison with the
    one other known value. *)
Definition known_unresolved (v : json) : bool :=
  match v with
  | JStr s =>
      startswith s "/SFX/"
      || String.eqb s "/Leftovers/World Sounds/MapZoomInShort"
  | _ => false
  end.

Section Build.
Variable float_of_str : string -> option spec_float.

(** [Cue.from_data(data, external_delay=0, choice=None)] *)
Definition from_data (data : json) (external_delay : pynum)
    (choice : option json) : M Cue :=
  has_cue <- py_in "Cue" data ;;
  cue <- (if has_cue : bool then
            v <- py_getitem data "Cue" ;;
            if is_str v EmptyString then ret (Some EmptyString)
            else
              m <- vo_re_match_value v ;;
              match m with
              | Some id => ret (Some id)
              | None => warn_without_match v ;;; ret None
              end
          else ret None) ;;
  match cue with
  | None => raise NotACueException
  | Some cue =>
      has_text <- py_in "Text" data ;;
      text <- (if has_text : bool then
                 v <- py_getitem data "Text" ;; ret (Some v)
               else ret None) ;;
      has_wait <- py_in "PreLineWait" data ;;
      delay <- (if has_wait : bool then
                  v <- py_getitem data "PreLineWait" ;;
                  f <- py_float float_of_str v ;;
                  ret (PFloat f)
                else ret (PInt 0)) ;;
      has_start <- py_in "StartSound" data ;;
      start_sound <- (if has_start : bool then
                        v <- py_getitem data "StartSound" ;;
                        m <- vo_re_match_value v ;;
                        match m with
                        | Some id => ret (Some id)
                        | None =>
                            if known_unresolved v then ret None
                            else warn_without_match v ;;; ret None
                        end
                      else ret None) ;;
      delay <- py_add delay external_delay ;;
      ret (mkCue cue text delay start_sound choice)
  end.

(** ** [class VO] *)

Record VO : Type := mkVO {
  cues : list Cue;
  label : option string
}.

(** [for cue_data in data: try: self.cues.append(Cue.from_data(cue_data))
    except NotACueException: pass] *)
Fixpoint append_cues (acc : list Cue) (data : list json) : M (list Cue) :=
  match data with
  | [] => ret acc
  | cue_data :: rest =>
      acc <- try_except
               (c <- from_data cue_data (PInt 0) None ;; ret (acc ++ [c]))
               NotACueException (ret acc) ;;
      append_cues acc rest
  end.

(** [for sub_data in l: try: vo = VO(sub_data, ...);
    self.cues.extend(vo.cues) except NoCuesException: pass] *)
Fixpoint extend_with_each (build : json -> M VO) (acc : list Cue)
    (l : list json) : M (list Cue) :=
  match l with
  | [] => ret acc
  | sub_data :: rest =>
      acc <- try_except
               (vo <- build sub_data ;; ret (acc ++ cues vo))
               NoCuesException (ret acc) ;;
      extend_with_each build acc rest
  end.

(** [type(e) == dict and 'Choices' in e and type(e['Choices']) == list],
    giving the list. *)
Definition choices_of (entry : json) : option (list json) :=
  match entry with
  | JDict kvs =>
      match dict_get kvs "Choices" with
      | Some (JList l) => Some l
      | _ => None
      end
  | _ => None
  end.

(** One turn of [for num in range(len(data.keys()))]; the state is
    [self.cues] and [initial_delay]. *)
Definition index_step (build : json -> M VO) (kvs : list (string * json))
    (choice_text : option json) (st : list Cue * pynum) (num : nat)
    : M (list Cue * pynum) :=
  let (acc, initial_delay) := st in
  match dict_get kvs (str num) with
  | None => ret st
  | Some entry =>
      match choices_of entry with
      | Some choices =>
          acc <- extend_with_each build acc choices ;;
          ret (acc, initial_delay)
      | None =>
          try_except
            (c <- from_data entry initial_delay choice_text ;;
             ret (acc ++ [c], PInt 0))
            NotACueException (ret st)
      end
  end.

Fixpoint index_loop (build : json -> M VO) (kvs : list (string * json))
    (choice_text : option json) (st : list Cue * pynum) (nums : list nat)
    : M (list Cue * pynum) :=
  match nums with
  | [] => ret st
  | num :: rest =>
      st <- index_step build kvs choice_text st num ;;
      index_loop build kvs choice_text st rest
  end.

(** [if 'EndCue' in data and data['EndCue'] is not None: ...] *)
Definition add_end_cue (kvs : list (string * json))
    (choice_text : option json) (acc : list Cue) : M (list Cue) :=
  match dict_get kvs "EndCue" with
  | None | Some JNull => ret acc
  | Some v =>
      m <- vo_re_match_value v ;;
      match m with
      | Some id =>
          end_delay <- match dict_get kvs "EndWait" with
                       | None | Some JNull => ret (PInt 0)
                       | Some w => f <- py_float float_of_str w ;;
                                   ret (PFloat f)
                       end ;;
          ret (acc ++ [mkCue id None end_delay None choice_text])
      | None => warn_without_match v ;;; ret acc
      end
  end.

(** [if 'EndVoiceLines' in data: ...] *)
Definition add_end_voice_lines (build : json -> M VO)
    (kvs : list (string * json)) (acc : list Cue) : M (list Cue) :=
  match dict_get kvs "EndVoiceLines" with
  | Some (JDict sub) => extend_with_each build acc [JDict sub]
  | Some (JList l) => extend_with_each build acc l
  | _ => ret acc
  end.

(** [VO.__init__(self, data, file_map, config, label=None)].  The two
    collaborators [file_map] and [config] are only stored; [depth] bounds
    the nesting of the calls to [VO(...)] the way the interpreter's
    recursion limit does. *)
Fixpoint VO_init (depth : nat) (data : json) (label : option string)
    : M VO :=
  match depth with
  | O => raise RecursionError
  | S depth' =>
      let build := fun sub => VO_init depth' sub None in
      cues <- match data with
              | JList l => append_cues [] l
              | JDict kvs =>
                  initial_delay <-
                    match dict_get kvs "PreLineWait" with
                    | Some v => f <- py_float float_of_str v ;;
                                ret (PFloat f)
                    | None => ret (PInt 0)
                    end ;;
                  let choice_text := dict_get kvs "ChoiceText" in
                  st <- index_loop build kvs choice_text
                          ([], initial_delay) (seq 0 (List.length kvs)) ;;
                  acc <- add_end_cue kvs choice_text (fst st) ;;
                  add_end_voice_lines build kvs acc
              | _ => print (WarnUnknownDataType data) ;;; ret []
              end ;;
      match cues with
      | [] => raise NoCuesException
      | first :: rest => ret (mkVO (set_delay first (PInt 0) :: rest) label)
      end
  end.
End Build.

(** ** [class Bank] and its three variants *)

(** One entry of [self.groups]: the key in the raw section, the name shown
    for the category, and the category's own dict of line-sets. *)
Definition group : Type := (string * string * list (string * VO))%type.

Record Bank : Type := mkBank {
  name : string;
  groups : list group;
  combined : list (string * VO)
}.

(** [self.groups] as [NPCBank], [EnemyBank] and [LootBank] set it before
    calling [Bank.__init__]: every category starts as an empty dict. *)
Definition fresh_groups (l : list (string * string)) : list group :=
  map (fun kn => (fst kn, snd kn, [])) l.

Definition NPCBank_groups : list group := fresh_groups
  [ ("InteractTextLineSets", "Interacts");
    ("RepeatableTextLineSets", "Repeatables");
    ("GiftTextLineSets", "Gifts") ].

Definition EnemyBank_groups : list group := fresh_groups
  [ ("BossPresentationIntroTextLineSets", "Intros");
    ("BossPresentationTextLineSets", "Basic Conversations");
    ("BossPresentationPriorityIntroTextLineSets", "Priorities");
    ("BossPresentationSuperPriorityIntroTextLineSets", "Super Priorities");
    ("BossPresentationRepeatableTextLineSets", "Repeatables") ].

Definition LootBank_groups : list group := fresh_groups
  [ ("PickupTextLineSets", "Pickups");
    ("DuoPickupTextLineSets", "Duos");
    ("BoughtTextLines", "Bought");
    ("GiftTextLineSets", "Gifts");
    ("PriorityPickupTextLineSets", "Priorities");
    ("SuperPriorityPickupTextLineSets", "Super Priorities");
    ("RejectionTextLines", "Rejections");
    ("MakeUpTextLines", "Makeups") ].

Section Assemble.
(** [VO(lineset, file_map, config, label)] *)
Variable build : json -> option string -> M VO.

(** The body of [for label, lineset in data[key].items()]; the state is
    the category's dict [obj] and [self.combined]. *)
Definition add_lineset (st : list (string * VO) * list (string * VO))
    (item : string * json) : M (list (string * VO) * list (string * VO)) :=
  let (obj, combined) := st in
  let (label, lineset) := item in
  try_except
    (vo <- build lineset (Some label) ;;
     let obj := dict_set obj label vo in
     if dict_in label combined then
       (if negb (String.eqb label "HermesPostEnding01")
        then print (WarnMoreThanOneCategory label) else ret tt) ;;;
       ret (obj, combined)
     else ret (obj, dict_set combined label vo))
    NoCuesException (ret st).

Fixpoint add_linesets (st : list (string * VO) * list (string * VO))
    (items : list (string * json))
    : M (list (string * VO) * list (string * VO)) :=
  match items with
  | [] => ret st
  | item :: rest => st <- add_lineset st item ;; add_linesets st rest
  end.

(** The body of [for key, label, obj in self.groups]. *)
Definition add_group (data : json) (combined : list (string * VO))
    (g : group) : M (group * list (string * VO)) :=
  let '(key, label, obj) := g in
  present <- py_in key data ;;
  if present : bool then
    v <- py_getitem data key ;;
    match v with
    | JDict items =>
        st <- add_linesets (obj, combined) items ;;
        ret ((key, label, fst st), snd st)
    | _ => ret (g, combined)
    end
  else ret (g, combined).

Fixpoint add_groups (data : json) (done : list group)
    (combined : list (string * VO)) (gs : list group)
    : M (list group * list (string * VO)) :=
  match gs with
  | [] => ret (done, combined)
  | g :: rest =>
      r <- add_group data combined g ;;
      add_groups data (done ++ [fst r]) (snd r) rest
  end.

(** [Bank.__init__(self, name, file_map, config, data)], after the
    variant has set [self.groups]. *)
Definition Bank_init (gs : list group) (name : string) (data : json)
    : M Bank :=
  r <- add_groups data [] [] gs ;;
  if forallb (fun g : group => Nat.eqb (List.length (snd g)) 0) (fst r)
  then raise NoVOsException
  else ret (mkBank name (fst r) (snd r)).
End Assemble.

(** [class Registry]: [self.data], from section name to bank. *)
Definition Registry : Type := list (string * Bank).

(** The nesting of lists and dicts in a decoded value. *)
Fixpoint json_depth (v : json) : nat :=
  match v with
  | JList l =>
      S ((fix go (l : list json) : nat :=
            match l with
            | [] => 0
            | x :: r => Nat.max (json_depth x) (go r)
            end) l)
  | JDict kvs =>
      S ((fix go (kvs : list (string * json)) : nat :=
            match kvs with
            | [] => 0
            | (_, x) :: r => Nat.max (json_depth x) (go r)
            end) kvs)
  | _ => 0
  end.

(** [VO(data, file_map, config, label)] with room for every nested call. *)
Definition VO_new (float_of_str : string -> option spec_float)
    (data : json) (label : option string) : M VO :=
  VO_init float_of_str (S (json_depth data)) data label.

(** [Bank(name, file_map, config, data)] for a variant's [groups]. *)
Definition Bank_new (float_of_str : string -> option spec_float)
    (gs : list group) (name : string) (data : json) : M Bank :=
  Bank_init (VO_new float_of_str) gs name data.

End HDialogue.

(* ===================================================================== *)
(** * play_interactive.py                                                 *)
(* ===================================================================== *)

Module PlayInteractive.
Import Py.

(** ** What the prompt does to a line: [resp.strip().lower()], [int(resp)] *)

Fixpoint lstrip (s : string) : string :=
  match s with
  | EmptyString => EmptyString
  | String c s' => if isspace c then lstrip s' else s
  end.

Fixpoint rstrip (s : string) : string :=
  match s with
  | EmptyString => EmptyString
  | String c s' =>
      match rstrip s' with
      | EmptyString => if isspace c then EmptyString else String c EmptyString
      | r => String c r
      end
  end.

Definition strip (s : string) : string := rstrip (lstrip s).

(** [str.lower] on the code points below 256: [A]-[Z] and the accented
    capitals (192-222 but the multiplication sign) move up by 32. *)
Definition lower_char (c : ascii) : ascii :=
  let n := nat_of_ascii c in
  if (Nat.leb 65 n && Nat.leb n 90)
     || (Nat.leb 192 n && Nat.leb n 222 && negb (Nat.eqb n 215))
  then ascii_of_nat (n + 32) else c.

Fixpoint lower (s : string) : string :=
  match s with
  | EmptyString => EmptyString
  | String c s' => String (lower_char c) (lower s')
  end.

Definition digit_of (c : ascii) : option Z :=
  let n := nat_of_ascii c in
  if Nat.leb 48 n && Nat.leb n 57 then Some (Z.of_nat (n - 48)) else None.

(** Decimal digits, single underscores allowed between two of them;
    [sep] tells that a digit has to come next. *)
Fixpoint int_digits (acc : Z) (sep : bool) (s : string) : option Z :=
  match s with
  | EmptyString => if sep then None else Some acc
  | String c s' =>
      match digit_of c with
      | Some d => int_digits (acc * 10 + d) false s'
      | None =>
          if Ascii.eqb c "_"%char && negb sep then int_digits acc true s'
          else None
      end
  end.

(** [int(s)], [None] where it raises [ValueError]. *)
Definition py_int (s : string) : option Z :=
  match strip s with
  | String "+"%char r => int_digits 0 true r
  | String "-"%char r => option_map Z.opp (int_digits 0 true r)
  | r => int_digits 0 true r
  end.

(** ** [class Option], [class Breadcrumb], [class Result] *)

(** What an option's [data] can be, by menu level: a registry, a bank, one
    category of a bank (a dict of line-sets) or a line-set. *)
Inductive payload : Type :=
| DRegistry (r : HDialogue.Registry)
| DBank (b : HDialogue.Bank)
| DCategory (c : list (string * HDialogue.VO))
| DVO (v : HDialogue.VO).

Record Option : Type := mkOption {
  label : string;
  data : payload;
  pos : nat;
  breadcrumb_label : string
}.

(** [Option(label, data, pos, breadcrumb_label=None)] *)
Definition Option_init (label : string) (data : payload) (pos : nat)
    (breadcrumb_label : option string) : Option :=
  match breadcrumb_label with
  | None => mkOption label data pos label
  | Some b => mkOption label data pos b
  end.

(** The field [option] is called [option_] here. *)
Record Breadcrumb : Type := mkBreadcrumb {
  option_ : Option;
  prev_options : list Option
}.

Inductive Result : Type := PLAY | AUTOPLAY | AUTOPLAY_ALL.

(** What [process_options] hands back to [run]. *)
Inductive returned : Type :=
| RetBreadcrumb (b : Breadcrumb)
| RetOption (o : Option)
| RetResult (r : Result).

(** What the session shows and asks to be played. *)
Inductive out : Type :=
| OutHeader (header_txt : string)
| OutMenu (options : list Option) (prompt_txt : string)
| OutError (text : string)
| OutPlay (vo : HDialogue.VO)
| OutAutoPrompt.

(** ** [App.process_options(self, options, stack, playing=True)]

    The stack is kept top first: [stack[-1]] is the head of the list,
    [stack.append(b)] is [b :: stack] and [stack.pop()] takes the head. *)

Record menu : Type := mkMenu {
  num_options : nat;
  allow_prev : bool;
  allow_next : bool;
  allow_replay : bool;
  allow_autoplay : bool;
  cur_pos : nat
}.

(** The flags computed before the prompt; [cur_pos] is only read when
    [playing] has set it. *)
Definition menu_of (options : list Option) (stack : list Breadcrumb)
    (playing : bool) : exn + menu :=
  let num_options :=
    match stack with
    | top :: _ =>
        if Nat.eqb (List.length stack) 4 then List.length (prev_options top)
        else List.length options
    | [] => List.length options
    end in
  let at3 := Nat.eqb (List.length stack) 3 in
  if playing then
    match stack with
    | [] => inl IndexError
    | top :: _ =>
        let cur_pos := pos (option_ top) in
        let playlist_len := List.length (prev_options top) in
        let allow_next := Nat.ltb cur_pos (playlist_len - 1) in
        inr (mkMenu num_options (Nat.ltb 0 cur_pos) allow_next true
               (allow_next || at3) cur_pos)
    end
  else inr (mkMenu num_options false false false at3 0).

Definition prompt_txt (m : menu) (stack : list Breadcrumb) : string :=
  let prompts : list string :=
    (if Nat.ltb 0 (num_options m)
     then [("[1-" ++ str (num_options m) ++ "]")%string] else [])
    ++ (if allow_autoplay m then ["[a]utoplay"] else [])
    ++ (if allow_replay m then ["[r]eplay"] else [])
    ++ (if allow_prev m then ["[p]revious"] else [])
    ++ (if allow_next m then ["[n]ext"] else [])
    ++ (if Nat.ltb 0 (List.length stack) then ["[b]ack"] else [])
    ++ ["[q]uit"] in
  (String.concat ", " prompts ++ "> ")%string.

(** One pass of the [while True] loop on one line of input. *)
Inductive pass : Type :=
| Exited (code : nat)
| Returned (r : returned) (stack : list Breadcrumb)
| Again (text : string)
| Raised (e : exn).

(** [stack[-1].option = stack[-1].prev_options[i]; return r] *)
Definition reselect (stack : list Breadcrumb) (i : nat) (r : Result) : pass :=
  match stack with
  | [] => Raised IndexError
  | top :: rest =>
      match nth_error (prev_options top) i with
      | Some o => Returned (RetResult r) (mkBreadcrumb o (prev_options top) :: rest)
      | None => Raised IndexError
      end
  end.

(** [stack.append(Breadcrumb(options[i], options))] *)
Definition descend (options : list Option) (stack : list Breadcrumb)
    (i : nat) (r : Option -> returned) : pass :=
  match nth_error options i with
  | Some o => Returned (r o) (mkBreadcrumb o options :: stack)
  | None => Raised IndexError
  end.

Definition respond (options : list Option) (stack : list Breadcrumb)
    (m : menu) (line : string) : pass :=
  let resp := lower (strip line) in
  if String.eqb resp "q" then Exited 0
  else if Nat.ltb 0 (List.length stack) && String.eqb resp "b" then
    match stack with
    | top :: rest => Returned (RetBreadcrumb top) rest
    | [] => Raised IndexError
    end
  else if allow_replay m && String.eqb resp "r" then
    Returned (RetResult PLAY) stack
  else if allow_prev m && String.eqb resp "p" then
    reselect stack (cur_pos m - 1) PLAY
  else if allow_next m && String.eqb resp "n" then
    reselect stack (cur_pos m + 1) PLAY
  else if allow_autoplay m && String.eqb resp "a" then
    if Nat.eqb (List.length stack) 3
    then descend options stack 0 (fun _ => RetResult AUTOPLAY_ALL)
    else reselect stack (cur_pos m + 1) AUTOPLAY
  else if Nat.ltb 0 (num_options m) then
    match py_int resp with
    | None => Again "Unknown input, try again!"
    | Some intval =>
        if Z.ltb intval 1 || Z.gtb intval (Z.of_nat (num_options m))
        then Again ("Number must be from 1 to " ++ str (num_options m))%string
        else if Nat.eqb (List.length stack) 4
        then reselect stack (Z.to_nat (intval - 1)) PLAY
        else descend options stack (Z.to_nat (intval - 1)) RetOption
    end
  else Again "Unknown input, try again!".

(** How a call of [process_options], or one turn of [run], ends. *)
Inductive stop : Type :=
| Exit (code : nat)
| Crash (e : exn)
| Waiting.

(** The prompt loop over the lines typed; [Waiting] when the loop is left
    in [input()] with no line to read.  What comes back is the value
    returned, the stack as left, and the lines not yet read. *)
Fixpoint prompt_loop (options : list Option) (stack : list Breadcrumb)
    (m : menu) (lines : list string)
    : list out * (stop + returned * list Breadcrumb * list string) :=
  let shown := OutMenu options (prompt_txt m stack) in
  match lines with
  | [] => ([shown], inl Waiting)
  | line :: rest =>
      match respond options stack m line with
      | Exited code => ([shown], inl (Exit code))
      | Raised e => ([shown], inl (Crash e))
      | Returned r stack' => ([shown], inr (r, stack', rest))
      | Again text =>
          let (o, r) := prompt_loop options stack m rest in
          (shown :: OutError text :: o, r)
      end
  end.

Definition process_options (options : list Option) (stack : list Breadcrumb)
    (playing : bool) (lines : list string)
    : list out * (stop + returned * list Breadcrumb * list string) :=
  match menu_of options stack playing with
  | inl e => ([], inl (Crash e))
  | inr m => prompt_loop options stack m lines
  end.

(** ** [App.run(self)] *)

Record App : Type := mkApp {
  npc : HDialogue.Registry;
  enemy : HDialogue.Registry;
  loot : HDialogue.Registry
}.

Record state : Type := mkState {
  playing : bool;
  autoplaying : bool;
  options : option (list Option);
  stack : list Breadcrumb
}.

Definition initial : state := mkState false false None [].

Fixpoint insert_by_name {V} (kv : string * V) (l : list (string * V))
  : list (string * V) :=
  match l with
  | [] => [kv]
  | kv' :: r =>
      if String.leb (fst kv) (fst kv') then kv :: l
      else kv' :: insert_by_name kv r
  end.

(** [sorted(d.items())]: the keys of a dict are distinct, so the pairs are
    ordered by their names alone. *)
Definition sorted {V} (l : list (string * V)) : list (string * V) :=
  fold_right insert_by_name [] l.

(** [enumerate] *)
Fixpoint enumerate {A} (start : nat) (l : list A) : list (nat * A) :=
  match l with
  | [] => []
  | x :: r => (start, x) :: enumerate (S start) r
  end.

(** [data.items()] on an option's payload. *)
Definition items_of (d : payload) : exn + list (string * payload) :=
  match d with
  | DRegistry r => inr (map (fun kv => (fst kv, DBank (snd kv))) r)
  | DCategory c => inr (map (fun kv => (fst kv, DVO (snd kv))) c)
  | _ => inl AttributeError
  end.

(** [case 2]: the non-empty categories of a bank, numbered as they come. *)
Fixpoint category_options (num : nat) (gs : list HDialogue.group)
  : list Option :=
  match gs with
  | [] => []
  | (_, name, category) :: rest =>
      if Nat.ltb 0 (List.length category)
      then Option_init name (DCategory category) num None
           :: category_options (S num) rest
      else category_options num rest
  end.

Definition lineset_label (num total : nat) (key : string) : string :=
  ("([dim cyan]" ++ str (num + 1) ++ "[/dim cyan]/[dim cyan]" ++ str total
   ++ "[/dim cyan]) " ++ key)%string.

(** [if options is None: match len(stack): ...], giving [playing] and
    [options]. *)
Definition refresh (app : App) (stack : list Breadcrumb) (playing : bool)
  : list out * (stop + bool * list Option) :=
  match stack with
  | [] =>
      ([], inr (playing,
                [ Option_init "NPCs" (DRegistry (npc app)) 0 None;
                  Option_init "Enemies" (DRegistry (enemy app)) 1 None;
                  Option_init "Loot" (DRegistry (loot app)) 2 None ]))
  | top :: _ =>
      match List.length stack with
      | 1 =>
          match items_of (data (option_ top)) with
          | inl e => ([], inl (Crash e))
          | inr items =>
              ([], inr (playing,
                        map (fun nkv => Option_init (fst (snd nkv))
                                          (snd (snd nkv)) (fst nkv) None)
                            (enumerate 0 (sorted items))))
          end
      | 2 =>
          match data (option_ top) with
          | DBank b =>
              ([], inr (playing, category_options 0 (HDialogue.groups b)))
          | _ => ([], inl (Crash AttributeError))
          end
      | 3 =>
          match data (option_ top) with
          | DCategory c =>
              let total := List.length c in
              ([], inr (playing,
                        map (fun nkv => Option_init (fst (snd nkv))
                                          (DVO (snd (snd nkv))) (fst nkv)
                                          (Some (lineset_label (fst nkv) total
                                                   (fst (snd nkv)))))
                            (enumerate 0 c)))
          | _ => ([], inl (Crash TypeError))
          end
      | 4 => ([], inr (true, []))
      | _ => ([OutError "Unknown state, exiting!"], inl (Exit 1))
      end
  end.

Definition header_txt (stack : list Breadcrumb) : string :=
  match stack with
  | [] => "Choose a Category:"
  | _ => String.concat " > "
           (map (fun s => breadcrumb_label (option_ s)) (rev stack))
  end.

(** What a call of [VO.play] does.  The call prints, wraps the text of the
    cues, sleeps and runs the media player: it comes back, or one of these
    raises ([textwrap.wrap] on a text that is no string, [time.sleep] on a
    delay too large, [subprocess.run] on a player that cannot be started,
    ...), and [run] catches nothing. *)
Inductive play_result : Type :=
| PlayDone
| PlayRaised (e : exn).

(** [stack[-1].option.data.play()], with what the call does when it is
    made.  [OutPlay vo] is the call itself. *)
Definition play_top (stack : list Breadcrumb) (played : play_result)
  : list out * (exn + unit) :=
  match stack with
  | [] => ([], inl IndexError)
  | top :: _ =>
      match data (option_ top) with
      | DVO vo =>
          match played with
          | PlayDone => ([OutPlay vo], inr tt)
          | PlayRaised e => ([OutPlay vo], inl e)
          end
      | _ => ([], inl AttributeError)
      end
  end.

(** [result = self.process_options(options, stack, playing=playing)] and
    the [if]/[elif] chain on [result]; [autoplaying] is [False] when the
    loop gets there. *)
Definition ask (playing : bool) (options : list Option)
    (stack : list Breadcrumb) (lines : list string)
  : list out * (stop + state * list string) :=
  let (o, r) := process_options options stack playing lines in
  match r with
  | inl s => (o, inl s)
  | inr (RetBreadcrumb b, stack', rest) =>
      (o, inr (mkState false false (Some (prev_options b)) stack', rest))
  | inr (RetOption _, stack', rest) =>
      (o, inr (mkState playing false None stack', rest))
  | inr (RetResult PLAY, stack', rest) =>
      (o, inr (mkState playing false (Some options) stack', rest))
  | inr (RetResult AUTOPLAY, stack', rest) =>
      (o, inr (mkState playing true (Some options) stack', rest))
  | inr (RetResult AUTOPLAY_ALL, stack', rest) =>
      (o, inr (mkState playing true None stack', rest))
  end.

(** The part of a turn after the menu has been refreshed and the line-set
    played, from [if autoplaying:] on.  [auto] is what [inputimeout] gives:
    a line typed within the two seconds, or [None] when it times out. *)
Definition after_play (playing autoplaying : bool) (options : list Option)
    (stack : list Breadcrumb) (auto : option string) (lines : list string)
  : list out * (stop + state * list string) :=
  if autoplaying then
    match stack with
    | [] => ([], inl (Crash IndexError))
    | top :: below =>
        if Nat.ltb (pos (option_ top)) (List.length (prev_options top) - 1)
        then
          match auto with
          | Some _ =>
              let (o, r) := ask playing options stack lines in
              (OutAutoPrompt :: o, r)
          | None =>
              match nth_error (prev_options top) (pos (option_ top) + 1) with
              | Some o =>
                  ([OutAutoPrompt],
                   inr (mkState playing true (Some options)
                          (mkBreadcrumb o (prev_options top) :: below), lines))
              | None => ([OutAutoPrompt], inl (Crash IndexError))
              end
          end
        else
          ([], inr (mkState false false (Some (prev_options top)) below, lines))
    end
  else ask playing options stack lines.

(** One turn of the [while True] loop of [run].  [played] is what the call
    of [play] does, should the turn make it; [auto] and [lines] are what
    is typed. *)
Definition turn (app : App) (st : state) (played : play_result)
    (auto : option string) (lines : list string)
  : list out * (stop + state * list string) :=
  let head := OutHeader (header_txt (stack st)) in
  let (o1, r1) :=
    match options st with
    | None => refresh app (stack st) (playing st)
    | Some options => ([], inr (playing st, options))
    end in
  match r1 with
  | inl s => (head :: o1, inl s)
  | inr (playing, options) =>
      let (o2, r2) :=
        if playing : bool then play_top (stack st) played
        else ([], inr tt) in
      match r2 with
      | inl e => (head :: o1 ++ o2, inl (Crash e))
      | inr _ =>
          let (o3, r3) :=
            after_play playing (autoplaying st) options (stack st) auto lines in
          (head :: o1 ++ o2 ++ o3, r3)
      end
  end.

(** The states the session can be in at the top of the loop. *)
Inductive reachable (app : App) : state -> Prop :=
| reach_initial : reachable app initial
| reach_turn st played auto lines o st' rest :
    reachable app st ->
    turn app st played auto lines = (o, inr (st', rest)) ->
    reachable app st'.

End PlayInteractive.

(* ===================================================================== *)
(** * Notions used to state the properties                                *)
(* ===================================================================== *)

Module Spec.
Import Py HDialogue.

(** The optional fields of a raw cue map have the types of the input
    format: [PreLineWait] is accepted by [float], [StartSound] is a
    string; and an [int] given as external delay fits a float. *)
Definition cue_fields_typed (float_of_str : string -> option spec_float)
    (kvs : list (string * json)) (external_delay : pynum) : Prop :=
  (forall v, dict_get kvs "PreLineWait" = Some v ->
             exists f, result (py_float float_of_str v) = Ok f)
  /\ (forall v, dict_get kvs "StartSound" = Some v -> exists s, v = JStr s)
  /\ (forall z, external_delay = PInt z -> exists g, float_of_Z z = inr g).

(** [{"PreLineWait": 2, "0": {"Cue": "/VO/Greet"},
      "1": {"Cue": "/VO/Bye", "PreLineWait": 1}}] *)
Definition greet_bye : json :=
  JDict [ ("PreLineWait", JInt 2);
          ("0", JDict [("Cue", JStr "/VO/Greet")]);
          ("1", JDict [("Cue", JStr "/VO/Bye"); ("PreLineWait", JInt 1)]) ].

(** The floats 1.0 and 2.0. *)
Definition one : spec_float := S754_finite false 4503599627370496 (-52).
Definition two : spec_float := S754_finite false 4503599627370496 (-51).

(** "As many consecutive keys as exist": how many of the keys ["0"],
    ["1"], ["2"], ... are present before the first one that is missing.
    There cannot be more of them than the dict has keys. *)
Fixpoint run_length (present : nat -> bool) (start allowance : nat) : nat :=
  match allowance with
  | O => 0
  | S allowance' =>
      if present start then S (run_length present (S start) allowance')
      else 0
  end.

Definition consecutive_keys (kvs : list (string * json)) : nat :=
  run_length (fun num => dict_in (str num) kvs) 0 (List.length kvs).

(** [{"0": {"Cue": "/VO/A"}, "2": {"Cue": "/VO/B"}, "3": {"Cue": "/VO/C"}}]:
    the key ["1"] is missing. *)
Definition gapped : list (string * json) :=
  [ ("0", JDict [("Cue", JStr "/VO/A")]);
    ("2", JDict [("Cue", JStr "/VO/B")]);
    ("3", JDict [("Cue", JStr "/VO/C")]) ].

(** The numbers below the number of keys whose key is present, in
    ascending order; and the entries a list of numbers leads to, those
    whose key is missing left out. *)
Definition present_numbers (kvs : list (string * json)) : list nat :=
  filter (fun num => dict_in (str num) kvs) (seq 0 (List.length kvs)).

Definition entries_at (kvs : list (string * json)) (nums : list nat)
  : list json :=
  flat_map (fun num => match dict_get kvs (str num) with
                       | Some entry => [entry]
                       | None => []
                       end) nums.

(** The entries of a map at [str(0)], ..., [str(n-1)], [n] the number of
    its keys: the ones that are there, in ascending order. *)
Definition numbered_entries (kvs : list (string * json)) : list json :=
  entries_at kvs (seq 0 (List.length kvs)).

Section Reading.
Variable float_of_str : string -> option spec_float.
Variable build : json -> M VO.
Variable choice_text : option json.

(** The cues of the choices of a block, those of the choices that
    build. *)
Definition cues_of_choices (choices : list json) : list Cue :=
  flat_map (fun sub => match result (build sub) with
                       | Ok vo => cues vo
                       | Raise _ => []
                       end) choices.

(** The cues that a series of entries gives when each is processed in
    turn.  A block of choices gives the cues of its choices.  Any other
    entry is handed to [Cue.from_data]: the wait pending goes to the
    first one that gives a cue, the later ones are read with no wait,
    and one that gives no cue is passed over. *)
Fixpoint cues_read (entries : list json) (delay : pynum) : list Cue :=
  match entries with
  | [] => []
  | entry :: rest =>
      match choices_of entry with
      | Some choices => cues_of_choices choices ++ cues_read rest delay
      | None =>
          match result (from_data float_of_str entry delay choice_text) with
          | Ok c => c :: cues_read rest (PInt 0)
          | Raise _ => cues_read rest delay
          end
      end
  end.

(** The series is read to its end: nothing is raised on the way but what
    the loop catches, [NoCuesException] by a choice and
    [NotACueException] by [Cue.from_data]. *)
Fixpoint choices_build (choices : list json) : Prop :=
  match choices with
  | [] => True
  | sub :: rest =>
      match result (build sub) with
      | Ok _ => True
      | Raise e => e = NoCuesException
      end
      /\ choices_build rest
  end.

Fixpoint read_through (entries : list json) (delay : pynum) : Prop :=
  match entries with
  | [] => True
  | entry :: rest =>
      match choices_of entry with
      | Some choices => choices_build choices /\ read_through rest delay
      | None =>
          match result (from_data float_of_str entry delay choice_text) with
          | Ok _ => read_through rest (PInt 0)
          | Raise e => e = NotACueException /\ read_through rest delay
          end
      end
  end.
End Reading.

(** The wait a map starts with: [float(data['PreLineWait'])], or the int 0
    when the map has no such key. *)
Definition initial_wait (float_of_str : string -> option spec_float)
    (kvs : list (string * json)) (d : pynum) : Prop :=
  match dict_get kvs "PreLineWait" with
  | None => d = PInt 0
  | Some v => exists f, result (py_float float_of_str v) = Ok f
                        /\ d = PFloat f
  end.

(** A map of six keys with gaps at ["0"] and ["2"], an entry with no cue
    at ["3"], a block of two choices at ["4"], the second of which has no
    cue, and an entry at ["9"]. *)
Definition scattered : list (string * json) :=
  [ ("1", JDict [("Cue", JStr "/VO/A")]);
    ("ChoiceText", JStr "Hello");
    ("3", JDict [("Text", JStr "no cue")]);
    ("4", JDict [("Choices",
                  JList [ JDict [("0", JDict [("Cue", JStr "/VO/B")])];
                          JList [] ])]);
    ("5", JDict [("Cue", JStr "/VO/C")]);
    ("9", JDict [("Cue", JStr "/VO/D")]) ].

(** The line-sets of a raw section in the order [Bank.__init__] meets
    them: category after category, each category's items in order. *)
Definition linesets_of (gs : list group) (kvs : list (string * json))
  : list (string * json) :=
  flat_map (fun g : group =>
              match dict_get kvs (fst (fst g)) with
              | Some (JDict items) => items
              | _ => []
              end) gs.

(** Those of them that build, with the line-set built. *)
Definition built (build : json -> option string -> M VO)
    (items : list (string * json)) : list (string * VO) :=
  flat_map (fun item : string * json =>
              match result (build (snd item) (Some (fst item))) with
              | Ok vo => [(fst item, vo)]
              | Raise _ => []
              end) items.

(** How many times a name was built. *)
Definition times_built (label : string) (l : list (string * VO)) : nat :=
  List.length (filter (fun kv => String.eqb (fst kv) label) l).

(** How many times the duplicate warning was printed for a name. *)
Definition warnings_for (label : string) (out : list diag) : nat :=
  List.length (filter (fun d => match d with
                                | WarnMoreThanOneCategory l => String.eqb l label
                                | _ => false
                                end) out).

(** A [float(s)] that refuses every string, for the examples: none of
    them holds a number as a string. *)
Definition no_float_of_str : string -> option spec_float := fun _ => None.

(** A raw section where [Greeting] is in two categories and
    [HermesPostEnding01] is too. *)
Definition twice : list (string * json) :=
  [ ("InteractTextLineSets",
     JDict [ ("Greeting", JList [JDict [("Cue", JStr "/VO/First")]]);
             ("HermesPostEnding01",
              JList [JDict [("Cue", JStr "/VO/HermesA")]]) ]);
    ("GiftTextLineSets",
     JDict [ ("Greeting", JList [JDict [("Cue", JStr "/VO/Second")]]);
             ("HermesPostEnding01",
              JList [JDict [("Cue", JStr "/VO/HermesB")]]) ]) ].

(** What is built from it for an NPC. *)
Definition twice_built : list (string * VO) :=
  built (VO_new no_float_of_str) (linesets_of NPCBank_groups twice).

(** [never e m]: the computation [m] does not raise [e]. *)
Definition never {A} (e : exn) (m : M A) : Prop := result m <> Raise e.

(** [quiet m]: [m] prints no duplicate-name warning. *)
Definition quiet {A} (m : M A) : Prop :=
  forall l, ~ In (WarnMoreThanOneCategory l) (output m).

(** The first half of [from_data]: the value of the local [cue]. *)
Definition cue_part (data : json) : M (option string) :=
  bind (py_in "Cue" data) (fun has_cue =>
  if has_cue : bool then
    bind (py_getitem data "Cue") (fun v =>
    if is_str v EmptyString then ret (Some EmptyString)
    else
      bind (vo_re_match_value v) (fun m =>
      match m with
      | Some id => ret (Some id)
      | None => bind (warn_without_match v) (fun _ => ret None)
      end))
  else ret None).

(** The second half, once [cue] is known not to be [None]. *)
Definition cue_rest (float_of_str : string -> option spec_float)
    (data : json) (external_delay : pynum) (choice : option json)
    (cue : string) : M Cue :=
  bind (py_in "Text" data) (fun has_text =>
  bind (if has_text : bool then
          bind (py_getitem data "Text") (fun v => ret (Some v))
        else ret None) (fun text =>
  bind (py_in "PreLineWait" data) (fun has_wait =>
  bind (if has_wait : bool then
          bind (py_getitem data "PreLineWait") (fun v =>
          bind (py_float float_of_str v) (fun f => ret (PFloat f)))
        else ret (PInt 0)) (fun delay =>
  bind (py_in "StartSound" data) (fun has_start =>
  bind (if has_start : bool then
          bind (py_getitem data "StartSound") (fun v =>
          bind (vo_re_match_value v) (fun m =>
          match m with
          | Some id => ret (Some id)
          | None =>
              if known_unresolved v then ret None
              else bind (warn_without_match v) (fun _ => ret None)
          end))
        else ret None) (fun start_sound =>
  bind (py_add delay external_delay) (fun delay =>
  ret (mkCue cue text delay start_sound choice)))))))).

(** [f >= 0] on a float: a zero of either sign, a positive number or
    plus infinity. *)
Definition nonneg (f : spec_float) : bool :=
  match f with
  | S754_zero _ => true
  | S754_infinity s => negb s
  | S754_nan => false
  | S754_finite s _ _ => negb s
  end.

Definition is_digit (c : ascii) : bool :=
  Nat.leb 48 (nat_of_ascii c) && Nat.leb (nat_of_ascii c) 57.

Definition hermes : string := "HermesPostEnding01".

(** The warnings due for a name built [n] times, by whether the name was
    in [combined] before. *)
Definition due (label : string) (known : bool) (n : nat) : nat :=
  if String.eqb label hermes then 0 else if known then n else pred n.

(** [settled label c items out c']: going through [items] from the
    combined map [c] ends with [c'] and prints [out], and for [label]
    this is as it should be: the first line-set built stays, and every
    later one is warned about, [HermesPostEnding01] apart. *)
Definition settled (build : json -> option string -> M VO) (label : string)
    (c : list (string * VO)) (items : list (string * json))
    (out : list diag) (c' : list (string * VO)) : Prop :=
  dict_get c' label =
    match dict_get c label with
    | Some v => Some v
    | None => dict_get (built build items) label
    end
  /\ warnings_for label out
     = due label (dict_in label c) (times_built label (built build items)).

End Spec.

Module NavSpec.
Import Py PlayInteractive.

(** The menu level an option's payload belongs to. *)
Definition level (d : payload) : nat :=
  match d with
  | DRegistry _ => 1
  | DBank _ => 2
  | DCategory _ => 3
  | DVO _ => 4
  end.

Definition at_level (n : nat) (o : Option) : Prop := level (data o) = n.

(** Every frame holds an option of its own level, taken from a list of
    options of that level. *)
Fixpoint frames_ok (stack : list Breadcrumb) : Prop :=
  match stack with
  | [] => True
  | top :: below =>
      at_level (S (List.length below)) (option_ top)
      /\ In (option_ top) (prev_options top)
      /\ Forall (at_level (S (List.length below))) (prev_options top)
      /\ frames_ok below
  end.

(** What holds of the state each time the loop of [run] starts over. *)
Definition wf (st : state) : Prop :=
  List.length (stack st) <= 4
  /\ frames_ok (stack st)
  /\ (forall opts, options st = Some opts ->
                   Forall (at_level (S (List.length (stack st)))) opts)
  /\ (playing st = true -> List.length (stack st) = 4)
  /\ (List.length (stack st) = 4 -> playing st = true \/ options st = None)
  /\ (autoplaying st = true -> List.length (stack st) = 4).

(** The list of options a turn shows: the current one, or the one the
    turn derives when there is none. *)
Definition shown (app : App) (st : state) (opts : list Option) : Prop :=
  match options st with
  | Some o => o = opts
  | None => exists out p, refresh app (stack st) (playing st)
                          = (out, inr (p, opts))
  end.

(** The number typed on a line, and the command typed on it. *)
Definition types_number (line : string) (k : Z) : Prop :=
  py_int (lower (strip line)) = Some k.

Definition types_command (line : string) (c : string) : Prop :=
  lower (strip line) = c.

(** The state after one more turn in which the line-set played, if one
    is, plays to its end; the same state if the turn stops the session.
    And the state after a series of such turns from the start.  Each turn
    is given what [inputimeout] answers and the lines typed. *)
Definition step (app : App) (st : state) (i : option string * list string)
  : state :=
  match snd (turn app st PlayDone (fst i) (snd i)) with
  | inr (st', _) => st'
  | inl _ => st
  end.

Definition after (app : App) (inputs : list (option string * list string))
  : state :=
  fold_left (step app) inputs initial.

(** A catalogue with one NPC, whose bank is built from [Spec.twice]. *)
Definition demo_bank : HDialogue.Bank :=
  match result (HDialogue.Bank_new Spec.no_float_of_str
                  HDialogue.NPCBank_groups "Zagreus" (JDict Spec.twice)) with
  | Ok b => b
  | Raise _ => HDialogue.mkBank "Zagreus" [] []
  end.

Definition demo : App := mkApp [("Zagreus", demo_bank)] [] [].

(** From the start: NPCs, Zagreus, Interacts. *)
Definition at_linesets : state :=
  after demo [(None, ["1"]); (None, ["1"]); (None, ["1"])].

(** Then the first line-set. *)
Definition at_first_lineset : state :=
  after demo [(None, ["1"]); (None, ["1"]); (None, ["1"]); (None, ["1"])].

(** Or autoplay from the list, and no key pressed after the first
    line-set: the second and last one is up. *)
Definition autoplaying_last : state :=
  after demo [(None, ["1"]); (None, ["1"]); (None, ["1"]); (None, ["a"]);
              (None, [])].

(** The ways [respond] can return. *)
Inductive answered (options : list Option) (stack : list Breadcrumb)
    (m : menu) : returned -> list Breadcrumb -> Prop :=
| ans_back top below :
    stack = top :: below ->
    answered options stack m (RetBreadcrumb top) below
| ans_replay :
    allow_replay m = true ->
    answered options stack m (RetResult PLAY) stack
| ans_reselect top below o :
    stack = top :: below -> In o (prev_options top) ->
    allow_prev m = true \/ allow_next m = true \/ List.length stack = 4 ->
    answered options stack m (RetResult PLAY)
      (mkBreadcrumb o (prev_options top) :: below)
| ans_autoplay top below o :
    stack = top :: below -> In o (prev_options top) ->
    allow_next m = true ->
    answered options stack m (RetResult AUTOPLAY)
      (mkBreadcrumb o (prev_options top) :: below)
| ans_autoplay_all o :
    List.length stack = 3 -> In o options ->
    answered options stack m (RetResult AUTOPLAY_ALL)
      (mkBreadcrumb o options :: stack)
| ans_descend o :
    List.length stack <> 4 -> In o options ->
    answered options stack m (RetOption o) (mkBreadcrumb o options :: stack).

(** What a turn works with once the menu is refreshed. *)
Record ready (stack : list Breadcrumb) (playing autoplaying : bool)
    (options : list Option) : Prop := mkReady {
  ready_depth : List.length stack <= 4;
  ready_frames : frames_ok stack;
  ready_options : Forall (at_level (S (List.length stack))) options;
  ready_playing : playing = true -> List.length stack = 4;
  ready_four : List.length stack = 4 -> playing = true;
  ready_auto : autoplaying = true -> List.length stack = 4
}.

End NavSpec.

(* ===================================================================== *)
(** * hdialogue/hdialogue.py: the audio library, playback, the registries *)
(* ===================================================================== *)

Module Ogg.
Import Py HDialogue.

(** ** [class OggLibrary] *)

(** The longest prefix of decimal digits, and what follows it. *)
Fixpoint digit_run (s : string) : string * string :=
  match s with
  | EmptyString => (EmptyString, EmptyString)
  | String c s' =>
      if Spec.is_digit c
      then let (d, tail) := digit_run s' in (String c d, tail)
      else (EmptyString, s)
  end.

Fixpoint all_nonspace (s : string) : bool :=
  match s with
  | EmptyString => true
  | String c s' => negb (isspace c) && all_nonspace s'
  end.

(** [s] without its ending [suf], when it ends that way. *)
Fixpoint strip_suffix (suf s : string) : option string :=
  if String.eqb s suf then Some EmptyString
  else match s with
       | EmptyString => None
       | String c s' => option_map (String c) (strip_suffix suf s')
       end.

(** [ogg_re.match(filename)] for
    [ogg_re = re.compile(r'^(?P<num>\d+)\.(?P<vo>\S+)\.ogg$')], giving the
    groups [num] and [vo].  [\d+] has to take the whole run of digits (a
    shorter one is followed by a digit, not by the dot); [$] matches at
    the end or before a final newline, so what follows the dot ends in
    [.ogg] or in [.ogg] and a newline, and [\S+] is the rest of it. *)
Definition ogg_re_match (filename : string) : option (string * string) :=
  let (num, rest) := digit_run filename in
  match num, rest with
  | String _ _, String "."%char body =>
      let vo := match strip_suffix ".ogg" body with
                | Some v => Some v
                | None => strip_suffix (".ogg" ++ newline) body
                end in
      match vo with
      | Some (String _ _ as v) =>
          if all_nonspace v then Some (num, v) else None
      | _ => None
      end
  | _, _ => None
  end.

Fixpoint ends_with_slash (s : string) : bool :=
  match s with
  | EmptyString => false
  | String c EmptyString => Ascii.eqb c "/"%char
  | String _ s' => ends_with_slash s'
  end.

(** [os.path.join(a, b)] as [posixpath] has it. *)
Definition path_join (a b : string) : string :=
  if startswith b "/" then b
  else if String.eqb a EmptyString || ends_with_slash a then (a ++ b)%string
  else (a ++ "/" ++ b)%string.

(** [OggLibrary.__init__(self, base_path)], giving [self.oggs]; [listing]
    is what [os.listdir(base_path)] returns. *)
Definition OggLibrary_init (base_path : string) (listing : list string)
  : list (string * string) :=
  fold_left (fun oggs filename =>
               match ogg_re_match filename with
               | Some (_, vo) => dict_set oggs vo (path_join base_path filename)
               | None => oggs
               end) listing [].

(** [key in self] and [self[key]] *)
Definition contains (oggs : list (string * string)) (key : string) : bool :=
  dict_in key oggs.

Definition getitem (oggs : list (string * string)) (key : string)
  : exn + string :=
  match dict_get oggs key with
  | Some path => inr path
  | None => inl KeyError
  end.

End Ogg.

Module Player.
Import Py HDialogue.

(** ** [BaseConfig.media_player_list] *)

(** [str.split()]: the maximal runs of non-space characters. *)
Fixpoint split (s : string) : list string :=
  match s with
  | EmptyString => []
  | String c s' =>
      let rest := split s' in
      if isspace c then rest
      else match s' with
           | EmptyString => [String c EmptyString]
           | String d _ =>
               if isspace d then String c EmptyString :: rest
               else match rest with
                    | w :: ws => String c w :: ws
                    | [] => [String c EmptyString]
                    end
           end
  end.

(** The two fields of the configuration that playback reads. *)
Record Config : Type := mkConfig {
  media_player : string;
  _media_player_list : list string
}.

(** The property [media_player_list]: the list and the configuration as
    the call leaves it. *)
Definition media_player_list (config : Config) : list string * Config :=
  match _media_player_list config with
  | [] =>
      let l := split (media_player config) in
      (l, mkConfig (media_player config) l)
  | l => (l, config)
  end.

(** ** [Cue.label(self)] *)

(** Truth value of a decoded value. *)
Definition truthy (v : json) : bool :=
  match v with
  | JNull => false
  | JBool b => b
  | JInt z => negb (Z.eqb z 0)
  | JFloat (S754_zero _) => false
  | JFloat _ => true
  | JStr EmptyString => false
  | JStr _ => true
  | JList [] => false
  | JList _ => true
  | JDict [] => false
  | JDict _ => true
  end.

(** [a > 0] *)
Definition py_gt0 (a : pynum) : bool :=
  match pynum_sign a with
  | Some Gt => true
  | _ => false
  end.

(** The parts joined by a space into the label. *)
Inductive label_part : Type :=
| NoAudio
| Audio (cue : string)
| Delayed (delay : pynum)
| WithStartSound (start_sound : string)
| WithChoice (choice : json).

Definition Cue_label (c : Cue) : list label_part :=
  [ if String.eqb (cue c) EmptyString then NoAudio else Audio (cue c) ]
  ++ (if py_gt0 (delay c) then [Delayed (delay c)] else [])
  ++ match start_sound c with
     | Some (String _ _ as s) => [WithStartSound s]
     | _ => []
     end
  ++ match choice c with
     | Some v => if truthy v then [WithChoice v] else []
     | None => []
     end.

(** ** [VO.play(self, do_prompt=False)] *)

(** What playback prints and calls, in order: the title and its rule, a
    cue's label, its wrapped text, [time.sleep], [subprocess.run], the
    line for a cue the library does not have, an empty line,
    [input('Enter to continue...')]; and the two kinds of lines that
    [play_cli] prints. *)
Inductive played : Type :=
| Title (label : string)
| NoLabel
| CueLine (parts : list label_part)
| TextLines (text : string)
| Sleep (delay : pynum)
| Run (command : list string)
| NotFound (cue : string)
| Blank
| Prompt
| Listed (label : option string)
| Note (line : string).

(** [command.index('{}')] *)
Fixpoint index (x : string) (l : list string) : option nat :=
  match l with
  | [] => None
  | y :: r => if String.eqb y x then Some 0 else option_map S (index x r)
  end.

(** [command[i] = v] for an [i] that [index] gave. *)
Fixpoint set_item (l : list string) (i : nat) (v : string) : list string :=
  match l, i with
  | [], _ => []
  | _ :: r, O => v :: r
  | y :: r, S i' => y :: set_item r i' v
  end.

(** [command = list(media_player_list); try: command[command.index('{}')]
    = path  except ValueError: command.append(path)] *)
Definition command_for (media_player_list : list string) (path : string)
  : list string :=
  match index "{}" media_player_list with
  | Some brace_idx => set_item media_player_list brace_idx path
  | None => media_player_list ++ [path]
  end.

(** [textwrap.wrap(cue.text, ...)] under [if cue.text is not None]: it
    calls [str] methods on its argument. *)
Definition text_lines (text : option json) : exn + list played :=
  match text with
  | None | Some JNull => inr []
  | Some (JStr s) => inr [TextLines s]
  | Some _ => inl AttributeError
  end.

(** The body of [for cue in self.cues]. *)
Definition play_cue (file_map : list (string * string)) (config : Config)
    (c : Cue) : list played * (exn + Config) :=
  match text_lines (text c) with
  | inl e => ([CueLine (Cue_label c)], inl e)
  | inr lines =>
      let sleep := if py_gt0 (delay c) then [Sleep (delay c)] else [] in
      let (audio, config') :=
        if String.eqb (cue c) EmptyString then ([], config)
        else
          match dict_get file_map (cue c) with
          | Some path =>
              let (command, config') := media_player_list config in
              ([Run (command_for command path)], config')
          | None => ([NotFound (cue c)], config)
          end in
      (CueLine (Cue_label c) :: lines ++ sleep ++ audio ++ [Blank],
       inr config')
  end.

Fixpoint play_cues (file_map : list (string * string)) (config : Config)
    (cs : list Cue) : list played * (exn + Config) :=
  match cs with
  | [] => ([], inr config)
  | c :: rest =>
      let (o, r) := play_cue file_map config c in
      match r with
      | inl e => (o, inl e)
      | inr config' =>
          let (o', r') := play_cues file_map config' rest in
          (o ++ o', r')
      end
  end.

Definition play (file_map : list (string * string)) (config : Config)
    (vo : VO) (do_prompt : bool) : list played * (exn + Config) :=
  let title := match label vo with
               | Some (String _ _ as l) => Title l
               | _ => NoLabel
               end in
  let (o, r) := play_cues file_map config (cues vo) in
  match r with
  | inl e => (title :: o, inl e)
  | inr config' =>
      (title :: o ++ (if do_prompt : bool then [Prompt; Blank] else []),
       inr config')
  end.

End Player.

Module Registries.
Import Py Py.Notations HDialogue.

(** ** [Bank.__iter__], [Bank.__contains__], [Bank.__getitem__] *)

Definition Bank_iter (b : Bank) : list VO :=
  flat_map (fun g : group => map snd (snd g)) (groups b).

Definition Bank_contains (b : Bank) (key : string) : bool :=
  dict_in key (combined b).

Definition Bank_getitem (b : Bank) (key : string) : exn + VO :=
  match dict_get (combined b) key with
  | Some vo => inr vo
  | None => inl KeyError
  end.

(** ** [class Registry] *)

Section Classes.
Variable float_of_str : string -> option spec_float.

(** [NPCBank(name, file_map, config, data)] and the two others. *)
Definition NPCBank : string -> json -> M Bank :=
Bank_new float_of_str NPCBank_groups.
Definition EnemyBank : string -> json -> M Bank :=
Bank_new float_of_str EnemyBank_groups.
Definition LootBank : string -> json -> M Bank :=
Bank_new float_of_str LootBank_groups.
End Classes.

(** The body of [for section_name, section_data in raw_data.items()]. *)
Definition add_section (data_class : string -> json -> M Bank)
    (data : Registry) (item : string * json) : M Registry :=
  let (section_name, section_data) := item in
  try_except
    (section <- data_class section_name section_data ;;
     ret (dict_set data section_name section))
    NoVOsException (ret data).

Fixpoint add_sections (data_class : string -> json -> M Bank)
    (data : Registry) (items : list (string * json)) : M Registry :=
  match items with
  | [] => ret data
  | item :: rest =>
      data <- add_section data_class data item ;;
      add_sections data_class data rest
  end.

(** [Registry.__init__(self, data_class, file_map, config, raw_data)],
    giving [self.data]. *)
Definition Registry_init (data_class : string -> json -> M Bank)
    (raw_data : json) : M Registry :=
  match raw_data with
  | JDict items => add_sections data_class [] items
  | _ => raise AttributeError
  end.

(** [Registry.copyfrom(self, other_registry)] *)
Definition copyfrom (self other_registry : Registry) : Registry :=
  fold_left (fun data kv => dict_set data (fst kv) (snd kv))
            other_registry self.

Definition Registry_getitem (self : Registry) (key : string) : exn + Bank :=
  match dict_get self key with
  | Some b => inr b
  | None => inl KeyError
  end.

Definition keys (self : Registry) : list string := map fst self.
Definition values (self : Registry) : list Bank := map snd self.

(** ** [class Dialogue] *)

Record Dialogue : Type := mkDialogue {
  npc : Registry;
  enemy : Registry;
  loot : Registry
}.

(** [Dialogue.__init__], from the three documents that [json.load]
    returns on to the three registries. *)
Definition Dialogue_init (float_of_str : string -> option spec_float)
    (npcdata enemydata lootdata : json) : M Dialogue :=
  npcs <- py_getitem npcdata ".NPCs" ;;
  npc <- Registry_init (NPCBank float_of_str) npcs ;;
  enemies <- py_getitem enemydata ".Enemies" ;;
  enemy <- Registry_init (EnemyBank float_of_str) enemies ;;
  other <- Registry_init (NPCBank float_of_str) enemies ;;
  let npc := copyfrom npc other in
  other <- Registry_init (EnemyBank float_of_str) npcs ;;
  let enemy := copyfrom enemy other in
  loots <- py_getitem lootdata "LootData" ;;
  loot <- Registry_init (LootBank float_of_str) loots ;;
  ret (mkDialogue npc enemy loot).

(** ** [Dialogue._get_json_cache]: the text handed to the Lua decoder *)

Definition brace_line : string := "{" ++ newline.
Definition comma_line : string := "," ++ newline.
Definition close_line : string := "}" ++ newline.

(** The body of [for line in df]; the state is [injecting_comma], the
    result what is written to [lua]. *)
Fixpoint wrap_lines (injecting_comma : bool) (lines : list string)
  : list string :=
  match lines with
  | [] => []
  | line :: rest =>
      (if injecting_comma then [comma_line] else [])
      ++ line
      :: wrap_lines (String.eqb (PlayInteractive.rstrip line) "}") rest
  end.

(** Everything written to [lua], write by write. *)
Definition wrap_lua (lines : list string) : list string :=
  brace_line :: wrap_lines false lines ++ [close_line].

End Registries.

(* ===================================================================== *)
(** * play_cli.py                                                         *)
(* ===================================================================== *)

Module PlayCli.
Import Py HDialogue Player Registries.

(** The loop [for vo in bank: vo.play(do_prompt=True)]. *)
Fixpoint play_all (file_map : list (string * string)) (config : Config)
    (vos : list VO) : list played * (exn + Config) :=
  match vos with
  | [] => ([], inr config)
  | vo :: rest =>
      let (o, r) := play file_map config vo true in
      match r with
      | inl e => (o, inl e)
      | inr config' =>
          let (o', r') := play_all file_map config' rest in
          (o ++ o', r')
      end
  end.

(** [App.play_registry(self, registry, choice, specific_notes=None)];
    [which] is [self.config.which]. *)
Definition play_registry (file_map : list (string * string))
    (config : Config) (which : option string) (registry : Registry)
    (choice : string) (specific_notes : list (string * list string))
  : list played * (exn + Config) :=
  match which with
  | Some (String _ _ as which) =>
      if String.eqb which "list" then
        match Registry_getitem registry choice with
        | inl e => ([], inl e)
        | inr bank =>
            (map (fun vo => Listed (label vo)) (Bank_iter bank), inr config)
        end
      else
        let notes := match dict_get specific_notes which with
                     | Some lines => map Note lines
                     | None => []
                     end in
        match Registry_getitem registry choice with
        | inl e => (notes, inl e)
        | inr bank =>
            match Bank_getitem bank which with
            | inl e => (notes, inl e)
            | inr vo =>
                let (o, r) := play file_map config vo false in
                (notes ++ o, r)
            end
        end
  | _ =>
      match Registry_getitem registry choice with
      | inl e => ([], inl e)
      | inr bank => play_all file_map config (Bank_iter bank)
      end
  end.

End PlayCli.

(* ===================================================================== *)
(** * More notions used to state the properties                           *)
(* ===================================================================== *)

Module SpecMore.
Import Py HDialogue.

(** A string of one or more characters, none of them a space. *)
Definition word (s : string) : Prop :=
  s <> EmptyString /\ Ogg.all_nonspace s = true.

Fixpoint all_digits (s : string) : bool :=
  match s with
  | EmptyString => true
  | String c s' => Spec.is_digit c && all_digits s'
  end.

(** What follows a run is empty or starts with a space. *)
Definition stops (tail : string) : Prop :=
  match tail with
  | EmptyString => True
  | String c _ => isspace c = true
  end.

Fixpoint last_char (s : string) : option ascii :=
  match s with
  | EmptyString => None
  | String c EmptyString => Some c
  | String _ s' => last_char s'
  end.

(** The file name gives the library the key [vo]. *)
Definition names (vo : string) (filename : string) : bool :=
  match Ogg.ogg_re_match filename with
  | Some (_, v) => String.eqb v vo
  | None => false
  end.

(** The line-set built from [Spec.greet_bye] under the name [Greeting], a
    library that has a file for its first cue only, and a player. *)
Definition greet_bye_vo : VO :=
  match result (VO_new Spec.no_float_of_str Spec.greet_bye
                  (Some "Greeting")) with
  | Ok vo => vo
  | Raise _ => mkVO [] None
  end.

Definition one_file : list (string * string) :=
  Ogg.OggLibrary_init "/ogg" ["12.Greet.ogg"; "notes.txt"].

Definition mplayer : Player.Config :=
  Player.mkConfig "mplayer -really-quiet" [].

(** [filed build st st']: from the state [st] of a category's dict and
    the combined dict, storing some line-sets that [build] built, each
    under its name, gives [st']. *)
Inductive filed (build : json -> option string -> M VO)
  : list (string * VO) * list (string * VO)
    -> list (string * VO) * list (string * VO) -> Prop :=
| filed_none st : filed build st st
| filed_more obj c l x vo st' :
    result (build x (Some l)) = Ok vo ->
    filed build (dict_set obj l vo,
                 if dict_in l c then c else dict_set c l vo) st' ->
    filed build (obj, c) st'.

(** Every line-set of the dict was built under the name it has there. *)
Definition built_as (build : json -> option string -> M VO)
    (d : list (string * VO)) : Prop :=
  forall l vo, dict_get d l = Some vo ->
               exists x, result (build x (Some l)) = Ok vo.

(** The banks that build from the sections of a raw document, in order. *)
Definition banks_built (data_class : string -> json -> M Bank)
    (items : list (string * json)) : list (string * Bank) :=
  flat_map (fun item : string * json =>
              match result (data_class (fst item) (snd item)) with
              | Ok b => [(fst item, b)]
              | Raise _ => []
              end) items.

(** Three raw documents: the NPC file files [Cerberus] with an enemy's
    category, the enemy file files [Skelly] with an NPC's category, and
    [Nobody] has no category at all. *)
Definition one_line (cue : string) : json :=
  JList [JDict [("Cue", JStr cue)]].

Definition npc_sections : list (string * json) :=
  [ ("Zagreus", JDict Spec.twice);
    ("Cerberus",
     JDict [("BossPresentationTextLineSets",
             JDict [("Growl", one_line "/VO/Growl")])]);
    ("Nobody", JDict []) ].

Definition enemy_sections : list (string * json) :=
  [ ("Harpy",
     JDict [("BossPresentationIntroTextLineSets",
             JDict [("Intro", one_line "/VO/Harpy")])]);
    ("Skelly",
     JDict [("InteractTextLineSets",
             JDict [("Hello", one_line "/VO/Skelly")])]) ].

Definition npc_file : json := JDict [(".NPCs", JDict npc_sections)].
Definition enemy_file : json := JDict [(".Enemies", JDict enemy_sections)].
Definition loot_file : json := JDict [("LootData", JDict [])].

Definition demo_registry : Registry :=
  match result (Registries.Registry_init
                  (Registries.NPCBank Spec.no_float_of_str)
                  (JDict npc_sections)) with
  | Ok r => r
  | Raise _ => []
  end.

Definition demo_dialogue : Registries.Dialogue :=
  match result (Registries.Dialogue_init Spec.no_float_of_str
                  npc_file enemy_file loot_file) with
  | Ok d => d
  | Raise _ => Registries.mkDialogue [] [] []
  end.

(** A line that closes a table: [}] and nothing but spaces after it. *)
Definition closes (line : string) : bool :=
  String.eqb (PlayInteractive.rstrip line) "}".

End SpecMore.

(* ===================================================================== *)
(** * Properties                                                          *)
(* ===================================================================== *)

(** ** Reasoning about computations *)

Module PyFacts.
Import Py.

Lemma result_bind {A B} (m : M A) (f : A -> M B) :
  result (bind m f) =
  match result m with
  | Ok a => result (f a)
  | Raise e => Raise e
  end.
Proof.
  destruct m as [o [a | e]]; simpl; [ destruct (f a); reflexivity | reflexivity ].
Qed.

Lemma output_bind {A B} (m : M A) (f : A -> M B) :
  output (bind m f) =
  match result m with
  | Ok a => output m ++ output (f a)
  | Raise _ => output m
  end.
Proof.
  destruct m as [o [a | e]]; simpl; [ destruct (f a); reflexivity | reflexivity ].
Qed.

Lemma result_try_except {A} (m : M A) (e : exn) (h : M A) :
  result (try_except m e h) =
  match result m with
  | Ok a => Ok a
  | Raise e' => if exn_eqb e' e then result h else Raise e'
  end.
Proof.
  destruct m as [o [a | e']]; simpl; [ reflexivity | ].
  destruct (exn_eqb e' e); [ destruct h | ]; reflexivity.
Qed.

Lemma output_try_except {A} (m : M A) (e : exn) (h : M A) :
  output (try_except m e h) =
  match result m with
  | Ok _ => output m
  | Raise e' => if exn_eqb e' e then output m ++ output h else output m
  end.
Proof.
  destruct m as [o [a | e']]; simpl; [ reflexivity | ].
  destruct (exn_eqb e' e); [ destruct h | ]; reflexivity.
Qed.

Lemma bind_ret_l {A B} (a : A) (f : A -> M B) : bind (ret a) f = f a.
Proof. unfold bind, ret. destruct (f a); reflexivity. Qed.

Lemma bind_assoc {A B C} (m : M A) (f : A -> M B) (g : B -> M C) :
  bind (bind m f) g = bind m (fun a => bind (f a) g).
Proof.
  destruct m as [o [a | e]]; simpl; [ | reflexivity ].
  destruct (f a) as [o' [b | e']]; simpl; [ | reflexivity ].
  destruct (g b). rewrite app_assoc. reflexivity.
Qed.

Lemma bind_ext {A B} (m : M A) (f g : A -> M B) :
  (forall a, f a = g a) -> bind m f = bind m g.
Proof.
  intros H. destruct m as [o [a | e]]; simpl; [ rewrite H | ]; reflexivity.
Qed.

Lemma bind_ret_r {A} (m : M A) : bind m (fun a => ret a) = m.
Proof.
  destruct m as [o [a | e]]; simpl; [ rewrite app_nil_r | ]; reflexivity.
Qed.

Lemma bind_Ok {A B} (m : M A) (f : A -> M B) o b :
  bind m f = (o, Ok b) ->
  exists o1 a o2, m = (o1, Ok a) /\ f a = (o2, Ok b) /\ o = o1 ++ o2.
Proof.
  destruct m as [o1 [a | e]]; simpl; [ | discriminate ].
  destruct (f a) as [o2 r] eqn:E. intros H. inversion H; subst.
  exists o1, a, o2. auto.
Qed.

End PyFacts.

(** ** The line-set builder *)

Module VOFacts.
Import Py Py.Notations HDialogue PyFacts.

Section WithFloat.
Variable float_of_str : string -> option spec_float.

(** What [__init__] does once the cues are collected. *)
Lemma VO_init_finish depth data label o vo :
  VO_init float_of_str depth data label = (o, Ok vo) ->
  exists first rest,
    vo = mkVO (set_delay first (PInt 0) :: rest) label.
Proof.
  destruct depth as [| depth']; simpl; [ discriminate | ].
  intros H. apply bind_Ok in H.
  destruct H as (o1 & cs & o2 & _ & H & _).
  destruct cs as [| first rest]; [ discriminate | ].
  inversion H; subst. eauto.
Qed.
End WithFloat.

End VOFacts.

(** C1. Whenever a line-set is built, its first cue has delay 0, whatever
    [PreLineWait] the data carried: [VO.__init__] ends by overwriting
    [cues[0].delay]. *)
Theorem first_cue_delay_is_zero :
  forall float_of_str depth data label o vo,
    HDialogue.VO_init float_of_str depth data label = (o, Py.Ok vo) ->
    exists first rest,
      HDialogue.cues vo = first :: rest /\
      HDialogue.delay first = Py.PInt 0.
Proof.
  intros fos depth data label o vo H.
  destruct (VOFacts.VO_init_finish fos depth data label o vo H)
    as (first & rest & ->).
  simpl. eauto.
Qed.

Lemma first_cue_delay_is_zero_witness :
  exists first rest,
    HDialogue.cues
      (HDialogue.mkVO
         [HDialogue.mkCue "Greet" None (Py.PInt 0) None None] (Some "Hello"))
    = first :: rest /\
    HDialogue.delay first = Py.PInt 0.
Proof.
  apply (first_cue_delay_is_zero Spec.no_float_of_str 1
           (Py.JList [Py.JDict [("Cue", Py.JStr "/VO/Greet");
                                ("PreLineWait", Py.JInt 3)]])
           (Some "Hello") []).
  vm_compute. reflexivity.
Defined.

(** C4. The line-set [{"PreLineWait": 2, "0": {"Cue": "/VO/Greet"},
    "1": {"Cue": "/VO/Bye", "PreLineWait": 1}}] builds, printing nothing,
    into exactly two cues: [Greet] with delay 0 and [Bye] with delay 1.0.
    The initial wait of 2.0 goes to the first entry (parsed alone with that
    wait it has delay 2.0) and is used once: the second entry keeps its own
    wait of 1.0. *)
Theorem greet_bye_scenario :
  forall float_of_str,
    HDialogue.VO_new float_of_str Spec.greet_bye None
    = ([], Py.Ok (HDialogue.mkVO
                    [ HDialogue.mkCue "Greet" None (Py.PInt 0) None None;
                      HDialogue.mkCue "Bye" None (Py.PFloat Spec.one)
                        None None ]
                    None))
    /\ Py.result (Py.py_float float_of_str (Py.JInt 2)) = Py.Ok Spec.two
    /\ Py.result (Py.py_float float_of_str (Py.JInt 1)) = Py.Ok Spec.one
    /\ Py.result
         (HDialogue.from_data float_of_str
            (Py.JDict [("Cue", Py.JStr "/VO/Greet")])
            (Py.PFloat Spec.two) None)
       = Py.Ok (HDialogue.mkCue "Greet" None (Py.PFloat Spec.two) None None)
    /\ Py.result
         (HDialogue.from_data float_of_str
            (Py.JDict [("Cue", Py.JStr "/VO/Bye"); ("PreLineWait", Py.JInt 1)])
            (Py.PInt 0) None)
       = Py.Ok (HDialogue.mkCue "Bye" None (Py.PFloat Spec.one) None None).
Proof.
  intros fos. repeat split; vm_compute; reflexivity.
Qed.

(** ** The cue parser *)

Module CueFacts.
Import Py Py.Notations HDialogue Spec PyFacts.

Lemma never_ret {A} e (a : A) : never e (ret a).
Proof. discriminate. Qed.

Lemma never_print e d : never e (print d).
Proof. discriminate. Qed.

Lemma never_bind {A B} e (m : M A) (f : A -> M B) :
  never e m -> (forall a, never e (f a)) -> never e (bind m f).
Proof.
  unfold never. intros Hm Hf. rewrite result_bind.
  destruct (result m); [ apply Hf | ].
  intros H. apply Hm. congruence.
Qed.

Lemma never_raise {A} e e' : e' <> e -> never e (@raise A e').
Proof. unfold never; simpl. congruence. Qed.

Create HintDb never discriminated.
#[local] Hint Resolve never_ret never_print never_bind : never.
#[local] Hint Extern 1 (never _ (raise _)) =>
  (apply never_raise; discriminate) : never.

Lemma never_py_in e k data : e <> TypeError -> never e (py_in k data).
Proof. intros; destruct data; simpl; auto with never; apply never_raise; congruence. Qed.

Lemma never_py_getitem e data k :
  e <> TypeError -> e <> KeyError -> never e (py_getitem data k).
Proof.
  intros; destruct data; simpl; try (apply never_raise; congruence).
  destruct (dict_get kvs k); [ auto with never | apply never_raise; congruence ].
Qed.

Lemma never_lift_float e z : e <> OverflowError -> never e (lift (float_of_Z z)).
Proof.
  intros. unfold float_of_Z.
  destruct (binary_normalize prec emax z 0 false); simpl; auto with never.
  apply never_raise; congruence.
Qed.

Lemma never_py_float fos e v :
  e <> TypeError -> e <> ValueError -> e <> OverflowError ->
  never e (py_float fos v).
Proof.
  intros. destruct v; simpl; auto using never_lift_float with never;
    try (apply never_raise; congruence).
  destruct (fos s); [ auto with never | apply never_raise; congruence ].
Qed.

Lemma never_py_add e a b : e <> OverflowError -> never e (py_add a b).
Proof.
  intros. destruct a, b; simpl; auto using never_lift_float with never.
Qed.

Lemma never_vo_re_match_value e v : e <> TypeError -> never e (vo_re_match_value v).
Proof.
  intros; destruct v; simpl; auto with never; apply never_raise; congruence.
Qed.

Lemma never_warn e v : never e (warn_without_match v).
Proof. destruct v; simpl; auto with never. Qed.

#[local] Hint Resolve never_warn : never.

Section WithFloat.
Variable float_of_str : string -> option spec_float.

Lemma from_data_split data ext ch :
  from_data float_of_str data ext ch =
  bind (cue_part data)
    (fun cue => match cue with
                | None => raise NotACueException
                | Some cue => cue_rest float_of_str data ext ch cue
                end).
Proof. unfold cue_part. rewrite bind_assoc. reflexivity. Qed.

Lemma cue_rest_never_NotACue data ext ch cue :
  never NotACueException (cue_rest float_of_str data ext ch cue).
Proof.
  unfold cue_rest.
  repeat (first
    [ apply never_bind; [ | intros ? ]
    | apply never_py_in; discriminate
    | apply never_py_getitem; discriminate
    | apply never_py_float; discriminate
    | apply never_py_add; discriminate
    | apply never_vo_re_match_value; discriminate
    | apply never_ret
    | apply never_warn
    | match goal with |- never _ (if ?b then _ else _) => destruct b end
    | match goal with |- never _ (match ?b with _ => _ end) => destruct b end ]).
Qed.

Lemma cue_rest_cue data ext ch id c :
  result (cue_rest float_of_str data ext ch id) = Ok c -> cue c = id.
Proof.
  unfold cue_rest. intros H.
  repeat (rewrite result_bind in H;
          match type of H with
          | match result ?m with _ => _ end = _ =>
              destruct (result m); [ | discriminate ]
          end).
  simpl in H. inversion H. reflexivity.
Qed.

Lemma cue_part_never_NotACue data : never NotACueException (cue_part data).
Proof.
  unfold cue_part.
  repeat (first
    [ apply never_bind; [ | intros ? ]
    | apply never_py_in; discriminate
    | apply never_py_getitem; discriminate
    | apply never_vo_re_match_value; discriminate
    | apply never_ret
    | apply never_warn
    | match goal with |- never _ (if ?b then _ else _) => destruct b end
    | match goal with |- never _ (match ?b with _ => _ end) => destruct b end ]).
Qed.

(** [NotACueException] is raised exactly when the local [cue] stays
    [None]; the delay and the choice label play no part. *)
Lemma from_data_NotACue data ext ch :
  result (from_data float_of_str data ext ch) = Raise NotACueException
  <-> result (cue_part data) = Ok None.
Proof.
  rewrite from_data_split, result_bind.
  pose proof (cue_part_never_NotACue data) as Hp. unfold never in Hp.
  destruct (result (cue_part data)) as [[id |] | e].
  - pose proof (cue_rest_never_NotACue data ext ch id) as Hr.
    unfold never in Hr. split; [ contradiction | discriminate ].
  - simpl. split; reflexivity.
  - split; [ intros H; congruence | discriminate ].
Qed.

Lemma from_data_NotACue_any data ext ch ext' ch' :
  result (from_data float_of_str data ext ch) = Raise NotACueException ->
  result (from_data float_of_str data ext' ch') = Raise NotACueException.
Proof. rewrite !from_data_NotACue. auto. Qed.

(** [cue_part] on a map, by its ['Cue'] field. *)
Lemma cue_part_absent kvs :
  dict_get kvs "Cue" = None -> result (cue_part (JDict kvs)) = Ok None.
Proof.
  intros H. unfold cue_part. simpl py_in. rewrite bind_ret_l.
  unfold dict_in. rewrite H. reflexivity.
Qed.

Lemma cue_part_str kvs s :
  dict_get kvs "Cue" = Some (JStr s) ->
  result (cue_part (JDict kvs)) =
  Ok (if String.eqb s EmptyString then Some EmptyString else vo_re_match s).
Proof.
  intros H. unfold cue_part. simpl py_in. rewrite bind_ret_l.
  unfold dict_in. rewrite H. simpl py_getitem. rewrite H, bind_ret_l.
  simpl is_str. destruct (String.eqb s EmptyString); [ reflexivity | ].
  simpl vo_re_match_value. rewrite bind_ret_l.
  destruct (vo_re_match s); reflexivity.
Qed.
End WithFloat.

End CueFacts.

Module CueTotal.
Import Py Py.Notations HDialogue Spec PyFacts CueFacts.

Section WithFloat.
Variable float_of_str : string -> option spec_float.

Lemma py_add_float_total f ext :
  (forall z, ext = PInt z -> exists g, float_of_Z z = inr g) ->
  exists d, result (py_add (PFloat f) ext) = Ok d.
Proof.
  intros H. destruct ext as [z | g]; simpl.
  - destruct (H z eq_refl) as [g ->]. simpl. eauto.
  - eauto.
Qed.

Lemma py_add_zero_total ext : exists d, result (py_add (PInt 0) ext) = Ok d.
Proof. destruct ext; simpl; eauto. Qed.

(** With well-typed optional fields the second half of [from_data]
    returns. *)
Lemma cue_rest_total kvs ext ch id :
  Spec.cue_fields_typed float_of_str kvs ext ->
  exists c, result (cue_rest float_of_str (JDict kvs) ext ch id) = Ok c.
Proof.
  intros (Hw & Hs & He). unfold cue_rest. simpl py_in. unfold dict_in.
  rewrite bind_ret_l, result_bind.
  (* Text *)
  assert (Ht : exists t,
    result (if match dict_get kvs "Text" with Some _ => true | None => false end
            then v <- py_getitem (JDict kvs) "Text" ;; ret (Some v)
            else ret None) = Ok t).
  { simpl. destruct (dict_get kvs "Text"); simpl; eauto. }
  destruct Ht as [t ->]. rewrite bind_ret_l, result_bind.
  (* PreLineWait *)
  assert (Hd : exists d,
    result (if match dict_get kvs "PreLineWait" with Some _ => true | None => false end
            then v <- py_getitem (JDict kvs) "PreLineWait" ;;
                 f <- py_float float_of_str v ;; ret (PFloat f)
            else ret (PInt 0)) = Ok d
    /\ exists d', result (py_add d ext) = Ok d').
  { simpl. destruct (dict_get kvs "PreLineWait") as [v |] eqn:E.
    - destruct (Hw v eq_refl) as [f Hf]. rewrite bind_ret_l, result_bind, Hf.
      simpl. eexists; split; [ reflexivity | ].
      apply py_add_float_total; assumption.
    - simpl. eexists; split; [ reflexivity | apply py_add_zero_total ]. }
  destruct Hd as (d & -> & d' & Hd'). rewrite bind_ret_l, result_bind.
  (* StartSound *)
  assert (Hss : exists ss,
    result (if match dict_get kvs "StartSound" with Some _ => true | None => false end
            then v <- py_getitem (JDict kvs) "StartSound" ;;
                 m <- vo_re_match_value v ;;
                 match m with
                 | Some id => ret (Some id)
                 | None => if known_unresolved v then ret None
                           else warn_without_match v ;;; ret None
                 end
            else ret None) = Ok ss).
  { simpl. destruct (dict_get kvs "StartSound") as [v |] eqn:E.
    - destruct (Hs v eq_refl) as [s ->]. rewrite bind_ret_l. simpl.
      destruct (vo_re_match s); simpl; eauto.
      destruct (_ || _); simpl; eauto.
    - simpl. eauto. }
  destruct Hss as [ss ->]. rewrite result_bind, Hd'. simpl. eauto.
Qed.
End WithFloat.

End CueTotal.

(** C3. On a raw cue map, the ['Cue'] field alone decides
    [NotACueException].  If it is the empty string or matches [vo_re], the
    exception is never raised; for the empty string every cue returned has
    the empty id, and a cue is returned whenever the optional fields have the
    types of the input format.  If the field is absent, or is a non-empty
    string that does not match, the exception is always raised. *)
Theorem cue_field_decides_NotACue :
  forall float_of_str kvs external_delay choice,
    let r := Py.result (HDialogue.from_data float_of_str (Py.JDict kvs)
                          external_delay choice) in
    (forall s, Py.dict_get kvs "Cue" = Some (Py.JStr s) ->
               s = EmptyString \/ HDialogue.vo_re_match s <> None ->
               r <> Py.Raise Py.NotACueException)
    /\ (Py.dict_get kvs "Cue" = Some (Py.JStr EmptyString) ->
        (forall c, r = Py.Ok c -> HDialogue.cue c = EmptyString)
        /\ (Spec.cue_fields_typed float_of_str kvs external_delay ->
            exists c, r = Py.Ok c /\ HDialogue.cue c = EmptyString))
    /\ (Py.dict_get kvs "Cue" = None
        \/ (exists s, Py.dict_get kvs "Cue" = Some (Py.JStr s)
                      /\ s <> EmptyString /\ HDialogue.vo_re_match s = None) ->
        r = Py.Raise Py.NotACueException).
Proof.
  intros fos kvs ext ch r. subst r. repeat split.
  - intros s Hs Hm. rewrite CueFacts.from_data_NotACue.
    rewrite (CueFacts.cue_part_str kvs s Hs).
    destruct Hm as [-> | Hm]; [ discriminate | ].
    destruct (String.eqb s EmptyString); [ discriminate | ].
    destruct (HDialogue.vo_re_match s); congruence.
  - intros c Hc. rewrite CueFacts.from_data_split, PyFacts.result_bind in Hc.
    rewrite (CueFacts.cue_part_str kvs EmptyString H) in Hc. simpl in Hc.
    apply (CueFacts.cue_rest_cue fos _ _ _ _ _ Hc).
  - intros Ht. rewrite CueFacts.from_data_split, PyFacts.result_bind.
    rewrite (CueFacts.cue_part_str kvs EmptyString H). simpl.
    destruct (CueTotal.cue_rest_total fos kvs ext ch EmptyString Ht) as [c Hc].
    exists c. split; [ exact Hc | ].
    apply (CueFacts.cue_rest_cue fos _ _ _ _ _ Hc).
  - intros [Habs | (s & Hs & Hne & Hm)]; apply CueFacts.from_data_NotACue.
    + apply CueFacts.cue_part_absent; assumption.
    + rewrite (CueFacts.cue_part_str kvs s Hs).
      apply String.eqb_neq in Hne. rewrite Hne, Hm. reflexivity.
Qed.

Lemma cue_field_decides_NotACue_witness :
  (exists c,
     Py.result (HDialogue.from_data Spec.no_float_of_str
                  (Py.JDict [("Cue", Py.JStr EmptyString)]) (Py.PInt 0) None) = Py.Ok c
     /\ HDialogue.cue c = EmptyString)
  /\ Py.result (HDialogue.from_data Spec.no_float_of_str
                  (Py.JDict [("Cue", Py.JStr "/VO/Greet")]) (Py.PInt 0) None)
     <> Py.Raise Py.NotACueException
  /\ Py.result (HDialogue.from_data Spec.no_float_of_str
                  (Py.JDict [("Cue", Py.JStr "Greet")]) (Py.PInt 0) None)
     = Py.Raise Py.NotACueException
  /\ Py.result (HDialogue.from_data Spec.no_float_of_str
                  (Py.JDict [("Text", Py.JStr "Hello")]) (Py.PInt 0) None)
     = Py.Raise Py.NotACueException.
Proof.
  split; [ | split; [ | split ] ].
  - apply (cue_field_decides_NotACue Spec.no_float_of_str
             [("Cue", Py.JStr EmptyString)] (Py.PInt 0) None).
    + reflexivity.
    + repeat split.
      * intros v H; discriminate H.
      * intros v H; discriminate H.
      * intros z H; inversion H; subst. vm_compute. eauto.
  - apply (cue_field_decides_NotACue Spec.no_float_of_str
             [("Cue", Py.JStr "/VO/Greet")] (Py.PInt 0) None)
      with (s := "/VO/Greet").
    + reflexivity.
    + right. vm_compute. discriminate.
  - apply (cue_field_decides_NotACue Spec.no_float_of_str
             [("Cue", Py.JStr "Greet")] (Py.PInt 0) None).
    right. exists "Greet".
    split; [ reflexivity | split; [ discriminate | reflexivity ] ].
  - apply (cue_field_decides_NotACue Spec.no_float_of_str
             [("Text", Py.JStr "Hello")] (Py.PInt 0) None).
    left. reflexivity.
Defined.

(** ** Signs of binary64 sums *)

Module FloatFacts.
Import Py Spec.

Lemma py_ge0_float f : py_ge0 (PFloat f) = nonneg f.
Proof. destruct f as [[] | [] | | [] m e]; reflexivity. Qed.

Lemma py_ge0_int z : py_ge0 (PInt z) = (0 <=? z)%Z.
Proof.
  unfold py_ge0, pynum_sign. destruct z; reflexivity.
Qed.

Section Rounding.
Variables prec emax : Z.

Lemma iter_pos_invariant {A} (P : A -> Prop) (f : A -> A) :
  (forall x, P x -> P (f x)) ->
  forall n x, P x -> P (iter_pos f n x).
Proof.
  intros Hf. induction n as [n IH | n IH |]; intros x Hx; simpl; auto.
Qed.

Lemma shr_1_nonneg mrs : (0 <= shr_m mrs)%Z -> (0 <= shr_m (shr_1 mrs))%Z.
Proof.
  destruct mrs as [m r s]. simpl.
  destruct m as [| [p | p |] | p]; simpl; lia.
Qed.

Lemma shr_nonneg mrs e n :
  (0 <= shr_m mrs)%Z -> (0 <= shr_m (fst (shr mrs e n)))%Z.
Proof.
  intros H. unfold shr. destruct n; simpl; auto.
  apply (iter_pos_invariant (fun x => (0 <= shr_m x)%Z)); auto.
  apply shr_1_nonneg.
Qed.

Lemma shr_fexp_nonneg m e l :
  (0 <= m)%Z -> (0 <= shr_m (fst (shr_fexp prec emax m e l)))%Z.
Proof.
  intros H. unfold shr_fexp. apply shr_nonneg.
  destruct l as [| []]; simpl; assumption.
Qed.

Lemma round_nearest_even_nonneg m l :
  (0 <= m)%Z -> (0 <= round_nearest_even m l)%Z.
Proof.
  intros H. unfold round_nearest_even.
  destruct l as [| []]; try destruct (Z.even m); lia.
Qed.

Lemma binary_round_aux_nonneg m e l :
  (0 <= m)%Z -> nonneg (binary_round_aux prec emax false m e l) = true.
Proof.
  intros H. unfold binary_round_aux.
  pose proof (shr_fexp_nonneg m e l H) as H1.
  destruct (shr_fexp prec emax m e l) as [mrs' e']. simpl in H1.
  pose proof (round_nearest_even_nonneg (shr_m mrs')
                (loc_of_shr_record mrs') H1) as H2.
  pose proof (shr_fexp_nonneg _ e' loc_Exact H2) as H3.
  destruct (shr_fexp prec emax _ e' loc_Exact) as [mrs'' e''].
  simpl in H3.
  destruct (shr_m mrs'') as [| p | p]; [ reflexivity | | lia ].
  destruct (Z.leb e'' (emax - prec)); reflexivity.
Qed.

Lemma binary_round_nonneg m e :
  nonneg (binary_round prec emax false m e) = true.
Proof.
  unfold binary_round. destruct (shl_align m e _) as [mz ez].
  apply binary_round_aux_nonneg. lia.
Qed.

Lemma binary_normalize_nonneg z e :
  (0 <= z)%Z -> nonneg (binary_normalize prec emax z e false) = true.
Proof.
  intros H. destruct z; simpl; [ reflexivity | apply binary_round_nonneg | lia ].
Qed.

Lemma SFadd_nonneg f g :
  nonneg f = true -> nonneg g = true ->
  nonneg (SFadd prec emax f g) = true.
Proof.
  destruct f as [[] | [] | | [] m e], g as [[] | [] | | [] m' e'];
    simpl; try discriminate; try reflexivity.
  intros _ _. apply binary_round_nonneg.
Qed.
End Rounding.

Lemma float_of_Z_nonneg z f :
  (0 <= z)%Z -> float_of_Z z = inr f -> nonneg f = true.
Proof.
  intros Hz. unfold float_of_Z.
  pose proof (binary_normalize_nonneg prec emax z 0 Hz) as H.
  destruct (binary_normalize prec emax z 0 false); intros E;
    inversion E; subst; assumption.
Qed.

(** A sum of two non-negative numbers is non-negative. *)
Lemma py_add_ge0 a b d :
  py_ge0 a = true -> py_ge0 b = true ->
  result (py_add a b) = Ok d -> py_ge0 d = true.
Proof.
  destruct a as [x | f], b as [y | g]; simpl py_add.
  - rewrite !py_ge0_int. intros Hx Hy H. inversion H; subst.
    rewrite py_ge0_int. lia.
  - rewrite py_ge0_int, py_ge0_float. intros Hx Hg.
    destruct (float_of_Z x) as [e | fx] eqn:E; simpl; [ discriminate | ].
    intros H; inversion H; subst. rewrite py_ge0_float.
    apply SFadd_nonneg; [ | assumption ].
    apply (float_of_Z_nonneg x); [ lia | assumption ].
  - rewrite py_ge0_int, py_ge0_float. intros Hf Hy.
    destruct (float_of_Z y) as [e | fy] eqn:E; simpl; [ discriminate | ].
    intros H; inversion H; subst. rewrite py_ge0_float.
    apply SFadd_nonneg; [ assumption | ].
    apply (float_of_Z_nonneg y); [ lia | assumption ].
  - rewrite !py_ge0_float. intros Hf Hg H. inversion H; subst.
    rewrite py_ge0_float. apply SFadd_nonneg; assumption.
Qed.

End FloatFacts.

Module DelayFacts.
Import Py Py.Notations HDialogue Spec PyFacts CueFacts.

Section WithFloat.
Variable float_of_str : string -> option spec_float.

(** The delay of a parsed cue: the float of [PreLineWait], or the [int]
    0 without that field, plus the external delay. *)
Lemma cue_rest_delay kvs ext ch id c :
  result (cue_rest float_of_str (JDict kvs) ext ch id) = Ok c ->
  exists d,
    match dict_get kvs "PreLineWait" with
    | None => d = PInt 0
    | Some v => exists f, result (py_float float_of_str v) = Ok f
                          /\ d = PFloat f
    end
    /\ result (py_add d ext) = Ok (delay c).
Proof.
  unfold cue_rest. simpl py_in. unfold dict_in. intros H.
  rewrite bind_ret_l, result_bind in H.
  destruct (result (if match dict_get kvs "Text" with
                       | Some _ => true | None => false end
                    then _ else _)) as [t |]; [ | discriminate ].
  rewrite bind_ret_l, result_bind in H.
  destruct (dict_get kvs "PreLineWait") as [v |] eqn:E.
  - simpl py_getitem in H. rewrite E, bind_ret_l, result_bind in H.
    destruct (result (py_float float_of_str v)) as [f |] eqn:Ef;
      [ | discriminate ].
    simpl (result (ret _)) in H. cbv iota beta in H.
    rewrite bind_ret_l, result_bind in H.
    destruct (result (if match dict_get kvs "StartSound" with
                         | Some _ => true | None => false end
                      then _ else _)) as [ss |]; [ | discriminate ].
    rewrite result_bind in H.
    destruct (result (py_add (PFloat f) ext)) as [d' |] eqn:Ed;
      [ | discriminate ].
    simpl in H. inversion H; subst. simpl.
    exists (PFloat f). split; [ eauto | assumption ].
  - simpl (result (ret _)) in H. cbv iota beta in H.
    rewrite bind_ret_l, result_bind in H.
    destruct (result (if match dict_get kvs "StartSound" with
                         | Some _ => true | None => false end
                      then _ else _)) as [ss |]; [ | discriminate ].
    rewrite result_bind in H.
    destruct (result (py_add (PInt 0) ext)) as [d' |] eqn:Ed;
      [ | discriminate ].
    simpl in H. inversion H; subst. simpl.
    exists (PInt 0). split; [ reflexivity | assumption ].
Qed.

Lemma from_data_delay kvs ext ch c :
  result (from_data float_of_str (JDict kvs) ext ch) = Ok c ->
  exists d,
    match dict_get kvs "PreLineWait" with
    | None => d = PInt 0
    | Some v => exists f, result (py_float float_of_str v) = Ok f
                          /\ d = PFloat f
    end
    /\ result (py_add d ext) = Ok (delay c).
Proof.
  rewrite from_data_split, result_bind.
  destruct (result (cue_part (JDict kvs))) as [[id |] |];
    [ | discriminate | discriminate ].
  apply cue_rest_delay.
Qed.
End WithFloat.

End DelayFacts.

(** C6, as the code has it.  The delay of a parsed cue is the float of
    [PreLineWait] (the [int] 0 when the field is absent) plus the external
    delay, and the sign of [PreLineWait] is not checked: the delay is
    non-negative when the external delay is and [PreLineWait] is absent or
    converts to a non-negative float. *)
Theorem delay_is_wait_plus_external :
  forall float_of_str kvs external_delay choice c,
    Py.result (HDialogue.from_data float_of_str (Py.JDict kvs)
                 external_delay choice) = Py.Ok c ->
    (exists d,
       match Py.dict_get kvs "PreLineWait" with
       | None => d = Py.PInt 0
       | Some v => exists f, Py.result (Py.py_float float_of_str v) = Py.Ok f
                             /\ d = Py.PFloat f
       end
       /\ Py.result (Py.py_add d external_delay) = Py.Ok (HDialogue.delay c))
    /\ (Py.py_ge0 external_delay = true ->
        (forall v f, Py.dict_get kvs "PreLineWait" = Some v ->
                     Py.result (Py.py_float float_of_str v) = Py.Ok f ->
                     Py.py_ge0 (Py.PFloat f) = true) ->
        Py.py_ge0 (HDialogue.delay c) = true).
Proof.
  intros fos kvs ext ch c H.
  pose proof (DelayFacts.from_data_delay fos kvs ext ch c H) as (d & Hd & Hadd).
  split; [ exists d; auto | ].
  intros Hext Hwait.
  apply (FloatFacts.py_add_ge0 d ext); [ | assumption | assumption ].
  destruct (Py.dict_get kvs "PreLineWait") as [v |].
  - destruct Hd as (f & Hf & ->). apply (Hwait v f eq_refl Hf).
  - subst d. reflexivity.
Qed.

Lemma delay_is_wait_plus_external_witness :
  Py.py_ge0 (Py.PFloat Spec.two) = true.
Proof.
  apply (delay_is_wait_plus_external Spec.no_float_of_str
           [("Cue", Py.JStr "/VO/Bye"); ("PreLineWait", Py.JInt 1)]
           (Py.PFloat Spec.one) None
           (HDialogue.mkCue "Bye" None (Py.PFloat Spec.two) None None)).
  - vm_compute. reflexivity.
  - reflexivity.
  - intros v f Hv Hf. inversion Hv; subst. vm_compute in Hf.
    inversion Hf; subst. reflexivity.
Defined.

(** C6 as stated fails: the map with an empty ["Cue"] and a ["PreLineWait"]
    of -1, with the default external delay 0, parses to a cue whose delay
    is -1.0. *)
Lemma negative_wait_counterexample :
  Py.py_ge0 (Py.PInt 0) = true
  /\ exists c,
       Py.result (HDialogue.from_data Spec.no_float_of_str
                    (Py.JDict [("Cue", Py.JStr EmptyString);
                               ("PreLineWait", Py.JInt (-1))])
                    (Py.PInt 0) None) = Py.Ok c
       /\ HDialogue.delay c = Py.PFloat (SFopp Spec.one)
       /\ Py.py_ge0 (HDialogue.delay c) = false.
Proof.
  split; [ reflexivity | ].
  eexists. split; [ vm_compute; reflexivity | ].
  split; reflexivity.
Qed.

Module NoCuesFacts.
Import Py Py.Notations HDialogue Spec PyFacts CueFacts.

Section WithFloat.
Variable float_of_str : string -> option spec_float.

(** A list whose elements are all refused leaves [self.cues] as it
    was. *)
Lemma append_cues_all_refused acc l :
  (forall x, In x l ->
     result (from_data float_of_str x (PInt 0) None)
     = Raise NotACueException) ->
  result (append_cues float_of_str acc l) = Ok acc.
Proof.
  induction l as [| x l IH]; intros H; simpl; [ reflexivity | ].
  rewrite result_bind, result_try_except, result_bind.
  rewrite (H x (or_introl eq_refl)). simpl.
  apply IH. intros y Hy. apply H. right. exact Hy.
Qed.

(** The same for the numbered entries of a map. *)
Lemma index_loop_all_refused build kvs ct nums st :
  (forall num entry, dict_get kvs (str num) = Some entry ->
     choices_of entry = None
     /\ result (from_data float_of_str entry (PInt 0) None)
        = Raise NotACueException) ->
  result (index_loop float_of_str build kvs ct st nums) = Ok st.
Proof.
  intros H. revert st.
  induction nums as [| num nums IH]; intros st; simpl; [ reflexivity | ].
  rewrite result_bind.
  assert (Hs : result (index_step float_of_str build kvs ct st num) = Ok st).
  { unfold index_step. destruct st as [acc initial_delay].
    destruct (dict_get kvs (str num)) as [entry |] eqn:E; [ | reflexivity ].
    destruct (H num entry E) as [-> Hr].
    rewrite result_try_except, result_bind.
    rewrite (from_data_NotACue_any float_of_str entry _ _ initial_delay ct Hr).
    reflexivity. }
  rewrite Hs. apply IH.
Qed.

(** A map with nothing to play: what [__init__] raises. *)
Lemma VO_init_map_refused depth kvs label :
  (forall num entry, dict_get kvs (str num) = Some entry ->
     choices_of entry = None
     /\ result (from_data float_of_str entry (PInt 0) None)
        = Raise NotACueException) ->
  dict_get kvs "EndCue" = None ->
  dict_get kvs "EndVoiceLines" = None ->
  result (VO_init float_of_str (S depth) (JDict kvs) label) =
  match dict_get kvs "PreLineWait" with
  | None => Raise NoCuesException
  | Some v =>
      match result (py_float float_of_str v) with
      | Ok _ => Raise NoCuesException
      | Raise e => Raise e
      end
  end.
Proof.
  intros Hent Hend Hvl. cbn [VO_init].
  rewrite result_bind, result_bind.
  assert (Hrest : forall d,
    result (st <- index_loop float_of_str
                    (fun sub => VO_init float_of_str depth sub None) kvs
                    (dict_get kvs "ChoiceText") ([], d)
                    (seq 0 (List.length kvs)) ;;
            acc <- add_end_cue float_of_str kvs (dict_get kvs "ChoiceText")
                     (fst st) ;;
            add_end_voice_lines
              (fun sub => VO_init float_of_str depth sub None) kvs acc)
    = Ok []).
  { intros d. rewrite result_bind.
    rewrite (index_loop_all_refused _ kvs _ _ _ Hent).
    rewrite result_bind. unfold add_end_cue. rewrite Hend.
    simpl. unfold add_end_voice_lines. rewrite Hvl. reflexivity. }
  destruct (dict_get kvs "PreLineWait") as [v |].
  - rewrite result_bind.
    destruct (result (py_float float_of_str v)) as [f | e]; [ | reflexivity ].
    simpl (result (ret _)). cbv iota beta. rewrite Hrest. reflexivity.
  - simpl (result (ret _)). cbv iota beta. rewrite Hrest. reflexivity.
Qed.
End WithFloat.

End NoCuesFacts.

(** C2. A line-set with nothing to play is refused.  A sequence all of
    whose elements are refused as cues, the empty one in particular,
    raises [NoCuesException].  A map all of whose numbered entries go to
    [Cue.from_data] and are refused there, with no [EndCue] and no
    [EndVoiceLines], never gives a line-set, and raises [NoCuesException]
    when its own [PreLineWait], if it has one, is accepted by [float] as
    the input format has it.  And no line-set is ever built with zero
    cues. *)
Theorem nothing_to_play_is_NoCues :
  forall float_of_str depth label,
    (forall l,
       (forall x, In x l ->
          Py.result (HDialogue.from_data float_of_str x (Py.PInt 0) None)
          = Py.Raise Py.NotACueException) ->
       Py.result (HDialogue.VO_init float_of_str (S depth) (Py.JList l) label)
       = Py.Raise Py.NoCuesException)
    /\ (forall kvs,
          (forall num entry, Py.dict_get kvs (Py.str num) = Some entry ->
             HDialogue.choices_of entry = None
             /\ Py.result (HDialogue.from_data float_of_str entry
                             (Py.PInt 0) None)
                = Py.Raise Py.NotACueException) ->
          Py.dict_get kvs "EndCue" = None ->
          Py.dict_get kvs "EndVoiceLines" = None ->
          (forall vo,
             Py.result (HDialogue.VO_init float_of_str (S depth)
                          (Py.JDict kvs) label) <> Py.Ok vo)
          /\ ((forall v, Py.dict_get kvs "PreLineWait" = Some v ->
                  exists f, Py.result (Py.py_float float_of_str v) = Py.Ok f) ->
              Py.result (HDialogue.VO_init float_of_str (S depth)
                           (Py.JDict kvs) label)
              = Py.Raise Py.NoCuesException))
    /\ Py.result (HDialogue.VO_init float_of_str (S depth) (Py.JList []) label)
       = Py.Raise Py.NoCuesException
    /\ (forall data o vo,
          HDialogue.VO_init float_of_str depth data label = (o, Py.Ok vo) ->
          HDialogue.cues vo <> []).
Proof.
  intros fos depth label. split; [ | split; [ | split ] ].
  - intros l H. simpl. rewrite PyFacts.result_bind.
    rewrite (NoCuesFacts.append_cues_all_refused fos [] l H). reflexivity.
  - intros kvs Hent Hend Hvl.
    rewrite (NoCuesFacts.VO_init_map_refused fos depth kvs label Hent Hend Hvl).
    split.
    + intros vo. destruct (Py.dict_get kvs "PreLineWait") as [v |];
        [ destruct (Py.result (Py.py_float fos v)) | ]; discriminate.
    + intros Hwait. destruct (Py.dict_get kvs "PreLineWait") as [v |];
        [ | reflexivity ].
      destruct (Hwait v eq_refl) as [f ->]. reflexivity.
  - reflexivity.
  - intros data o vo H.
    destruct (VOFacts.VO_init_finish fos depth data label o vo H)
      as (first & rest & ->).
    discriminate.
Qed.

Lemma nothing_to_play_is_NoCues_witness :
  Py.result (HDialogue.VO_init Spec.no_float_of_str 1
               (Py.JDict [("0", Py.JDict [("Text", Py.JStr "Hello")]);
                          ("1", Py.JDict [("Cue", Py.JStr "Greet")])])
               None)
  = Py.Raise Py.NoCuesException.
Proof.
  destruct (nothing_to_play_is_NoCues Spec.no_float_of_str 0 None)
    as (_ & Hmap & _).
  apply Hmap; [ | reflexivity | reflexivity | intros v H; discriminate H ].
  - intros num entry H. cbn [Py.dict_get] in H.
    destruct (String.eqb "0" (Py.str num));
      [ inversion H; subst; split; reflexivity | ].
    destruct (String.eqb "1" (Py.str num));
      [ inversion H; subst; split; reflexivity | discriminate ].
Defined.

(** ** The numbered keys of a map *)

Module KeyFacts.
Import Py Py.Notations HDialogue Spec PyFacts.

Lemma to_uint_nonnil n : Nat.to_uint n <> Decimal.Nil.
Proof.
  rewrite <- (DecimalNat.Unsigned.of_to n) at 1.
  rewrite DecimalNat.Unsigned.to_of. apply DecimalFacts.unorm_nonnil.
Qed.

(** [str] gives different strings for different numbers. *)
Lemma str_inj n m : str n = str m -> n = m.
Proof.
  unfold str. intros H.
  apply (f_equal NilZero.uint_of_string) in H.
  rewrite !NilZero.usu in H by apply to_uint_nonnil.
  inversion H. apply DecimalNat.Unsigned.to_uint_inj. assumption.
Qed.

(** [str n] starts with a digit. *)
Lemma str_head n : exists c s, str n = String c s /\ is_digit c = true.
Proof.
  unfold str. destruct (Nat.to_uint n); simpl; eauto.
Qed.

Lemma str_not_named n k c s :
  k = String c s -> is_digit c = false -> str n <> k.
Proof.
  intros -> Hc H. destruct (str_head n) as (c' & s' & E & Hd).
  rewrite E in H. inversion H; subst. congruence.
Qed.

Section WithFloat.
Variable float_of_str : string -> option spec_float.
Variable build : json -> M VO.

Lemma index_loop_app kvs ct st l1 l2 :
  index_loop float_of_str build kvs ct st (l1 ++ l2) =
  bind (index_loop float_of_str build kvs ct st l1)
       (fun st' => index_loop float_of_str build kvs ct st' l2).
Proof.
  revert st. induction l1 as [| num l1 IH]; intros st;
    cbn [index_loop app].
  - rewrite bind_ret_l. reflexivity.
  - rewrite bind_assoc. apply bind_ext. intros st'. apply IH.
Qed.

(** Numbers whose keys are all missing change nothing. *)
Lemma index_loop_absent kvs ct st l :
  (forall num, In num l -> dict_get kvs (str num) = None) ->
  index_loop float_of_str build kvs ct st l = ret st.
Proof.
  induction l as [| num l IH]; intros H; cbn [index_loop];
    [ reflexivity | ].
  unfold index_step at 1. destruct st as [acc d].
  rewrite (H num (or_introl eq_refl)), bind_ret_l.
  apply IH. intros n Hn. apply H. right. exact Hn.
Qed.

(** The loop reads the map at the numbers it is given and nowhere
    else. *)
Lemma index_loop_ext kvs kvs' ct st l :
  (forall num, In num l -> dict_get kvs' (str num) = dict_get kvs (str num)) ->
  index_loop float_of_str build kvs' ct st l
  = index_loop float_of_str build kvs ct st l.
Proof.
  revert st. induction l as [| num l IH]; intros st H; cbn [index_loop];
    [ reflexivity | ].
  assert (E : index_step float_of_str build kvs' ct st num
              = index_step float_of_str build kvs ct st num).
  { unfold index_step. destruct st as [acc d].
    rewrite (H num (or_introl eq_refl)). reflexivity. }
  rewrite E. apply bind_ext. intros st'. apply IH.
  intros n Hn. apply H. right. exact Hn.
Qed.

Lemma add_end_cue_ext kvs kvs' ct acc :
  dict_get kvs' "EndCue" = dict_get kvs "EndCue" ->
  dict_get kvs' "EndWait" = dict_get kvs "EndWait" ->
  add_end_cue float_of_str kvs' ct acc = add_end_cue float_of_str kvs ct acc.
Proof. unfold add_end_cue. intros -> ->. reflexivity. Qed.

Lemma add_end_voice_lines_ext kvs kvs' acc :
  dict_get kvs' "EndVoiceLines" = dict_get kvs "EndVoiceLines" ->
  add_end_voice_lines build kvs' acc = add_end_voice_lines build kvs acc.
Proof. unfold add_end_voice_lines. intros ->. reflexivity. Qed.

(** The numbers whose key is missing can be left out of the loop. *)
Lemma index_loop_skips kvs ct nums :
  forall st,
    index_loop float_of_str build kvs ct st nums
    = index_loop float_of_str build kvs ct st
        (filter (fun num => dict_in (str num) kvs) nums).
Proof.
  induction nums as [| num nums IH]; intros st; [ reflexivity | ].
  cbn [filter index_loop]. unfold dict_in at 1.
  destruct (dict_get kvs (str num)) as [entry |] eqn:E.
  - cbn [index_loop]. apply bind_ext. intros st'. apply IH.
  - unfold index_step at 1. destruct st as [acc d].
    rewrite E, bind_ret_l. apply IH.
Qed.

(** The choices of a block that build give their cues. *)
Lemma extend_with_each_reads l :
  forall acc,
    choices_build build l ->
    result (extend_with_each build acc l)
    = Ok (acc ++ cues_of_choices build l).
Proof.
  induction l as [| sub l IH]; intros acc H.
  - simpl. rewrite app_nil_r. reflexivity.
  - destruct H as [Hsub Hl].
    cbn [extend_with_each]. unfold cues_of_choices. cbn [flat_map].
    fold (cues_of_choices build l).
    rewrite result_bind, result_try_except, result_bind.
    destruct (result (build sub)) as [vo | e].
    + cbn [ret result snd]. rewrite (IH _ Hl), <- app_assoc. reflexivity.
    + subst e. cbn [exn_eqb ret result snd]. rewrite (IH _ Hl).
      reflexivity.
Qed.

(** The loop over entries that are read to the end appends the cues of
    the entries it finds, one after the other. *)
Lemma index_loop_reads kvs ct nums :
  forall acc d,
    read_through float_of_str build ct (entries_at kvs nums) d ->
    exists d',
      result (index_loop float_of_str build kvs ct (acc, d) nums)
      = Ok (acc ++ cues_read float_of_str build ct (entries_at kvs nums) d,
            d').
Proof.
  induction nums as [| num nums IH]; intros acc d H.
  - exists d. simpl. rewrite app_nil_r. reflexivity.
  - cbn [index_loop]. rewrite result_bind. unfold index_step at 1.
    unfold entries_at in H |- *. cbn [flat_map] in H |- *.
    fold (entries_at kvs nums) in H |- *.
    destruct (dict_get kvs (str num)) as [entry |] eqn:E.
    + cbn [app read_through cues_read] in H |- *.
      destruct (choices_of entry) as [choices |].
      * destruct H as [Hc H].
        rewrite result_bind, (extend_with_each_reads _ _ Hc).
        cbn [ret result snd].
        destruct (IH (acc ++ cues_of_choices build choices) d H)
          as [d' Hd].
        exists d'. rewrite Hd, <- app_assoc. reflexivity.
      * rewrite result_try_except, result_bind.
        destruct (result (from_data float_of_str entry d ct)) as [c | e].
        -- destruct (IH (acc ++ [c]) (PInt 0) H) as [d' Hd].
           exists d'. cbn [ret result snd]. rewrite Hd, <- app_assoc.
           reflexivity.
        -- destruct H as [-> H]. cbn [exn_eqb].
           destruct (IH acc d H) as [d' Hd]. exists d'. exact Hd.
    + cbn [app]. apply IH. exact H.
Qed.
End WithFloat.

Lemma run_length_le present start allowance :
  Spec.run_length present start allowance <= allowance.
Proof.
  revert start. induction allowance as [| a IH]; intros start; simpl;
    [ lia | ].
  destruct (present start); [ specialize (IH (S start)) | ]; lia.
Qed.

Lemma consecutive_keys_le kvs : Spec.consecutive_keys kvs <= List.length kvs.
Proof. apply run_length_le. Qed.

End KeyFacts.

(** C5, as the code has it.  The loop over the numbered keys runs through
    [str(0)], [str(1)], ... below the number [n] of keys of the map,
    whatever those keys are.  An entry numbered [n] or more is never read:
    the line-set built does not depend on it.  A number whose key is
    missing is skipped and the loop goes on: it is the loop over the
    numbers below [n] whose key is present, in ascending order.  Each
    entry found is processed: unless an exception that the loop does not
    catch ends it, the loop adds, in that order, the cue of each entry
    that gives one (the wait pending going to the first) and the cues of
    the choices of each block of choices; so a map with no [EndCue] and no
    [EndVoiceLines] builds into the line-set of exactly these cues,
    [NoCuesException] being raised when there is none.  And the loop is
    the one over the consecutive keys from ["0"] exactly when no numbered
    key lies between the first gap and [n]. *)
Theorem numbered_keys_below_key_count :
  forall float_of_str depth kvs label,
    (forall kvs',
       List.length kvs' = List.length kvs ->
       (forall k, (forall m, List.length kvs <= m -> k <> Py.str m) ->
                  Py.dict_get kvs' k = Py.dict_get kvs k) ->
       HDialogue.VO_init float_of_str depth (Py.JDict kvs') label
       = HDialogue.VO_init float_of_str depth (Py.JDict kvs) label)
    /\ (forall build choice_text st,
          HDialogue.index_loop float_of_str build kvs choice_text st
            (seq 0 (List.length kvs))
          = HDialogue.index_loop float_of_str build kvs choice_text st
              (Spec.present_numbers kvs))
    /\ (forall build choice_text acc d,
          Spec.read_through float_of_str build choice_text
            (Spec.numbered_entries kvs) d ->
          exists d',
            Py.result
              (HDialogue.index_loop float_of_str build kvs choice_text
                 (acc, d) (seq 0 (List.length kvs)))
            = Py.Ok (acc ++ Spec.cues_read float_of_str build choice_text
                              (Spec.numbered_entries kvs) d,
                     d'))
    /\ (forall d,
          let build := fun sub => HDialogue.VO_init float_of_str depth sub None in
          let choice_text := Py.dict_get kvs "ChoiceText" in
          Spec.initial_wait float_of_str kvs d ->
          Py.dict_get kvs "EndCue" = None ->
          Py.dict_get kvs "EndVoiceLines" = None ->
          Spec.read_through float_of_str build choice_text
            (Spec.numbered_entries kvs) d ->
          Py.result
            (HDialogue.VO_init float_of_str (S depth) (Py.JDict kvs) label)
          = match Spec.cues_read float_of_str build choice_text
                    (Spec.numbered_entries kvs) d with
            | [] => Py.Raise Py.NoCuesException
            | first :: rest =>
                Py.Ok (HDialogue.mkVO
                         (HDialogue.set_delay first (Py.PInt 0) :: rest)
                         label)
            end)
    /\ (forall build choice_text st,
          (forall num, Spec.consecutive_keys kvs <= num < List.length kvs ->
                       Py.dict_get kvs (Py.str num) = None) ->
          HDialogue.index_loop float_of_str build kvs choice_text st
            (seq 0 (List.length kvs))
          = HDialogue.index_loop float_of_str build kvs choice_text st
              (seq 0 (Spec.consecutive_keys kvs))).
Proof.
  intros fos depth kvs label.
  split; [ | split; [ | split; [ | split ] ] ].
  - intros kvs' Hlen Hagree.
    assert (Hnamed : forall k c s, k = String c s ->
                       Spec.is_digit c = false ->
                       Py.dict_get kvs' k = Py.dict_get kvs k).
    { intros k c s Hk Hc. apply Hagree. intros m _ E.
      apply (KeyFacts.str_not_named m k c s Hk Hc). congruence. }
    destruct depth as [| depth']; [ reflexivity | ].
    cbn [HDialogue.VO_init]. f_equal.
    rewrite (Hnamed "PreLineWait" _ _ eq_refl eq_refl).
    apply PyFacts.bind_ext. intros d.
    rewrite (Hnamed "ChoiceText" _ _ eq_refl eq_refl), Hlen.
    rewrite (KeyFacts.index_loop_ext fos _ kvs kvs').
    + apply PyFacts.bind_ext. intros st.
      rewrite (KeyFacts.add_end_cue_ext fos kvs kvs' _ _
                 (Hnamed "EndCue" _ _ eq_refl eq_refl)
                 (Hnamed "EndWait" _ _ eq_refl eq_refl)).
      apply PyFacts.bind_ext. intros acc.
      apply KeyFacts.add_end_voice_lines_ext.
      apply (Hnamed "EndVoiceLines" _ _ eq_refl eq_refl).
    + intros num Hin. apply in_seq in Hin. apply Hagree.
      intros m Hm E. apply KeyFacts.str_inj in E. lia.
  - intros build ct st. apply KeyFacts.index_loop_skips.
  - intros build ct acc d H. apply KeyFacts.index_loop_reads. exact H.
  - intros d build ct Hd Hend Hvoice Hread. subst build ct.
    cbn [HDialogue.VO_init].
    rewrite !PyFacts.result_bind.
    assert (Hw : Py.result
                   match Py.dict_get kvs "PreLineWait" with
                   | Some v =>
                       Py.bind (Py.py_float fos v)
                         (fun f => Py.ret (Py.PFloat f))
                   | None => Py.ret (Py.PInt 0)
                   end = Py.Ok d).
    { unfold Spec.initial_wait in Hd.
      destruct (Py.dict_get kvs "PreLineWait") as [v |].
      - destruct Hd as (f & Hf & ->). rewrite PyFacts.result_bind, Hf.
        reflexivity.
      - subst d. reflexivity. }
    rewrite Hw.
    destruct (KeyFacts.index_loop_reads fos
                (fun sub => HDialogue.VO_init fos depth sub None) kvs
                (Py.dict_get kvs "ChoiceText") (seq 0 (List.length kvs))
                [] d Hread) as [d' Hloop].
    fold (Spec.numbered_entries kvs) in Hloop.
    rewrite PyFacts.result_bind, Hloop, PyFacts.result_bind.
    cbn [fst app]. unfold HDialogue.add_end_cue,
      HDialogue.add_end_voice_lines. rewrite Hend, Hvoice.
    cbn [Py.ret Py.result snd].
    destruct (Spec.cues_read fos _ (Py.dict_get kvs "ChoiceText")
                (Spec.numbered_entries kvs) d); reflexivity.
  - intros build ct st Hgap.
    pose proof (KeyFacts.consecutive_keys_le kvs) as Hle.
    replace (List.length kvs)
      with (Spec.consecutive_keys kvs
            + (List.length kvs - Spec.consecutive_keys kvs)) at 1 by lia.
    rewrite seq_app, KeyFacts.index_loop_app.
    rewrite <- (PyFacts.bind_ret_r
                  (HDialogue.index_loop fos build kvs ct st
                     (seq 0 (Spec.consecutive_keys kvs)))) at 2.
    apply PyFacts.bind_ext. intros st'.
    apply KeyFacts.index_loop_absent.
    intros num Hin. apply in_seq in Hin. apply Hgap. lia.
Qed.

Lemma numbered_keys_below_key_count_witness :
  HDialogue.VO_init Spec.no_float_of_str 1
    (Py.JDict [ ("0", Py.JDict [("Cue", Py.JStr "/VO/A")]);
                ("2", Py.JDict [("Cue", Py.JStr "/VO/B")]) ]) None
  = HDialogue.VO_init Spec.no_float_of_str 1
      (Py.JDict [ ("0", Py.JDict [("Cue", Py.JStr "/VO/A")]);
                  ("2", Py.JDict [("Cue", Py.JStr "/VO/C")]) ]) None
  /\ Spec.present_numbers Spec.scattered = [1; 3; 4; 5]
  /\ Py.result
       (HDialogue.VO_init Spec.no_float_of_str 2 (Py.JDict Spec.scattered)
          None)
     = Py.Ok (HDialogue.mkVO
                [ HDialogue.mkCue "A" None (Py.PInt 0) None
                    (Some (Py.JStr "Hello"));
                  HDialogue.mkCue "B" None (Py.PInt 0) None None;
                  HDialogue.mkCue "C" None (Py.PInt 0) None
                    (Some (Py.JStr "Hello")) ] None)
  /\ HDialogue.index_loop Spec.no_float_of_str
       (fun sub => HDialogue.VO_init Spec.no_float_of_str 0 sub None)
       [ ("0", Py.JDict [("Cue", Py.JStr "/VO/A")]);
         ("2", Py.JDict [("Cue", Py.JStr "/VO/B")]) ] None ([], Py.PInt 0)
       (seq 0 2)
     = HDialogue.index_loop Spec.no_float_of_str
         (fun sub => HDialogue.VO_init Spec.no_float_of_str 0 sub None)
         [ ("0", Py.JDict [("Cue", Py.JStr "/VO/A")]);
           ("2", Py.JDict [("Cue", Py.JStr "/VO/B")]) ] None ([], Py.PInt 0)
         (seq 0 1).
Proof.
  split; [ | split; [ reflexivity | split ] ].
  - destruct (numbered_keys_below_key_count Spec.no_float_of_str 1
                [ ("0", Py.JDict [("Cue", Py.JStr "/VO/A")]);
                  ("2", Py.JDict [("Cue", Py.JStr "/VO/C")]) ] None)
      as (H & _).
    apply H; [ reflexivity | ].
    intros k Hk. cbn [Py.dict_get].
    destruct (String.eqb "0" k); [ reflexivity | ].
    destruct (String.eqb "2" k) eqn:E; [ | reflexivity ].
    apply String.eqb_eq in E. subst k.
    exfalso. apply (Hk 2); [ simpl; lia | reflexivity ].
  - destruct (numbered_keys_below_key_count Spec.no_float_of_str 1
                Spec.scattered None)
      as (_ & _ & _ & H & _).
    rewrite (H (Py.PInt 0)).
    + vm_compute. reflexivity.
    + vm_compute. reflexivity.
    + reflexivity.
    + reflexivity.
    + vm_compute. repeat split.
  - destruct (numbered_keys_below_key_count Spec.no_float_of_str 1
                [ ("0", Py.JDict [("Cue", Py.JStr "/VO/A")]);
                  ("2", Py.JDict [("Cue", Py.JStr "/VO/B")]) ] None)
      as (_ & _ & _ & _ & H).
    apply (H _ None ([], Py.PInt 0)).
    intros num Hnum. change (Spec.consecutive_keys _) with 1 in Hnum.
    simpl in Hnum. assert (num = 1) by lia. subst num. reflexivity.
Defined.

(** C5 as stated fails: in [{"0": .., "2": .., "3": ..}] the key ["1"] is
    missing, the map has three keys, and the loop goes on to ["2"]: the
    line-set has the cues [A] and [B], where stopping at the gap would
    leave [A] alone.  (The entry ["3"] is not read.) *)
Lemma gap_does_not_stop_counterexample :
  Py.dict_get Spec.gapped "1" = None
  /\ Spec.consecutive_keys Spec.gapped = 1
  /\ Py.result (HDialogue.VO_new Spec.no_float_of_str (Py.JDict Spec.gapped)
                  None)
     = Py.Ok (HDialogue.mkVO
                [ HDialogue.mkCue "A" None (Py.PInt 0) None None;
                  HDialogue.mkCue "B" None (Py.PInt 0) None None ] None)
  /\ Py.result
       (HDialogue.index_loop Spec.no_float_of_str
          (fun sub => HDialogue.VO_init Spec.no_float_of_str 2 sub None)
          Spec.gapped None ([], Py.PInt 0)
          (seq 0 (Spec.consecutive_keys Spec.gapped)))
     = Py.Ok ([HDialogue.mkCue "A" None (Py.PInt 0) None None], Py.PInt 0)
  /\ Py.result
       (HDialogue.index_loop Spec.no_float_of_str
          (fun sub => HDialogue.VO_init Spec.no_float_of_str 2 sub None)
          Spec.gapped None ([], Py.PInt 0)
          (seq 0 (List.length Spec.gapped)))
     = Py.Ok ([ HDialogue.mkCue "A" None (Py.PInt 0) None None;
                HDialogue.mkCue "B" None (Py.PInt 0) None None ], Py.PInt 0).
Proof. repeat split. Qed.

(** ** What the line-set builder prints *)

Module QuietFacts.
Import Py Py.Notations HDialogue Spec PyFacts.

Lemma quiet_ret {A} (a : A) : quiet (ret a).
Proof. intros l H. exact H. Qed.

Lemma quiet_raise {A} e : quiet (@raise A e).
Proof. intros l H. exact H. Qed.

Lemma quiet_bind {A B} (m : M A) (f : A -> M B) :
  quiet m -> (forall a, quiet (f a)) -> quiet (bind m f).
Proof.
  intros Hm Hf l. rewrite output_bind.
  destruct (result m) as [a | e]; [ | apply Hm ].
  rewrite in_app_iff. intros [H | H]; [ apply (Hm l H) | apply (Hf a l H) ].
Qed.

Lemma quiet_try_except {A} (m : M A) e (h : M A) :
  quiet m -> quiet h -> quiet (try_except m e h).
Proof.
  intros Hm Hh l. rewrite output_try_except.
  destruct (result m) as [a | e']; [ apply Hm | ].
  destruct (exn_eqb e' e); [ | apply Hm ].
  rewrite in_app_iff. intros [H | H]; [ apply (Hm l H) | apply (Hh l H) ].
Qed.

Lemma quiet_lift {A} (r : exn + A) : quiet (lift r).
Proof. destruct r; [ apply quiet_raise | apply quiet_ret ]. Qed.

Lemma quiet_py_in k data : quiet (py_in k data).
Proof. destruct data; intros ? H; exact H. Qed.

Lemma quiet_py_getitem data k : quiet (py_getitem data k).
Proof.
  destruct data; try (intros ? H; exact H).
  simpl. destruct (dict_get kvs k); intros ? H; exact H.
Qed.

Lemma quiet_py_float fos v : quiet (py_float fos v).
Proof.
  destruct v; simpl; try (intros ? H; exact H).
  - apply quiet_lift.
  - destruct (fos s); intros ? H; exact H.
Qed.

Lemma quiet_py_add a b : quiet (py_add a b).
Proof.
  destruct a, b; simpl;
    repeat first [ apply quiet_ret | apply quiet_lift
                 | apply quiet_bind; [ | intros ? ] ].
Qed.

Lemma quiet_vo_re_match_value v : quiet (vo_re_match_value v).
Proof. destruct v; intros ? H; exact H. Qed.

Lemma quiet_warn v : quiet (warn_without_match v).
Proof.
  destruct v; try (intros ? H; exact H).
  intros ? [H | H]; [ discriminate H | exact H ].
Qed.

Lemma quiet_unknown v : quiet (print (WarnUnknownDataType v)).
Proof. intros ? [H | H]; [ discriminate H | exact H ]. Qed.

Ltac quiet_step :=
  first
    [ apply quiet_ret | apply quiet_raise | apply quiet_lift
    | apply quiet_py_in | apply quiet_py_getitem | apply quiet_py_float
    | apply quiet_py_add | apply quiet_vo_re_match_value | apply quiet_warn
    | apply quiet_unknown
    | assumption
    | apply quiet_bind; [ | intros ? ]
    | apply quiet_try_except
    | match goal with
      | |- quiet (if ?b then _ else _) => destruct b
      | |- quiet (match ?x with _ => _ end) => destruct x
      | |- quiet (let (_, _) := ?x in _) => destruct x
      end ].

Section WithFloat.
Variable float_of_str : string -> option spec_float.

Lemma quiet_from_data data ext ch : quiet (from_data float_of_str data ext ch).
Proof. unfold from_data. repeat quiet_step. Qed.

Lemma quiet_append_cues l : forall acc, quiet (append_cues float_of_str acc l).
Proof.
  induction l as [| x l IH]; intros acc; cbn [append_cues];
    [ apply quiet_ret | ].
  apply quiet_bind; [ | intros acc'; apply IH ].
  apply quiet_try_except; [ | apply quiet_ret ].
  apply quiet_bind; [ apply quiet_from_data | intros c; apply quiet_ret ].
Qed.

Section WithBuild.
Variable build : json -> M VO.
Hypothesis quiet_build : forall sub, quiet (build sub).

Lemma quiet_extend_with_each l : forall acc, quiet (extend_with_each build acc l).
Proof.
  induction l as [| x l IH]; intros acc; cbn [extend_with_each];
    [ apply quiet_ret | ].
  apply quiet_bind; [ | intros acc'; apply IH ].
  apply quiet_try_except; [ | apply quiet_ret ].
  apply quiet_bind; [ apply quiet_build | intros vo; apply quiet_ret ].
Qed.

Lemma quiet_index_step kvs ct st num :
  quiet (index_step float_of_str build kvs ct st num).
Proof.
  unfold index_step. destruct st as [acc d].
  destruct (dict_get kvs (str num)) as [entry |]; [ | apply quiet_ret ].
  destruct (choices_of entry) as [choices |].
  - apply quiet_bind; [ apply quiet_extend_with_each | intros ?; apply quiet_ret ].
  - apply quiet_try_except; [ | apply quiet_ret ].
    apply quiet_bind; [ apply quiet_from_data | intros ?; apply quiet_ret ].
Qed.

Lemma quiet_index_loop kvs ct nums :
  forall st, quiet (index_loop float_of_str build kvs ct st nums).
Proof.
  induction nums as [| num nums IH]; intros st; cbn [index_loop];
    [ apply quiet_ret | ].
  apply quiet_bind; [ apply quiet_index_step | intros st'; apply IH ].
Qed.

Lemma quiet_add_end_cue kvs ct acc :
  quiet (add_end_cue float_of_str kvs ct acc).
Proof. unfold add_end_cue. repeat quiet_step. Qed.

Lemma quiet_add_end_voice_lines kvs acc :
  quiet (add_end_voice_lines build kvs acc).
Proof.
  unfold add_end_voice_lines.
  destruct (dict_get kvs "EndVoiceLines") as [[] |];
    try apply quiet_ret; apply quiet_extend_with_each.
Qed.
End WithBuild.

Lemma quiet_VO_init depth :
  forall data label, quiet (VO_init float_of_str depth data label).
Proof.
  induction depth as [| depth IH]; intros data label; cbn [VO_init];
    [ apply quiet_raise | ].
  apply quiet_bind.
  - destruct data; try (apply quiet_bind; [ apply quiet_unknown
                                          | intros ?; apply quiet_ret ]).
    + apply quiet_append_cues.
    + apply quiet_bind.
      { destruct (dict_get kvs "PreLineWait"); repeat quiet_step. }
      intros d. apply quiet_bind.
      { apply quiet_index_loop. intros sub. apply IH. }
      intros st. apply quiet_bind.
      { apply quiet_add_end_cue. }
      intros acc. apply quiet_add_end_voice_lines. intros sub. apply IH.
  - intros cs. destruct cs; [ apply quiet_raise | apply quiet_ret ].
Qed.

Lemma quiet_VO_new data label : quiet (VO_new float_of_str data label).
Proof. apply quiet_VO_init. Qed.
End WithFloat.

End QuietFacts.

(** ** The bank assembler *)

Module BankFacts.
Import Py Py.Notations HDialogue Spec PyFacts QuietFacts.

Lemma warnings_for_app label a b :
  Spec.warnings_for label (a ++ b)
  = Spec.warnings_for label a + Spec.warnings_for label b.
Proof.
  unfold Spec.warnings_for. rewrite filter_app, length_app. reflexivity.
Qed.

Lemma warnings_for_none label o :
  (forall l, ~ In (WarnMoreThanOneCategory l) o) ->
  Spec.warnings_for label o = 0.
Proof.
  unfold Spec.warnings_for.
  induction o as [| d o IH]; intros H; [ reflexivity | ].
  simpl. destruct d as [v | v | l].
  - apply IH. intros l Hl. apply (H l). right. exact Hl.
  - apply IH. intros l Hl. apply (H l). right. exact Hl.
  - exfalso. apply (H l). left. reflexivity.
Qed.

Lemma warnings_for_quiet {A} (m : M A) label :
  quiet m -> Spec.warnings_for label (output m) = 0.
Proof. intros H. apply warnings_for_none. exact H. Qed.

Lemma times_built_app label a b :
  Spec.times_built label (a ++ b)
  = Spec.times_built label a + Spec.times_built label b.
Proof.
  unfold Spec.times_built. rewrite filter_app, length_app. reflexivity.
Qed.

Lemma dict_get_app {V} (a b : list (string * V)) k :
  dict_get (a ++ b) k =
  match dict_get a k with
  | Some v => Some v
  | None => dict_get b k
  end.
Proof.
  induction a as [| [k' v] a IH]; simpl; [ reflexivity | ].
  destruct (String.eqb k' k); [ reflexivity | apply IH ].
Qed.

Lemma dict_get_set {V} (kvs : list (string * V)) k v k' :
  dict_get (dict_set kvs k v) k' =
  if String.eqb k k' then Some v else dict_get kvs k'.
Proof.
  induction kvs as [| [k0 v0] kvs IH]; simpl.
  - reflexivity.
  - destruct (String.eqb k0 k) eqn:E0; simpl.
    + apply String.eqb_eq in E0. subst k0.
      destruct (String.eqb k k'); reflexivity.
    + destruct (String.eqb k0 k') eqn:E1.
      * apply String.eqb_eq in E1. subst k0.
        rewrite String.eqb_sym, E0. reflexivity.
      * apply IH.
Qed.

Lemma dict_get_never_built (l : list (string * VO)) label :
  dict_get l label = None <-> Spec.times_built label l = 0.
Proof.
  unfold Spec.times_built.
  induction l as [| [k v] l IH]; simpl; [ tauto | ].
  destruct (String.eqb k label); simpl; [ | exact IH ].
  split; discriminate.
Qed.

Lemma built_app build a b :
  Spec.built build (a ++ b) = Spec.built build a ++ Spec.built build b.
Proof. unfold Spec.built. apply flat_map_app. Qed.

Section WithBuild.
Variable build : json -> option string -> M VO.
Hypothesis quiet_build : forall data label, quiet (build data label).

Lemma settled_nil label c : settled build label c [] [] c.
Proof.
  unfold settled, due. simpl. split.
  - destruct (dict_get c label); reflexivity.
  - destruct (String.eqb label hermes), (dict_in label c); reflexivity.
Qed.

Lemma settled_app label c items1 out1 c1 items2 out2 c2 :
  settled build label c items1 out1 c1 ->
  settled build label c1 items2 out2 c2 ->
  settled build label c (items1 ++ items2) (out1 ++ out2) c2.
Proof.
  unfold settled. intros [D1 W1] [D2 W2].
  rewrite built_app, dict_get_app, times_built_app, warnings_for_app.
  split.
  - rewrite D2, D1. destruct (dict_get c label); [ reflexivity | ].
    destruct (dict_get (Spec.built build items1) label); reflexivity.
  - rewrite W1, W2. unfold due, dict_in. rewrite D1.
    destruct (String.eqb label hermes); [ reflexivity | ].
    destruct (dict_get c label); [ reflexivity | ].
    destruct (dict_get (Spec.built build items1) label) eqn:E.
    + assert (Spec.times_built label (Spec.built build items1) <> 0).
      { intros H. apply dict_get_never_built in H. congruence. }
      lia.
    + apply dict_get_never_built in E. rewrite E. reflexivity.
Qed.

Lemma add_lineset_cases obj c l x out obj' c' :
  add_lineset build (obj, c) (l, x) = (out, Ok (obj', c')) ->
  match build x (Some l) with
  | (ob, Ok vo) =>
      if dict_in l c
      then c' = c
           /\ out = ob ++ (if String.eqb l hermes then []
                           else [WarnMoreThanOneCategory l])
      else c' = dict_set c l vo /\ out = ob
  | (ob, Raise e) => c' = c /\ out = ob
  end.
Proof.
  unfold add_lineset.
  destruct (build x (Some l)) as [ob [vo | e]]; cbn [bind].
  - destruct (dict_in l c).
    + fold hermes. destruct (String.eqb l hermes); simpl;
        intros H; inversion H; subst; rewrite ?app_nil_r; auto.
    + simpl. intros H; inversion H; subst; rewrite ?app_nil_r; auto.
  - simpl. destruct (exn_eqb e NoCuesException); simpl;
      intros H; inversion H; subst; rewrite ?app_nil_r; auto.
Qed.

Lemma add_lineset_settled label obj c item out obj' c' :
  add_lineset build (obj, c) item = (out, Ok (obj', c')) ->
  settled build label c [item] out c'.
Proof.
  destruct item as [l x]. intros H. apply add_lineset_cases in H.
  pose proof (warnings_for_quiet _ label (quiet_build x (Some l))) as Hq.
  unfold settled, Spec.built. cbn [flat_map fst snd].
  unfold result, output in *.
  destruct (build x (Some l)) as [ob [vo | e]]; cbn [fst snd] in *.
  - rewrite app_nil_r. unfold Spec.times_built. cbn [filter fst dict_get].
    unfold dict_in in *.
    destruct (dict_get c l) as [old |] eqn:El; destruct H as [-> ->].
    + (* the name is known *)
      rewrite warnings_for_app, Hq. split.
      * destruct (dict_get c label) eqn:E; [ reflexivity | ].
        destruct (String.eqb l label) eqn:E'; [ | reflexivity ].
        apply String.eqb_eq in E'. congruence.
      * unfold due. destruct (String.eqb l label) eqn:E'.
        -- apply String.eqb_eq in E'. subst l. rewrite El.
           destruct (String.eqb label hermes) eqn:Eh; [ reflexivity | ].
           unfold Spec.warnings_for. simpl. rewrite String.eqb_refl.
           reflexivity.
        -- assert (W : Spec.warnings_for label
                         (if String.eqb l hermes then []
                          else [WarnMoreThanOneCategory l]) = 0).
           { destruct (String.eqb l hermes); [ reflexivity | ].
             unfold Spec.warnings_for. simpl. rewrite E'. reflexivity. }
           rewrite W. simpl.
           destruct (String.eqb label hermes); [ reflexivity | ].
           destruct (dict_get c label); reflexivity.
    + (* the name is new *)
      rewrite Hq, dict_get_set. split.
      * destruct (String.eqb l label) eqn:E'.
        -- apply String.eqb_eq in E'. subst l. rewrite El. reflexivity.
        -- destruct (dict_get c label); reflexivity.
      * unfold due. destruct (String.eqb label hermes); [ reflexivity | ].
        destruct (String.eqb l label) eqn:E'; simpl.
        -- apply String.eqb_eq in E'. subst l. rewrite El. reflexivity.
        -- destruct (dict_get c label); reflexivity.
  - destruct H as [-> ->]. simpl. rewrite Hq. split.
    + destruct (dict_get c label); reflexivity.
    + unfold due, Spec.times_built. simpl.
      destruct (String.eqb label hermes), (dict_in label c); reflexivity.
Qed.

Lemma add_linesets_settled label items :
  forall obj c out obj' c',
    add_linesets build (obj, c) items = (out, Ok (obj', c')) ->
    settled build label c items out c'.
Proof.
  induction items as [| item items IH]; intros obj c out obj' c' H.
  - inversion H; subst. apply settled_nil.
  - cbn [add_linesets] in H. apply bind_Ok in H.
    destruct H as (o1 & [obj1 c1] & o2 & H1 & H2 & ->).
    change (item :: items) with ([item] ++ items).
    apply (settled_app label c [item] o1 c1 items o2 c').
    + apply (add_lineset_settled label obj c item o1 obj1 c1 H1).
    + apply (IH obj1 c1 o2 obj' c' H2).
Qed.

Lemma add_group_settled label kvs c g out g' c' :
  add_group build (JDict kvs) c g = (out, Ok (g', c')) ->
  settled build label c (Spec.linesets_of [g] kvs) out c'.
Proof.
  destruct g as [[key lbl] obj]. unfold add_group, Spec.linesets_of.
  cbn [flat_map fst snd]. rewrite app_nil_r.
  simpl py_in. rewrite bind_ret_l. unfold dict_in. simpl py_getitem.
  destruct (dict_get kvs key) as [v |].
  - rewrite bind_ret_l. destruct v;
      try (intros H; inversion H; subst; apply settled_nil).
    intros H. apply bind_Ok in H.
    destruct H as (o1 & [obj1 c1] & o2 & H1 & H2 & ->).
    inversion H2; subst. rewrite app_nil_r.
    apply (add_linesets_settled label _ obj c o1 obj1 c' H1).
  - intros H; inversion H; subst; apply settled_nil.
Qed.

Lemma add_groups_settled label kvs gs :
  forall done c out gs' c',
    add_groups build (JDict kvs) done c gs = (out, Ok (gs', c')) ->
    settled build label c (Spec.linesets_of gs kvs) out c'.
Proof.
  induction gs as [| g gs IH]; intros done c out gs' c' H.
  - inversion H; subst. apply settled_nil.
  - cbn [add_groups] in H. apply bind_Ok in H.
    destruct H as (o1 & [g1 c1] & o2 & H1 & H2 & ->).
    replace (Spec.linesets_of (g :: gs) kvs)
      with (Spec.linesets_of [g] kvs ++ Spec.linesets_of gs kvs)
      by (unfold Spec.linesets_of; cbn [flat_map];
          rewrite app_nil_r; reflexivity).
    apply (settled_app label c _ o1 c1 _ o2 c').
    + apply (add_group_settled label kvs c g o1 g1 c1 H1).
    + apply (IH _ c1 o2 gs' c' H2).
Qed.

Lemma Bank_init_settled label gs name kvs out bank :
  Bank_init build gs name (JDict kvs) = (out, Ok bank) ->
  settled build label [] (Spec.linesets_of gs kvs) out (combined bank).
Proof.
  unfold Bank_init. intros H. apply bind_Ok in H.
  destruct H as (o1 & [gs' c'] & o2 & H1 & H2 & ->).
  cbn [fst snd] in H2.
  destruct (forallb _ gs'); [ discriminate | ].
  inversion H2; subst. rewrite app_nil_r. simpl.
  apply (add_groups_settled label kvs gs [] [] o1 gs' c' H1).
Qed.
End WithBuild.

End BankFacts.

(** C7. In a bank that was built, [combined] holds for every name the
    first line-set built under that name, in the order of the categories:
    a later one never takes its place.  The duplicate warning is printed
    once for each later build of a name, except for [HermesPostEnding01],
    for which it is never printed. *)
Theorem duplicate_names_keep_first :
  forall float_of_str gs name kvs out bank,
    HDialogue.Bank_new float_of_str gs name (Py.JDict kvs) = (out, Py.Ok bank) ->
    forall label,
      let built := Spec.built (HDialogue.VO_new float_of_str)
                     (Spec.linesets_of gs kvs) in
      Py.dict_get (HDialogue.combined bank) label = Py.dict_get built label
      /\ Spec.warnings_for label out
         = if String.eqb label "HermesPostEnding01" then 0
           else pred (Spec.times_built label built).
Proof.
  intros fos gs name kvs out bank H label built.
  destruct (BankFacts.Bank_init_settled (HDialogue.VO_new fos)
              (QuietFacts.quiet_VO_new fos) label gs name kvs out bank H)
    as [D W].
  split; [ exact D | exact W ].
Qed.

Lemma duplicate_names_keep_first_witness :
  (Py.dict_get
     [ ("Greeting",
        HDialogue.mkVO [HDialogue.mkCue "First" None (Py.PInt 0) None None]
          (Some "Greeting"));
       ("HermesPostEnding01",
        HDialogue.mkVO [HDialogue.mkCue "HermesA" None (Py.PInt 0) None None]
          (Some "HermesPostEnding01")) ]
     "Greeting"
   = Py.dict_get Spec.twice_built "Greeting")
  /\ Spec.warnings_for "Greeting" [Py.WarnMoreThanOneCategory "Greeting"]
     = pred (Spec.times_built "Greeting" Spec.twice_built).
Proof.
  pose (r := HDialogue.Bank_new Spec.no_float_of_str HDialogue.NPCBank_groups
               "Zagreus" (Py.JDict Spec.twice)).
  assert (H : HDialogue.Bank_new Spec.no_float_of_str HDialogue.NPCBank_groups
                "Zagreus" (Py.JDict Spec.twice)
              = (fst r, Py.Ok match snd r with
                              | Py.Ok b => b
                              | Py.Raise _ => HDialogue.mkBank EmptyString [] []
                              end)).
  { vm_compute. reflexivity. }
  exact (duplicate_names_keep_first _ _ _ _ _ _ H "Greeting").
Defined.

(** ** Enough room for the nested calls *)

Module DepthFacts.
Import Py Py.Notations HDialogue Spec PyFacts CueFacts.

Lemma depth_in_list x l : In x l -> json_depth x < json_depth (JList l).
Proof.
  induction l as [| y l IH]; [ intros [] | ].
  intros [-> | H]; simpl in *; [ lia | ].
  specialize (IH H). lia.
Qed.

Lemma depth_in_dict (kvs : list (string * json)) k v :
  dict_get kvs k = Some v -> json_depth v < json_depth (JDict kvs).
Proof.
  induction kvs as [| [k' v'] kvs IH]; [ discriminate | ].
  simpl dict_get. destruct (String.eqb k' k).
  - intros H. inversion H; subst. simpl. lia.
  - intros H. specialize (IH H). simpl in *. lia.
Qed.

Lemma depth_in_choices entry l x :
  choices_of entry = Some l -> In x l -> S (json_depth x) < json_depth entry.
Proof.
  unfold choices_of. destruct entry as [| | | | | | ekvs]; try discriminate.
  destruct (dict_get ekvs "Choices") as [[| | | | | cl |] |] eqn:E;
    try discriminate.
  intros H Hin. inversion H; subst.
  pose proof (depth_in_dict ekvs "Choices" _ E).
  pose proof (depth_in_list x l Hin). lia.
Qed.

Section WithFloat.
Variable float_of_str : string -> option spec_float.

Section TwoBuilders.
Variables build1 build2 : json -> M VO.

Lemma extend_with_each_agree l :
  (forall x, In x l -> build1 x = build2 x) ->
  forall acc, extend_with_each build1 acc l = extend_with_each build2 acc l.
Proof.
  induction l as [| x l IH]; intros H acc; cbn [extend_with_each];
    [ reflexivity | ].
  rewrite (H x (or_introl eq_refl)). apply bind_ext. intros acc'.
  apply IH. intros y Hy. apply H. right. exact Hy.
Qed.

Lemma index_loop_agree kvs ct nums :
  (forall k entry l x, dict_get kvs k = Some entry ->
                       choices_of entry = Some l -> In x l ->
                       build1 x = build2 x) ->
  forall st, index_loop float_of_str build1 kvs ct st nums
             = index_loop float_of_str build2 kvs ct st nums.
Proof.
  intros H. induction nums as [| num nums IH]; intros st;
    cbn [index_loop]; [ reflexivity | ].
  assert (E : index_step float_of_str build1 kvs ct st num
              = index_step float_of_str build2 kvs ct st num).
  { unfold index_step. destruct st as [acc d].
    destruct (dict_get kvs (str num)) as [entry |] eqn:Ee; [ | reflexivity ].
    destruct (choices_of entry) as [l |] eqn:Ec; [ | reflexivity ].
    rewrite (extend_with_each_agree l); [ reflexivity | ].
    intros x Hx. apply (H (str num) entry l x Ee Ec Hx). }
  rewrite E. apply bind_ext. intros st'. apply IH.
Qed.

Lemma add_end_voice_lines_agree kvs acc :
  (forall sub, dict_get kvs "EndVoiceLines" = Some (JDict sub) ->
               build1 (JDict sub) = build2 (JDict sub)) ->
  (forall l x, dict_get kvs "EndVoiceLines" = Some (JList l) -> In x l ->
               build1 x = build2 x) ->
  add_end_voice_lines build1 kvs acc = add_end_voice_lines build2 kvs acc.
Proof.
  intros Hd Hl. unfold add_end_voice_lines.
  destruct (dict_get kvs "EndVoiceLines") as [[| | | | | l | sub] |];
    try reflexivity.
  - apply extend_with_each_agree. intros x Hx. apply (Hl l x eq_refl Hx).
  - apply extend_with_each_agree. intros x [<- | []]. apply (Hd sub eq_refl).
Qed.
End TwoBuilders.

(** Beyond the nesting of the data, more room changes nothing. *)
Lemma VO_init_enough d1 :
  forall d2 data label,
    json_depth data < d1 -> json_depth data < d2 ->
    VO_init float_of_str d1 data label = VO_init float_of_str d2 data label.
Proof.
  induction d1 as [| d1 IH]; intros d2 data label H1 H2; [ lia | ].
  destruct d2 as [| d2]; [ lia | ].
  cbn [VO_init]. f_equal.
  destruct data as [| | | | | l | kvs]; try reflexivity.
  apply bind_ext. intros delay.
  rewrite (index_loop_agree _ (fun sub => VO_init float_of_str d2 sub None)).
  - apply bind_ext. intros st. apply bind_ext. intros acc.
    apply add_end_voice_lines_agree.
    + intros sub E. pose proof (depth_in_dict kvs _ _ E).
      apply IH; lia.
    + intros l x E Hx. pose proof (depth_in_dict kvs _ _ E).
      pose proof (depth_in_list x l Hx). apply IH; lia.
  - intros k entry l x Ee Ec Hx.
    pose proof (depth_in_dict kvs _ _ Ee).
    pose proof (depth_in_choices entry l x Ec Hx).
    apply IH; lia.
Qed.

(** [VO_new] is [VO_init] with any room that is enough. *)
Lemma VO_new_enough depth data label :
  json_depth data < depth ->
  VO_init float_of_str depth data label = VO_new float_of_str data label.
Proof. intros H. apply VO_init_enough; [ exact H | lia ]. Qed.

Section OneBuilder.
Variable build : json -> M VO.

Lemma never_extend_with_each l :
  (forall x, In x l -> never RecursionError (build x)) ->
  forall acc, never RecursionError (extend_with_each build acc l).
Proof.
  induction l as [| x l IH]; intros H acc; cbn [extend_with_each];
    [ apply never_ret | ].
  apply never_bind; [ | intros acc'; apply IH; intros y Hy; apply H;
                                     right; exact Hy ].
  unfold never. rewrite result_try_except, result_bind.
  pose proof (H x (or_introl eq_refl)) as Hx. unfold never in Hx.
  destruct (result (build x)) as [vo | e]; [ discriminate | ].
  destruct e; simpl; try discriminate. congruence.
Qed.
End OneBuilder.

Lemma never_from_data_Recursion data ext ch :
  never RecursionError (from_data float_of_str data ext ch).
Proof.
  unfold from_data.
  repeat (first
    [ apply never_bind; [ | intros ? ]
    | apply never_py_in; discriminate
    | apply never_py_getitem; discriminate
    | apply never_py_float; discriminate
    | apply never_py_add; discriminate
    | apply never_vo_re_match_value; discriminate
    | apply never_ret
    | apply never_warn
    | apply never_raise; discriminate
    | match goal with |- never _ (if ?b then _ else _) => destruct b end
    | match goal with |- never _ (match ?b with _ => _ end) => destruct b end ]).
Qed.

Lemma never_try_from_data {A} (f : Cue -> M A) h data ext ch :
  (forall c, never RecursionError (f c)) ->
  never RecursionError h ->
  never RecursionError
    (try_except (bind (from_data float_of_str data ext ch) f)
       NotACueException h).
Proof.
  intros Hf Hh. unfold never. rewrite result_try_except, result_bind.
  pose proof (never_from_data_Recursion data ext ch) as Hd.
  unfold never in Hd.
  destruct (result (from_data float_of_str data ext ch)) as [c | e].
  - pose proof (Hf c) as Hc. unfold never in Hc.
    destruct (result (f c)) as [a | e]; [ discriminate | ].
    destruct e; simpl; try discriminate; try exact Hh. congruence.
  - destruct e; simpl; try discriminate; try exact Hh. congruence.
Qed.

Lemma never_append_cues l :
  forall acc, never RecursionError (append_cues float_of_str acc l).
Proof.
  induction l as [| x l IH]; intros acc; cbn [append_cues];
    [ apply never_ret | ].
  apply never_bind; [ | intros acc'; apply IH ].
  apply never_try_from_data; [ intros c | ]; apply never_ret.
Qed.

(** With room for the nesting of the data, the bound is never hit. *)
Lemma VO_init_never_RecursionError depth :
  forall data label,
    json_depth data < depth ->
    never RecursionError (VO_init float_of_str depth data label).
Proof.
  induction depth as [| depth IH]; intros data label H; [ lia | ].
  cbn [VO_init]. apply never_bind.
  - destruct data as [| | | | | l | kvs];
      try (apply never_bind; [ apply never_print | intros; apply never_ret ]).
    + apply never_append_cues.
    + apply never_bind.
      { destruct (dict_get kvs "PreLineWait").
        - apply never_bind; [ apply never_py_float; discriminate
                            | intros; apply never_ret ].
        - apply never_ret. }
      intros d. apply never_bind.
      { (* the loop over the numbered keys *)
        generalize (seq 0 (List.length kvs)).
        generalize (@nil Cue, d).
        intros st nums. revert st.
        induction nums as [| num nums IHn]; intros st; cbn [index_loop];
          [ apply never_ret | ].
        apply never_bind; [ | intros st'; apply IHn ].
        unfold index_step. destruct st as [acc dl].
        destruct (dict_get kvs (str num)) as [entry |] eqn:Ee;
          [ | apply never_ret ].
        destruct (choices_of entry) as [cl |] eqn:Ec.
        - apply never_bind; [ | intros; apply never_ret ].
          apply never_extend_with_each. intros x Hx. apply IH.
          pose proof (depth_in_dict kvs _ _ Ee).
          pose proof (depth_in_choices entry cl x Ec Hx). lia.
        - apply never_try_from_data; [ intros c | ]; apply never_ret. }
      intros st. apply never_bind.
      { unfold add_end_cue.
        destruct (dict_get kvs "EndCue") as [v |]; [ | apply never_ret ].
        destruct v; try apply never_ret;
          (apply never_bind;
           [ apply never_vo_re_match_value; discriminate | intros m ];
           destruct m;
           [ apply never_bind; [ | intros; apply never_ret ];
             destruct (dict_get kvs "EndWait") as [w |];
             [ destruct w; try apply never_ret;
               (apply never_bind; [ apply never_py_float; discriminate
                                  | intros; apply never_ret ])
             | apply never_ret ]
           | apply never_bind; [ apply never_warn | intros; apply never_ret ] ]). }
      intros acc. unfold add_end_voice_lines.
      destruct (dict_get kvs "EndVoiceLines") as [[| | | | | l | sub] |] eqn:E;
        try apply never_ret.
      * apply never_extend_with_each. intros x Hx. apply IH.
        pose proof (depth_in_dict kvs _ _ E).
        pose proof (depth_in_list x l Hx). lia.
      * apply never_extend_with_each. intros x [<- | []]. apply IH.
        pose proof (depth_in_dict kvs _ _ E). lia.
  - intros cs. destruct cs; [ apply never_raise; discriminate | apply never_ret ].
Qed.

Lemma VO_new_never_RecursionError data label :
  never RecursionError (VO_new float_of_str data label).
Proof. apply VO_init_never_RecursionError. lia. Qed.
End WithFloat.

End DepthFacts.

(** ** The menu loop *)

Module NavFacts.
Import Py PlayInteractive NavSpec.

Lemma level_le d : level d <= 4.
Proof. destruct d; simpl; lia. Qed.

Lemma Forall_level_5 opts : Forall (at_level 5) opts -> opts = [].
Proof.
  destruct opts as [| o opts]; [ reflexivity | ].
  intros H. inversion H as [| ? ? Ho _]; subst.
  unfold at_level in Ho. pose proof (level_le (data o)). lia.
Qed.

Lemma Forall_nth_error {A} (P : A -> Prop) l i x :
  Forall P l -> nth_error l i = Some x -> P x.
Proof.
  intros H E. rewrite Forall_forall in H. apply H.
  apply (nth_error_In _ _ E).
Qed.

(** *** [refresh] *)

Lemma Forall_enumerate_map {A} (P : Option -> Prop) (f : nat * A -> Option)
    (l : list A) start :
  (forall n x, In x l -> P (f (n, x))) ->
  Forall P (map f (enumerate start l)).
Proof.
  revert start. induction l as [| x l IH]; intros start H; simpl;
    constructor.
  - apply H. left. reflexivity.
  - apply IH. intros n y Hy. apply H. right. exact Hy.
Qed.

Lemma In_insert_by_name {V} (kv x : string * V) l :
  In x (insert_by_name kv l) -> x = kv \/ In x l.
Proof.
  induction l as [| kv' l IH]; simpl.
  - intros [H | []]; auto.
  - destruct (String.leb (fst kv) (fst kv')); simpl.
    + intros [H | [H | H]]; auto.
    + intros [H | H]; auto. destruct (IH H); auto.
Qed.

Lemma In_sorted {V} (x : string * V) l : In x (sorted l) -> In x l.
Proof.
  unfold sorted. induction l as [| kv l IH]; simpl; [ auto | ].
  intros H. apply In_insert_by_name in H. destruct H; auto.
Qed.

Lemma category_options_level gs :
  forall num, Forall (at_level 3) (category_options num gs).
Proof.
  induction gs as [| [[key name] c] gs IH]; intros num; simpl.
  - constructor.
  - destruct (Nat.ltb 0 (List.length c)); [ constructor | ]; auto.
    reflexivity.
Qed.

(** On a well-formed stack [refresh] succeeds, prints nothing, turns
    [playing] on at the fourth level only, and gives options of the next
    level. *)
Lemma refresh_ok app stack playing :
  List.length stack <= 4 -> frames_ok stack ->
  exists opts,
    refresh app stack playing
    = ([], inr (playing || Nat.eqb (List.length stack) 4, opts))
    /\ Forall (at_level (S (List.length stack))) opts.
Proof.
  intros Hlen Hf. unfold refresh.
  destruct stack as [| top below].
  - rewrite orb_false_r. eexists. split; [ reflexivity | ].
    repeat constructor.
  - destruct Hf as (Ht & _ & _ & _). unfold at_level in Ht.
    simpl List.length in *.
    destruct (List.length below) as [| [| [| [| n]]]]; try lia;
      simpl Nat.eqb; rewrite ?orb_false_r, ?orb_true_r.
    + destruct (data (option_ top)) as [r | | |] eqn:E; try discriminate.
      simpl items_of. eexists. split; [ reflexivity | ].
      apply Forall_enumerate_map. intros n [k d] Hin.
      apply In_sorted in Hin. apply in_map_iff in Hin.
      destruct Hin as ([k' b] & Heq & _). inversion Heq; subst.
      reflexivity.
    + destruct (data (option_ top)) as [| b | |] eqn:E; try discriminate.
      eexists. split; [ reflexivity | ]. apply category_options_level.
    + destruct (data (option_ top)) as [| | c |] eqn:E; try discriminate.
      eexists. split; [ reflexivity | ].
      apply Forall_enumerate_map. intros n [k v] Hin. reflexivity.
    + eexists. split; [ reflexivity | ]. constructor.
Qed.

(** *** [process_options] *)

Lemma reselect_answered stack i r stack' res :
  reselect stack i r = Returned res stack' ->
  res = RetResult r
  /\ exists top below o,
       stack = top :: below /\ In o (prev_options top)
       /\ stack' = mkBreadcrumb o (prev_options top) :: below.
Proof.
  unfold reselect. destruct stack as [| top below]; [ discriminate | ].
  destruct (nth_error (prev_options top) i) as [o |] eqn:E; [ | discriminate ].
  intros H. inversion H; subst. split; [ reflexivity | ].
  exists top, below, o. repeat split. apply (nth_error_In _ _ E).
Qed.

Lemma descend_answered options stack i f stack' res :
  descend options stack i f = Returned res stack' ->
  exists o, In o options /\ res = f o
            /\ stack' = mkBreadcrumb o options :: stack.
Proof.
  unfold descend. destruct (nth_error options i) as [o |] eqn:E;
    [ | discriminate ].
  intros H. inversion H; subst. exists o. repeat split.
  apply (nth_error_In _ _ E).
Qed.

Lemma respond_answered options stack m line res stack' :
  allow_autoplay m = allow_next m || Nat.eqb (List.length stack) 3 ->
  respond options stack m line = Returned res stack' ->
  answered options stack m res stack'.
Proof.
  intros Hauto. unfold respond.
  destruct (String.eqb _ "q"); [ discriminate | ].
  destruct (Nat.ltb 0 (List.length stack) && String.eqb _ "b").
  { destruct stack as [| top below]; [ discriminate | ].
    intros H. inversion H; subst. apply (ans_back _ _ _ top stack'). reflexivity. }
  destruct (allow_replay m && String.eqb _ "r") eqn:Er.
  { intros H. inversion H; subst. apply ans_replay.
    apply andb_true_iff in Er. tauto. }
  destruct (allow_prev m && String.eqb _ "p") eqn:Ep.
  { intros H. apply reselect_answered in H.
    destruct H as (-> & top & below & o & -> & Hin & ->).
    apply andb_true_iff in Ep.
    apply (ans_reselect _ _ _ top below o); tauto. }
  destruct (allow_next m && String.eqb _ "n") eqn:En.
  { intros H. apply reselect_answered in H.
    destruct H as (-> & top & below & o & -> & Hin & ->).
    apply andb_true_iff in En.
    apply (ans_reselect _ _ _ top below o); tauto. }
  destruct (allow_autoplay m && String.eqb _ "a") eqn:Ea.
  { apply andb_true_iff in Ea. destruct Ea as [Ea _].
    destruct (Nat.eqb (List.length stack) 3) eqn:E3.
    - intros H. apply descend_answered in H.
      destruct H as (o & Hin & -> & ->).
      apply ans_autoplay_all; [ apply Nat.eqb_eq; exact E3 | exact Hin ].
    - intros H. apply reselect_answered in H.
      destruct H as (-> & top & below & o & -> & Hin & ->).
      rewrite Ea, orb_false_r in Hauto.
      apply (ans_autoplay _ _ _ top below o); auto. }
  destruct (Nat.ltb 0 (num_options m)); [ | discriminate ].
  destruct (py_int _) as [intval |]; [ | discriminate ].
  destruct (Z.ltb intval 1 || Z.gtb intval _); [ discriminate | ].
  destruct (Nat.eqb (List.length stack) 4) eqn:E4.
  - intros H. apply reselect_answered in H.
    destruct H as (-> & top & below & o & -> & Hin & ->).
    apply Nat.eqb_eq in E4.
    apply (ans_reselect _ _ _ top below o); auto.
  - intros H. apply descend_answered in H.
    destruct H as (o & Hin & -> & ->).
    apply Nat.eqb_neq in E4. apply ans_descend; assumption.
Qed.

Lemma prompt_loop_answered options stack m lines :
  allow_autoplay m = allow_next m || Nat.eqb (List.length stack) 3 ->
  forall out res stack' rest,
    prompt_loop options stack m lines = (out, inr (res, stack', rest)) ->
    answered options stack m res stack'.
Proof.
  intros Hauto. induction lines as [| line lines IH];
    intros out res stack' rest; cbn [prompt_loop]; [ discriminate | ].
  destruct (respond options stack m line) as [c | r s | t | e] eqn:E;
    try discriminate.
  - intros H. inversion H; subst.
    apply (respond_answered _ _ _ line); assumption.
  - destruct (prompt_loop options stack m lines) as [o r] eqn:El.
    intros H. inversion H; subst. apply (IH _ _ _ _ eq_refl).
Qed.

Lemma menu_of_flags options stack playing m :
  menu_of options stack playing = inr m ->
  allow_autoplay m = allow_next m || Nat.eqb (List.length stack) 3
  /\ (allow_replay m = true -> playing = true)
  /\ (allow_prev m = true -> playing = true)
  /\ (allow_next m = true -> playing = true).
Proof.
  unfold menu_of. destruct playing.
  - destruct stack as [| top below]; [ discriminate | ].
    intros H. inversion H; subst. simpl. auto.
  - intros H. inversion H; subst. simpl.
    repeat split; discriminate.
Qed.

Lemma process_options_answered options stack playing lines out res stack' rest :
  process_options options stack playing lines = (out, inr (res, stack', rest)) ->
  exists m, menu_of options stack playing = inr m
            /\ answered options stack m res stack'.
Proof.
  unfold process_options.
  destruct (menu_of options stack playing) as [e | m] eqn:E; [ discriminate | ].
  intros H. exists m. split; [ reflexivity | ].
  apply (prompt_loop_answered options stack m lines
           (proj1 (menu_of_flags _ _ _ _ E)) _ _ _ _ H).
Qed.

End NavFacts.

Module NavInvariant.
Import Py PlayInteractive NavSpec NavFacts.

(** The first step of a turn on a well-formed state. *)
Lemma turn_refresh app st :
  wf st ->
  exists p opts,
    match options st with
    | None => refresh app (stack st) (playing st)
    | Some options => ([], inr (playing st, options))
    end = ([], inr (p, opts))
    /\ ready (stack st) p (autoplaying st) opts
    /\ shown app st opts.
Proof.
  intros (Hlen & Hf & Ho & Hp & H4 & Ha). unfold shown.
  destruct (options st) as [opts |] eqn:E.
  - exists (playing st), opts. split; [ reflexivity | ].
    split; [ | reflexivity ].
    constructor; auto.
    intros H. destruct (H4 H) as [Hpl | Hn]; [ auto | discriminate ].
  - destruct (refresh_ok app (stack st) (playing st) Hlen Hf)
      as (opts & Hr & Hopts).
    eexists _, opts. split; [ exact Hr | ].
    split; [ | eauto ].
    constructor; auto.
    + intros H. apply orb_true_iff in H. destruct H as [H | H];
        [ auto | apply Nat.eqb_eq; exact H ].
    + intros H. rewrite H. apply orb_true_r.
Qed.

(** At the fourth level the top frame holds a line-set. *)
Lemma top_is_VO stack :
  frames_ok stack -> List.length stack = 4 ->
  exists top below vo,
    stack = top :: below /\ data (option_ top) = DVO vo.
Proof.
  destruct stack as [| top below]; [ discriminate | ].
  intros (Ht & _) Hlen. simpl in Hlen.
  assert (E : List.length below = 3) by lia. rewrite E in Ht.
  unfold at_level in Ht.
  destruct (data (option_ top)) as [| | | vo] eqn:Ed; try discriminate.
  exists top, below, vo. auto.
Qed.

Lemma frames_reselect top below o :
  frames_ok (top :: below) -> In o (prev_options top) ->
  frames_ok (mkBreadcrumb o (prev_options top) :: below).
Proof.
  intros (Ht & Hin & Hall & Hb) Ho. simpl. repeat split; auto.
  rewrite Forall_forall in Hall. apply Hall. exact Ho.
Qed.

Lemma frames_descend stack options o :
  frames_ok stack -> Forall (at_level (S (List.length stack))) options ->
  In o options -> frames_ok (mkBreadcrumb o options :: stack).
Proof.
  intros Hf Hall Ho. simpl. repeat split; auto.
  rewrite Forall_forall in Hall. apply Hall. exact Ho.
Qed.

Lemma wf_intro p a o s :
  List.length s <= 4 ->
  frames_ok s ->
  (forall opts, o = Some opts -> Forall (at_level (S (List.length s))) opts) ->
  (p = true -> List.length s = 4) ->
  (List.length s = 4 -> p = true \/ o = None) ->
  (a = true -> List.length s = 4) ->
  wf (mkState p a o s).
Proof.
  intros. unfold wf. cbn [stack options playing autoplaying].
  repeat (split; [ assumption | ]). assumption.
Qed.

Lemma ask_wf playing options stack lines o st' rest :
  ready stack playing false options ->
  ask playing options stack lines = (o, inr (st', rest)) ->
  wf st'.
Proof.
  intros [Hlen Hf Ho Hp H4 _]. unfold ask.
  destruct (process_options options stack playing lines) as [o' r] eqn:E.
  destruct r as [s | [[res stack'] rest']]; [ discriminate | ].
  apply process_options_answered in E. destruct E as (m & Hm & Hans).
  destruct (menu_of_flags _ _ _ _ Hm) as (_ & Hr & Hpv & Hnx).
  destruct Hans as [top below Hs | Hrep | top below o1 Hs Hin Hc
                   | top below o1 Hs Hin Hc | o1 H3 Hin | o1 Hn4 Hin];
    intros H; inversion H; subst; clear H; apply wf_intro.
  - (* back *)
    simpl in Hlen. lia.
  - apply Hf.
  - intros opts E. inversion E; subst. apply Hf.
  - discriminate.
  - simpl in Hlen. intros. lia.
  - discriminate.
  - (* replay *)
    exact Hlen.
  - exact Hf.
  - intros opts E. inversion E; subst. exact Ho.
  - exact Hp.
  - intros _. left. apply (Hr Hrep).
  - discriminate.
  - (* an adjacent or numbered sibling *)
    exact Hlen.
  - apply frames_reselect; assumption.
  - intros opts E. inversion E; subst. exact Ho.
  - exact Hp.
  - intros E. left. apply H4. exact E.
  - discriminate.
  - (* autoplay from a line-set *)
    exact Hlen.
  - apply frames_reselect; assumption.
  - intros opts E. inversion E; subst. exact Ho.
  - exact Hp.
  - intros _. left. apply (Hnx Hc).
  - intros _. apply (Hp (Hnx Hc)).
  - (* autoplay from the list of line-sets *)
    simpl. lia.
  - apply frames_descend; assumption.
  - discriminate.
  - intros _. simpl. lia.
  - intros _. right. reflexivity.
  - intros _. simpl. lia.
  - (* a choice *)
    simpl. lia.
  - apply frames_descend; assumption.
  - discriminate.
  - intros Hpl. apply Hp in Hpl. contradiction.
  - intros _. right. reflexivity.
  - discriminate.
Qed.

Lemma after_play_wf playing autoplaying options stack auto lines o st' rest :
  ready stack playing autoplaying options ->
  after_play playing autoplaying options stack auto lines
  = (o, inr (st', rest)) ->
  wf st'.
Proof.
  intros R. pose proof R as [Hlen Hf Ho Hp H4 Ha]. unfold after_play.
  destruct autoplaying.
  - pose proof (Ha eq_refl) as Hd.
    destruct stack as [| top below]; [ discriminate | ].
    destruct (Nat.ltb _ _).
    + destruct auto as [typed |].
      * destruct (ask playing options (top :: below) lines) as [o' r] eqn:E.
        intros H. inversion H; subst.
        refine (ask_wf _ _ _ _ _ _ _ _ E).
        constructor; auto; discriminate.
      * destruct (nth_error _ _) as [o1 |] eqn:E; [ | discriminate ].
        intros H. inversion H; subst.
        apply nth_error_In in E. apply wf_intro.
        -- exact Hlen.
        -- apply frames_reselect; assumption.
        -- intros opts Eo. inversion Eo; subst. exact Ho.
        -- exact Hp.
        -- intros _. left. apply H4. exact Hd.
        -- intros _. exact Hd.
    + intros H. inversion H; subst. apply wf_intro.
      * simpl in Hlen. lia.
      * apply Hf.
      * intros opts E. inversion E; subst. apply Hf.
      * discriminate.
      * simpl in Hlen. intros. lia.
      * discriminate.
  - apply ask_wf. constructor; auto; discriminate.
Qed.

(** A turn that goes on leaves a well-formed state. *)
Lemma turn_wf app st played auto lines o st' rest :
  wf st -> turn app st played auto lines = (o, inr (st', rest)) -> wf st'.
Proof.
  intros Hwf. unfold turn.
  destruct (turn_refresh app st Hwf) as (p & opts & -> & R & _).
  destruct (if p then _ else _) as [o2 [e | []]]; [ discriminate | ].
  destruct (after_play p (autoplaying st) opts (stack st) auto lines)
    as [o3 r3] eqn:E.
  intros H. inversion H; subst.
  apply (after_play_wf _ _ _ _ _ _ _ _ _ R E).
Qed.

Lemma initial_wf : wf initial.
Proof.
  apply wf_intro; try discriminate; simpl; auto; lia.
Qed.

Lemma reachable_wf app st : reachable app st -> wf st.
Proof.
  induction 1 as [| st played auto lines o st' rest _ IH Ht].
  - apply initial_wf.
  - apply (turn_wf app st played auto lines o st' rest IH Ht).
Qed.

End NavInvariant.

Module NavSteps.
Import Py PlayInteractive NavSpec NavFacts NavInvariant.

(** A turn on a well-formed state: the menu is refreshed without a word,
    the line-set on top is played when [playing] is on, and the rest is
    [after_play] when that play comes back; the turn ends with the play's
    exception when it does not. *)
Lemma turn_unfold app st played auto lines :
  wf st ->
  exists p opts shows,
    shown app st opts
    /\ ready (stack st) p (autoplaying st) opts
    /\ (if p : bool
        then exists top below vo,
               stack st = top :: below /\ data (option_ top) = DVO vo
               /\ shows = [OutPlay vo]
        else shows = [])
    /\ ((p = true -> played = PlayDone) ->
        turn app st played auto lines
        = (OutHeader (header_txt (stack st)) :: shows
           ++ fst (after_play p (autoplaying st) opts (stack st) auto lines),
           snd (after_play p (autoplaying st) opts (stack st) auto lines)))
    /\ (forall e,
          p = true -> played = PlayRaised e ->
          turn app st played auto lines
          = (OutHeader (header_txt (stack st)) :: shows, inl (Crash e))).
Proof.
  intros Hwf. unfold turn.
  destruct (turn_refresh app st Hwf) as (p & opts & -> & R & Hs).
  exists p, opts.
  destruct p.
  - destruct (top_is_VO (stack st) (ready_frames _ _ _ _ R)
                (ready_playing _ _ _ _ R eq_refl))
      as (top & below & vo & Hst & Hd).
    exists [OutPlay vo]. split; [ exact Hs | ]. split; [ exact R | ].
    split; [ exists top, below, vo; auto | ].
    unfold play_top. rewrite Hst, Hd. split.
    + intros Hp. rewrite (Hp eq_refl).
      destruct (after_play _ _ _ _ _ _); reflexivity.
    + intros e _ ->. reflexivity.
  - exists []. split; [ exact Hs | ]. split; [ exact R | ].
    split; [ reflexivity | ]. split; [ | discriminate ].
    intros _. destruct (after_play _ _ _ _ _ _); reflexivity.
Qed.

Lemma shown_unique app st opts opts' :
  shown app st opts -> shown app st opts' -> opts = opts'.
Proof.
  unfold shown. destruct (options st).
  - congruence.
  - intros (o1 & p1 & H1) (o2 & p2 & H2). congruence.
Qed.

(** A line that reads as a number is none of the letter commands. *)
Lemma number_is_no_command resp k c :
  py_int resp = Some k ->
  In c ["q"; "b"; "r"; "p"; "n"; "a"] ->
  String.eqb resp c = false.
Proof.
  intros Hk Hc. destruct (String.eqb resp c) eqn:E; [ | reflexivity ].
  apply String.eqb_eq in E. subst resp.
  simpl in Hc.
  destruct Hc as [<- | [<- | [<- | [<- | [<- | [<- | []]]]]]];
    vm_compute in Hk; discriminate.
Qed.

(** What [respond] does with a number. *)
Lemma respond_number options stack m line k :
  types_number line k ->
  respond options stack m line =
  if Nat.ltb 0 (num_options m) then
    if Z.ltb k 1 || Z.gtb k (Z.of_nat (num_options m))
    then Again ("Number must be from 1 to " ++ str (num_options m))
    else if Nat.eqb (List.length stack) 4
         then reselect stack (Z.to_nat (k - 1)) PLAY
         else descend options stack (Z.to_nat (k - 1)) RetOption
  else Again "Unknown input, try again!".
Proof.
  unfold types_number, respond. intros Hk.
  rewrite (number_is_no_command _ k "q" Hk) by (simpl; tauto).
  rewrite (number_is_no_command _ k "b" Hk) by (simpl; tauto).
  rewrite (number_is_no_command _ k "r" Hk) by (simpl; tauto).
  rewrite (number_is_no_command _ k "p" Hk) by (simpl; tauto).
  rewrite (number_is_no_command _ k "n" Hk) by (simpl; tauto).
  rewrite (number_is_no_command _ k "a" Hk) by (simpl; tauto).
  rewrite !andb_false_r, Hk. reflexivity.
Qed.

(** What [respond] does with [b] on a stack that is not empty. *)
Lemma respond_back options top below m line :
  types_command line "b" ->
  respond options (top :: below) m line = Returned (RetBreadcrumb top) below.
Proof.
  unfold types_command, respond. intros ->. reflexivity.
Qed.

Lemma menu_of_num_options options stack playing m :
  menu_of options stack playing = inr m ->
  num_options m =
  match stack with
  | top :: _ =>
      if Nat.eqb (List.length stack) 4 then List.length (prev_options top)
      else List.length options
  | [] => List.length options
  end.
Proof.
  unfold menu_of. destruct playing.
  - destruct stack as [| top below]; [ discriminate | ].
    intros H. inversion H; subst. reflexivity.
  - intros H. inversion H; subst. reflexivity.
Qed.

Lemma menu_of_total options stack playing :
  playing = false \/ stack <> [] ->
  exists m, menu_of options stack playing = inr m.
Proof.
  unfold menu_of. destruct playing; [ | eauto ].
  destruct stack as [| top below]; [ intros [H | H]; congruence | eauto ].
Qed.

Lemma nth_error_in_range {A} (l : list A) k :
  (1 <= k <= Z.of_nat (List.length l))%Z ->
  exists x, nth_error l (Z.to_nat (k - 1)) = Some x.
Proof.
  intros H. destruct (nth_error l (Z.to_nat (k - 1))) as [x |] eqn:E;
    [ eauto | ].
  apply nth_error_None in E. lia.
Qed.

Lemma in_range_test k n :
  (1 <= k <= Z.of_nat n)%Z ->
  Z.ltb k 1 || Z.gtb k (Z.of_nat n) = false.
Proof.
  intros H. apply orb_false_iff. split; [ apply Z.ltb_ge; lia | ].
  rewrite Z.gtb_ltb. apply Z.ltb_ge. lia.
Qed.

Lemma out_of_range_test k n :
  (k < 1 \/ Z.of_nat n < k)%Z ->
  Z.ltb k 1 || Z.gtb k (Z.of_nat n) = true.
Proof.
  intros H. apply orb_true_iff. rewrite Z.gtb_ltb, !Z.ltb_lt. lia.
Qed.

(** A number typed at the fourth level, by whether it is in the range of
    the top frame's sibling list. *)
Lemma ask_number_at_four top below line k :
  List.length (top :: below) = 4 ->
  0 < List.length (prev_options top) ->
  types_number line k ->
  exists m,
    menu_of [] (top :: below) true = inr m
    /\ ((1 <= k <= Z.of_nat (List.length (prev_options top)))%Z ->
        exists o,
          nth_error (prev_options top) (Z.to_nat (k - 1)) = Some o
          /\ ask true [] (top :: below) [line]
             = ([OutMenu [] (prompt_txt m (top :: below))],
                inr (mkState true false (Some [])
                       (mkBreadcrumb o (prev_options top) :: below), [])))
    /\ ((k < 1 \/ Z.of_nat (List.length (prev_options top)) < k)%Z ->
        ask true [] (top :: below) [line]
        = ([ OutMenu [] (prompt_txt m (top :: below));
             OutError ("Number must be from 1 to "
                       ++ str (List.length (prev_options top)));
             OutMenu [] (prompt_txt m (top :: below)) ],
           inl Waiting)).
Proof.
  intros H4 Hnonempty Hk.
  destruct (menu_of_total [] (top :: below) true) as [m Hm];
    [ right; discriminate | ].
  assert (Hnum : num_options m = List.length (prev_options top)).
  { rewrite (menu_of_num_options _ _ _ _ Hm), H4. reflexivity. }
  exists m. split; [ exact Hm | ].
  unfold ask, process_options. rewrite Hm. cbn [prompt_loop].
  rewrite (respond_number _ _ _ line k Hk), Hnum.
  replace (Nat.ltb 0 (List.length (prev_options top))) with true
    by (symmetry; apply Nat.ltb_lt; exact Hnonempty).
  split.
  - intros Hrange.
    destruct (nth_error_in_range (prev_options top) k Hrange) as [o Ho].
    exists o. split; [ exact Ho | ].
    rewrite (in_range_test k _ Hrange), H4.
    cbn [Nat.eqb reselect]. rewrite Ho. reflexivity.
  - intros Hout. rewrite (out_of_range_test k _ Hout). reflexivity.
Qed.

(** When the prompt is reached: autoplay is off, or a key was pressed in
    time while siblings remained. *)
Lemma after_play_asks playing autoplaying options top below auto lines :
  (autoplaying = true ->
   auto <> None
   /\ pos (option_ top) < List.length (prev_options top) - 1) ->
  exists pre,
    after_play playing autoplaying options (top :: below) auto lines
    = (pre ++ fst (ask playing options (top :: below) lines),
       snd (ask playing options (top :: below) lines)).
Proof.
  intros H. unfold after_play. destruct autoplaying.
  - destruct (H eq_refl) as [Hauto Hpos].
    apply Nat.ltb_lt in Hpos. rewrite Hpos.
    destruct auto as [typed |]; [ | congruence ].
    exists [OutAutoPrompt].
    destruct (ask playing options (top :: below) lines); reflexivity.
  - exists []. destruct (ask playing options (top :: below) lines); reflexivity.
Qed.

End NavSteps.

Module NavDemo.
Import Py PlayInteractive NavSpec.

Lemma step_reachable app st i :
  reachable app st -> reachable app (step app st i).
Proof.
  intros H. unfold step.
  destruct (turn app st PlayDone (fst i) (snd i)) as [o [s | [st' rest]]] eqn:E;
    simpl; [ exact H | ].
  apply (reach_turn app st PlayDone (fst i) (snd i) o st' rest H E).
Qed.

Lemma steps_reachable app inputs :
  forall st, reachable app st -> reachable app (fold_left (step app) inputs st).
Proof.
  induction inputs as [| i inputs IH]; intros st H; simpl; [ exact H | ].
  apply IH. apply step_reachable. exact H.
Qed.

Lemma after_reachable app inputs : reachable app (after app inputs).
Proof. apply steps_reachable. apply reach_initial. Qed.

End NavDemo.

(** C8. Choosing an option and then going back changes nothing: in a
    reachable state below the fourth level, a turn that reads the number
    [k] pushes a frame with the [k]-th option shown and the whole list it
    was shown in.  A turn that then reads [b] pops this frame, makes the
    list stored on it the current list again, turns [playing] off and
    leaves the stack as it was before; when the option chosen is a
    line-set (the state was at the third level), that turn first plays it,
    and reads [b] once the play has come back: [played' = PlayDone].  If
    the play raises, the session ends there with its exception. *)
Theorem choose_then_back :
  forall app st,
    PlayInteractive.reachable app st ->
    forall opts line k played auto,
      NavSpec.shown app st opts ->
      List.length (PlayInteractive.stack st) < 4 ->
      NavSpec.types_number line k ->
      (1 <= k <= Z.of_nat (List.length opts))%Z ->
      exists o out1 st1,
        nth_error opts (Z.to_nat (k - 1)) = Some o
        /\ PlayInteractive.turn app st played auto [line]
           = (out1, inr (st1, []))
        /\ PlayInteractive.stack st1
           = PlayInteractive.mkBreadcrumb o opts :: PlayInteractive.stack st
        /\ (forall back played' auto',
              NavSpec.types_command back "b" ->
              (List.length (PlayInteractive.stack st) = 3 ->
               played' = PlayInteractive.PlayDone) ->
              exists out2,
                PlayInteractive.turn app st1 played' auto' [back]
                = (out2,
                   inr (PlayInteractive.mkState false false (Some opts)
                          (PlayInteractive.stack st), [])))
        /\ (forall e auto' lines',
              List.length (PlayInteractive.stack st) = 3 ->
              exists out2,
                PlayInteractive.turn app st1 (PlayInteractive.PlayRaised e)
                  auto' lines'
                = (out2, inl (PlayInteractive.Crash e))).
Proof.
  intros app st Hreach opts line k played auto Hshown Hdepth Hk Hrange.
  pose proof (NavInvariant.reachable_wf app st Hreach) as Hwf.
  destruct (NavSteps.nth_error_in_range opts k Hrange) as [o Ho].
  (* the turn that reads the number *)
  destruct (NavSteps.turn_unfold app st played auto [line] Hwf)
    as (p & opts1 & shows & Hs1 & R & Hplay & Hturn & _).
  assert (opts1 = opts) by (apply (NavSteps.shown_unique app st); assumption).
  subst opts1.
  assert (Hp : p = false).
  { destruct p; [ | reflexivity ].
    pose proof (NavSpec.ready_playing _ _ _ _ R eq_refl). lia. }
  assert (Ha : PlayInteractive.autoplaying st = false).
  { destruct (PlayInteractive.autoplaying st); [ | reflexivity ].
    pose proof (NavSpec.ready_auto _ _ _ _ R eq_refl). lia. }
  subst p. specialize (Hturn ltac:(discriminate)).
  rewrite Ha in Hturn. subst shows.
  assert (Hne4 : Nat.eqb (List.length (PlayInteractive.stack st)) 4 = false)
    by (apply Nat.eqb_neq; lia).
  assert (Hask : PlayInteractive.ask false opts (PlayInteractive.stack st) [line]
                 = ([PlayInteractive.OutMenu opts
                       (PlayInteractive.prompt_txt
                          (PlayInteractive.mkMenu (List.length opts) false
                             false false
                             (Nat.eqb (List.length (PlayInteractive.stack st)) 3)
                             0)
                          (PlayInteractive.stack st))],
                    inr (PlayInteractive.mkState false false None
                           (PlayInteractive.mkBreadcrumb o opts
                            :: PlayInteractive.stack st), []))).
  { unfold PlayInteractive.ask, PlayInteractive.process_options,
      PlayInteractive.menu_of.
    assert (Hn : match PlayInteractive.stack st with
                 | [] => List.length opts
                 | top :: _ =>
                     if Nat.eqb (List.length (PlayInteractive.stack st)) 4
                     then List.length (PlayInteractive.prev_options top)
                     else List.length opts
                 end = List.length opts).
    { rewrite Hne4. destruct (PlayInteractive.stack st); reflexivity. }
    rewrite Hn. cbn [PlayInteractive.prompt_loop].
    rewrite (NavSteps.respond_number _ _ _ line k Hk).
    cbn [PlayInteractive.num_options].
    replace (Nat.ltb 0 (List.length opts)) with true
      by (symmetry; apply Nat.ltb_lt; lia).
    rewrite (NavSteps.in_range_test k _ Hrange), Hne4.
    unfold PlayInteractive.descend. rewrite Ho. reflexivity. }
  unfold PlayInteractive.after_play in Hturn. rewrite Hask in Hturn.
  cbn [fst snd List.app] in Hturn.
  eexists o, _, _. split; [ exact Ho | ]. split; [ exact Hturn | ].
  split; [ reflexivity | ].
  pose proof (NavInvariant.turn_wf _ _ _ _ _ _ _ _ Hwf Hturn) as Hwf1.
  split.
  - (* the turn that reads [b] *)
    intros back played' auto' Hback Hdone.
    destruct (NavSteps.turn_unfold app _ played' auto' [back] Hwf1)
      as (p' & opts' & shows' & _ & R' & _ & Hturn' & _).
    cbn [PlayInteractive.stack PlayInteractive.autoplaying] in Hturn', R'.
    rewrite Hturn'.
    + unfold PlayInteractive.after_play, PlayInteractive.ask,
        PlayInteractive.process_options.
      destruct (NavSteps.menu_of_total opts'
                  (PlayInteractive.mkBreadcrumb o opts
                   :: PlayInteractive.stack st)
                  p') as [m ->]; [ right; discriminate | ].
      cbn [PlayInteractive.prompt_loop].
      rewrite (NavSteps.respond_back _ _ _ _ back Hback).
      cbn [fst snd PlayInteractive.prev_options]. eexists. reflexivity.
    + intros Hp'. apply Hdone.
      pose proof (NavSpec.ready_playing _ _ _ _ R' Hp') as H4.
      simpl in H4. lia.
  - (* the play that raises *)
    intros e auto' lines' H3.
    destruct (NavSteps.turn_unfold app _ (PlayInteractive.PlayRaised e)
                auto' lines' Hwf1)
      as (p' & opts' & shows' & _ & R' & _ & _ & Hturn').
    cbn [PlayInteractive.stack PlayInteractive.autoplaying] in Hturn', R'.
    eexists. apply Hturn'; [ | reflexivity ].
    apply (NavSpec.ready_four _ _ _ _ R'). simpl. lia.
Qed.

Lemma choose_then_back_witness :
  exists opts out1 st1 out2,
    NavSpec.shown NavSpec.demo NavSpec.at_linesets opts
    /\ PlayInteractive.turn NavSpec.demo NavSpec.at_linesets
         PlayInteractive.PlayDone None ["2"]
       = (out1, inr (st1, []))
    /\ List.length (PlayInteractive.stack st1) = 4
    /\ PlayInteractive.turn NavSpec.demo st1 PlayInteractive.PlayDone None
         [" B "]
       = (out2,
          inr (PlayInteractive.mkState false false (Some opts)
                 (PlayInteractive.stack NavSpec.at_linesets), [])).
Proof.
  pose (opts := match snd (PlayInteractive.refresh NavSpec.demo
                             (PlayInteractive.stack NavSpec.at_linesets)
                             false) with
                | inr (_, opts) => opts
                | inl _ => []
                end).
  assert (H1 : NavSpec.shown NavSpec.demo NavSpec.at_linesets opts)
    by (vm_compute; eexists; eexists; reflexivity).
  assert (H2 : List.length (PlayInteractive.stack NavSpec.at_linesets) < 4)
    by (vm_compute; lia).
  assert (H3 : NavSpec.types_number "2" 2) by (vm_compute; reflexivity).
  assert (H4 : (1 <= 2 <= Z.of_nat (List.length opts))%Z)
    by (vm_compute; split; discriminate).
  destruct (choose_then_back NavSpec.demo NavSpec.at_linesets
              (NavDemo.after_reachable _ _) opts "2" 2%Z
              PlayInteractive.PlayDone None H1 H2 H3 H4)
    as (o & out1 & st1 & Ho & Hturn & Hstack & Hback & _).
  assert (H5 : NavSpec.types_command " B " "b") by (vm_compute; reflexivity).
  destruct (Hback " B " PlayInteractive.PlayDone None H5 (fun _ => eq_refl))
    as (out2 & Hturn2).
  exists opts, out1, st1, out2. split; [ exact H1 | ].
  split; [ exact Hturn | ]. split; [ | exact Hturn2 ].
  apply (f_equal (@List.length PlayInteractive.Breadcrumb)) in Hstack.
  exact Hstack.
Defined.

(** C9. Autoplay stops after the last line-set of the list: in a
    reachable state with [autoplaying] on, where the line-set on top is
    the last of its siblings, the turn plays it and, the play having come
    back ([played = PlayDone]), asks nothing, pops the frame and goes on
    at the third level with the frame's list of line-sets as current
    list, [playing] and [autoplaying] off, whether a key is pressed or
    not.  If the play raises, the session ends there with its
    exception. *)
Theorem autoplay_ends_after_last :
  forall app st,
    PlayInteractive.reachable app st ->
    PlayInteractive.autoplaying st = true ->
    forall top below,
      PlayInteractive.stack st = top :: below ->
      PlayInteractive.pos (PlayInteractive.option_ top)
      = List.length (PlayInteractive.prev_options top) - 1 ->
      forall played auto lines,
        exists vo,
          PlayInteractive.data (PlayInteractive.option_ top)
          = PlayInteractive.DVO vo
          /\ (played = PlayInteractive.PlayDone ->
              PlayInteractive.turn app st played auto lines
              = ([ PlayInteractive.OutHeader
                     (PlayInteractive.header_txt (top :: below));
                   PlayInteractive.OutPlay vo ],
                 inr (PlayInteractive.mkState false false
                        (Some (PlayInteractive.prev_options top)) below,
                      lines)))
          /\ (forall e,
                played = PlayInteractive.PlayRaised e ->
                PlayInteractive.turn app st played auto lines
                = ([ PlayInteractive.OutHeader
                       (PlayInteractive.header_txt (top :: below));
                     PlayInteractive.OutPlay vo ],
                   inl (PlayInteractive.Crash e)))
          /\ List.length (top :: below) = 4
          /\ List.length below = 3.
Proof.
  intros app st Hreach Hauto top below Hst Hlast played auto lines.
  pose proof (NavInvariant.reachable_wf app st Hreach) as Hwf.
  destruct (NavSteps.turn_unfold app st played auto lines Hwf)
    as (p & opts & shows & _ & R & Hplay & Hturn & Hcrash).
  pose proof (NavSpec.ready_auto _ _ _ _ R Hauto) as H4.
  rewrite (NavSpec.ready_four _ _ _ _ R H4) in *.
  destruct Hplay as (top' & below' & vo & Hst' & Hd & ->).
  rewrite Hst in Hst'. inversion Hst'; subst top' below'.
  exists vo. split; [ exact Hd | ].
  rewrite Hst in H4. split; [ | split; [ | split; [ exact H4 | ] ] ].
  - intros Hdone. rewrite (Hturn (fun _ => Hdone)), Hauto, Hst.
    unfold PlayInteractive.after_play.
    rewrite Hlast, Nat.ltb_irrefl. reflexivity.
  - intros e He. rewrite (Hcrash e eq_refl He), Hst. reflexivity.
  - simpl in H4. lia.
Qed.

Lemma autoplay_ends_after_last_witness :
  exists vo out opts,
    PlayInteractive.turn NavSpec.demo NavSpec.autoplaying_last
      PlayInteractive.PlayDone None []
    = (out,
       inr (PlayInteractive.mkState false false (Some opts)
              (PlayInteractive.stack NavSpec.at_linesets), []))
    /\ In (PlayInteractive.OutPlay vo) out
    /\ List.length (PlayInteractive.stack NavSpec.at_linesets) = 3.
Proof.
  pose (top := hd (PlayInteractive.mkBreadcrumb
                     (PlayInteractive.mkOption EmptyString (PlayInteractive.DRegistry [])
                        0 EmptyString) [])
                 (PlayInteractive.stack NavSpec.autoplaying_last)).
  pose (below := tl (PlayInteractive.stack NavSpec.autoplaying_last)).
  assert (Ha : PlayInteractive.autoplaying NavSpec.autoplaying_last = true)
    by (vm_compute; reflexivity).
  assert (Hst : PlayInteractive.stack NavSpec.autoplaying_last = top :: below)
    by (vm_compute; reflexivity).
  assert (Hlast : PlayInteractive.pos (PlayInteractive.option_ top)
                  = List.length (PlayInteractive.prev_options top) - 1)
    by (vm_compute; reflexivity).
  destruct (autoplay_ends_after_last NavSpec.demo NavSpec.autoplaying_last
              (NavDemo.after_reachable _ _) Ha top below Hst Hlast
              PlayInteractive.PlayDone None [])
    as (vo & _ & Hturn & _ & _ & H3).
  exists vo. eexists. exists (PlayInteractive.prev_options top).
  split; [ exact (Hturn eq_refl) | ].
  split; [ right; left; reflexivity | exact H3 ].
Defined.

(** C10. With a line-set selected (fourth level), a number is accepted
    too, whenever the prompt is reached: the line-set has played to its
    end ([played = PlayDone]; a play that raises ends the session before
    anything is read), and autoplay is off, or a key was pressed in time
    while siblings remained.  Its range is that of the sibling list
    stored on the top frame: a number [k] from 1 to the length of that
    list puts the [k]-th sibling on the top frame, the stack keeps its
    four frames, and the next turn calls [play] on that sibling, whatever
    comes of the call; any other number is refused with the message
    naming that range, and the prompt waits for another line. *)
Theorem number_at_a_line_set :
  forall app st,
    PlayInteractive.reachable app st ->
    forall top below,
      PlayInteractive.stack st = top :: below ->
      List.length (top :: below) = 4 ->
      forall line k played auto,
        played = PlayInteractive.PlayDone ->
        (PlayInteractive.autoplaying st = true ->
         auto <> None
         /\ PlayInteractive.pos (PlayInteractive.option_ top)
            < List.length (PlayInteractive.prev_options top) - 1) ->
        NavSpec.types_number line k ->
        let siblings := PlayInteractive.prev_options top in
        ((1 <= k <= Z.of_nat (List.length siblings))%Z ->
         exists o vo out,
           nth_error siblings (Z.to_nat (k - 1)) = Some o
           /\ PlayInteractive.data o = PlayInteractive.DVO vo
           /\ PlayInteractive.turn app st played auto [line]
              = (out,
                 inr (PlayInteractive.mkState true false (Some [])
                        (PlayInteractive.mkBreadcrumb o siblings :: below),
                      []))
           /\ forall played' auto' lines',
                exists out',
                  fst (PlayInteractive.turn app
                         (PlayInteractive.mkState true false (Some [])
                            (PlayInteractive.mkBreadcrumb o siblings :: below))
                         played' auto' lines')
                  = PlayInteractive.OutHeader
                      (PlayInteractive.header_txt
                         (PlayInteractive.mkBreadcrumb o siblings :: below))
                    :: PlayInteractive.OutPlay vo :: out')
        /\ ((k < 1 \/ Z.of_nat (List.length siblings) < k)%Z ->
            exists out,
              PlayInteractive.turn app st played auto [line]
              = (out, inl PlayInteractive.Waiting)
              /\ In (PlayInteractive.OutError
                       ("Number must be from 1 to "
                        ++ Py.str (List.length siblings))) out)
        /\ (forall e lines',
              exists out,
                PlayInteractive.turn app st (PlayInteractive.PlayRaised e)
                  auto lines'
                = (out, inl (PlayInteractive.Crash e))).
Proof.
  intros app st Hreach top below Hst H4 line k played auto Hdone Hauto Hk
    siblings.
  subst siblings.
  pose proof (NavInvariant.reachable_wf app st Hreach) as Hwf.
  destruct (NavSteps.turn_unfold app st played auto [line] Hwf)
    as (p & opts & shows & _ & R & Hplay & Hturn & _).
  specialize (Hturn (fun _ => Hdone)).
  rewrite Hst in Hturn, R.
  (* at the fourth level the turn shows an empty list and plays *)
  assert (Hopts : opts = []).
  { apply NavFacts.Forall_level_5.
    pose proof (NavSpec.ready_options _ _ _ _ R) as H.
    rewrite H4 in H. exact H. }
  subst opts.
  assert (Hp : p = true) by (apply (NavSpec.ready_four _ _ _ _ R H4)).
  subst p. clear Hplay.
  assert (Hnonempty : 0 < List.length (PlayInteractive.prev_options top)).
  { destruct (NavSpec.ready_frames _ _ _ _ R) as (_ & Hin & _).
    destruct (PlayInteractive.prev_options top);
      [ destruct Hin | simpl; lia ]. }
  destruct (NavSteps.after_play_asks true (PlayInteractive.autoplaying st)
              [] top below auto [line] Hauto) as [pre Hafter].
  rewrite Hafter in Hturn. clear Hafter.
  destruct (NavSteps.ask_number_at_four top below line k H4 Hnonempty Hk)
    as (m & Hm & Hin & Hout).
  split; [ | split ]; cycle 2.
  - (* the play that raises *)
    intros e lines'.
    destruct (NavSteps.turn_unfold app st (PlayInteractive.PlayRaised e)
                auto lines' Hwf)
      as (p' & opts' & shows' & _ & R' & _ & _ & Hcrash).
    eexists. apply Hcrash; [ | reflexivity ].
    apply (NavSpec.ready_four _ _ _ _ R'). rewrite Hst. exact H4.
  - (* a number in the range *)
    intros Hrange. destruct (Hin Hrange) as (o & Ho & Hask).
    rewrite Hask in Hturn. cbn [fst snd] in Hturn.
    assert (Hlev : NavSpec.at_level 4 o).
    { destruct (NavSpec.ready_frames _ _ _ _ R) as (_ & _ & Hall & _).
      simpl in H4. assert (E : List.length below = 3) by lia.
      rewrite E in Hall.
      apply (NavFacts.Forall_nth_error _ _ _ _ Hall Ho). }
    unfold NavSpec.at_level in Hlev.
    destruct (PlayInteractive.data o) as [| | | vo] eqn:Hd; try discriminate.
    exists o, vo. eexists. split; [ exact Ho | ]. split; [ exact Hd | ].
    split; [ exact Hturn | ].
    intros played' auto' lines'.
    pose proof (NavInvariant.turn_wf _ _ _ _ _ _ _ _ Hwf Hturn) as Hwf1.
    destruct (NavSteps.turn_unfold app _ played' auto' lines' Hwf1)
      as (p1 & opts1 & shows1 & _ & R1 & Hplay1 & Hturn1 & Hcrash1).
    cbn [PlayInteractive.stack PlayInteractive.autoplaying] in *.
    assert (Hp1 : p1 = true).
    { apply (NavSpec.ready_four _ _ _ _ R1). simpl in *. lia. }
    subst p1. destruct Hplay1 as (top1 & below1 & vo1 & Hst1 & Hd1 & ->).
    inversion Hst1; subst top1 below1.
    cbn [PlayInteractive.option_] in Hd1. rewrite Hd in Hd1.
    inversion Hd1; subst vo1.
    destruct played' as [| e].
    + rewrite (Hturn1 (fun _ => eq_refl)). cbn [fst List.app].
      eexists. reflexivity.
    + rewrite (Hcrash1 e eq_refl eq_refl). cbn [fst].
      exists []. reflexivity.
  - (* a number out of the range *)
    intros Hrange. rewrite (Hout Hrange) in Hturn. cbn [fst snd] in Hturn.
    eexists. split; [ exact Hturn | ].
    right. apply in_or_app. right. apply in_or_app. right.
    right. left. reflexivity.
Qed.

Lemma number_at_a_line_set_witness :
  (exists out st1,
     PlayInteractive.turn NavSpec.demo NavSpec.at_first_lineset
       PlayInteractive.PlayDone None ["2"]
     = (out, inr (st1, []))
     /\ List.length (PlayInteractive.stack st1) = 4)
  /\ (exists out,
        PlayInteractive.turn NavSpec.demo NavSpec.at_first_lineset
          PlayInteractive.PlayDone None ["3"]
        = (out, inl PlayInteractive.Waiting)
        /\ In (PlayInteractive.OutError "Number must be from 1 to 2") out).
Proof.
  pose (top := hd (PlayInteractive.mkBreadcrumb
                     (PlayInteractive.mkOption EmptyString (PlayInteractive.DRegistry [])
                        0 EmptyString) [])
                 (PlayInteractive.stack NavSpec.at_first_lineset)).
  pose (below := tl (PlayInteractive.stack NavSpec.at_first_lineset)).
  assert (Hst : PlayInteractive.stack NavSpec.at_first_lineset = top :: below)
    by (vm_compute; reflexivity).
  assert (H4 : List.length (top :: below) = 4) by (vm_compute; reflexivity).
  assert (Hauto : PlayInteractive.autoplaying NavSpec.at_first_lineset = true ->
                  @None string <> None
                  /\ PlayInteractive.pos (PlayInteractive.option_ top)
                     < List.length (PlayInteractive.prev_options top) - 1)
    by (vm_compute; discriminate).
  split.
  - assert (Hk : NavSpec.types_number "2" 2) by (vm_compute; reflexivity).
    destruct (number_at_a_line_set NavSpec.demo NavSpec.at_first_lineset
                (NavDemo.after_reachable _ _) top below
                Hst H4 "2" 2%Z PlayInteractive.PlayDone None
                eq_refl Hauto Hk)
      as (Hin & _ & _).
    assert (Hr : (1 <= 2 <= Z.of_nat
                    (List.length (PlayInteractive.prev_options top)))%Z)
      by (vm_compute; split; discriminate).
    destruct (Hin Hr) as (o & vo & out & _ & _ & Hturn & _).
    eexists out, _. split; [ exact Hturn | reflexivity ].
  - assert (Hk : NavSpec.types_number "3" 3) by (vm_compute; reflexivity).
    destruct (number_at_a_line_set NavSpec.demo NavSpec.at_first_lineset
                (NavDemo.after_reachable _ _) top below
                Hst H4 "3" 3%Z PlayInteractive.PlayDone None
                eq_refl Hauto Hk)
      as (_ & Hout & _).
    assert (Hr : (3 < 1 \/ Z.of_nat
                    (List.length (PlayInteractive.prev_options top)) < 3)%Z)
      by (right; vm_compute; reflexivity).
    destruct (Hout Hr) as (out & Hturn & Hin).
    exists out. split; [ exact Hturn | exact Hin ].
Defined.

(** ** The two patterns *)

Module TextFacts.
Import Py HDialogue Ogg SpecMore.

Lemma length_append (a b : string) :
  String.length (a ++ b) = String.length a + String.length b.
Proof. induction a as [| c a IH]; simpl; [ reflexivity | now rewrite IH ]. Qed.

Lemma append_nil_r (a : string) : (a ++ EmptyString)%string = a.
Proof. induction a as [| c a IH]; simpl; [ reflexivity | now rewrite IH ]. Qed.

Lemma append_assoc (a b c : string) :
  ((a ++ b) ++ c)%string = (a ++ b ++ c)%string.
Proof. induction a as [| x a IH]; simpl; [ reflexivity | now rewrite IH ]. Qed.

Lemma startswith_append s p :
  startswith s p = true -> s = (p ++ skip (String.length p) s)%string.
Proof.
  revert s. induction p as [| c p IH]; intros s H; simpl in *.
  - destruct s; reflexivity.
  - destruct s as [| d s]; [ discriminate | ].
    apply andb_true_iff in H. destruct H as [Hc Hs].
    apply Ascii.eqb_eq in Hc. subst d. f_equal. apply IH. exact Hs.
Qed.

Lemma startswith_app p t : startswith (p ++ t) p = true.
Proof.
  induction p as [| c p IH]; simpl; [ destruct t; reflexivity | ].
  rewrite Ascii.eqb_refl. exact IH.
Qed.

Lemma skip_app p t : skip (String.length p) (p ++ t) = t.
Proof.
  induction p as [| c p IH]; simpl; [ destruct t; reflexivity | exact IH ].
Qed.

Lemma nonspace_run_sound s t tail :
  nonspace_run s = (t, tail) ->
  s = (t ++ tail)%string /\ all_nonspace t = true /\ stops tail.
Proof.
  revert t tail. induction s as [| c s IH]; intros t tail H; simpl in H.
  - inversion H; subst. simpl. auto.
  - destruct (isspace c) eqn:E.
    + inversion H; subst. simpl. auto.
    + destruct (nonspace_run s) as [t' tail'] eqn:R. inversion H; subst.
      destruct (IH _ _ eq_refl) as (-> & Hn & Hs).
      simpl. rewrite E. auto.
Qed.

Lemma nonspace_run_complete t tail :
  all_nonspace t = true -> stops tail ->
  nonspace_run (t ++ tail) = (t, tail).
Proof.
  intros Ht Hs. induction t as [| c t IH]; simpl in *.
  - destruct tail as [| d tail]; [ reflexivity | ].
    simpl in *. rewrite Hs. reflexivity.
  - apply andb_true_iff in Ht. destruct Ht as [Hc Ht].
    apply negb_true_iff in Hc. rewrite Hc, (IH Ht). reflexivity.
Qed.

Lemma digit_run_sound s d tail :
  digit_run s = (d, tail) ->
  s = (d ++ tail)%string /\ all_digits d = true
  /\ match tail with
     | EmptyString => True
     | String c _ => Spec.is_digit c = false
     end.
Proof.
  revert d tail. induction s as [| c s IH]; intros d tail H; simpl in H.
  - inversion H; subst. simpl. auto.
  - destruct (Spec.is_digit c) eqn:E.
    + destruct (digit_run s) as [d' tail'] eqn:R. inversion H; subst.
      destruct (IH _ _ eq_refl) as (-> & Hn & Hs).
      simpl. rewrite E. auto.
    + inversion H; subst. simpl. auto.
Qed.

Lemma digit_run_complete d c tail :
  all_digits d = true -> Spec.is_digit c = false ->
  digit_run (d ++ String c tail) = (d, String c tail).
Proof.
  intros Hd Hc. induction d as [| x d IH]; simpl in *.
  - rewrite Hc. reflexivity.
  - apply andb_true_iff in Hd. destruct Hd as [Hx Hd].
    rewrite Hx, (IH Hd). reflexivity.
Qed.

Lemma strip_suffix_eq suf s :
  strip_suffix suf s =
  if String.eqb s suf then Some EmptyString
  else match s with
       | EmptyString => None
       | String c s' => option_map (String c) (strip_suffix suf s')
       end.
Proof. destruct s; reflexivity. Qed.

Lemma strip_suffix_sound suf s v :
  strip_suffix suf s = Some v -> s = (v ++ suf)%string.
Proof.
  revert v. induction s as [| c s IH]; intros v H;
    rewrite strip_suffix_eq in H;
    match type of H with context [String.eqb ?a ?b] =>
      destruct (String.eqb a b) eqn:E end.
  - apply String.eqb_eq in E. inversion H; subst. reflexivity.
  - discriminate.
  - apply String.eqb_eq in E. inversion H; subst. reflexivity.
  - destruct (strip_suffix suf s) as [v' |] eqn:R; [ | discriminate ].
    inversion H; subst. simpl. f_equal. apply IH. reflexivity.
Qed.

Lemma strip_suffix_complete suf v :
  strip_suffix suf (v ++ suf) = Some v.
Proof.
  induction v as [| c v IH]; rewrite strip_suffix_eq.
  - simpl. rewrite String.eqb_refl. reflexivity.
  - destruct (String.eqb (String c v ++ suf) suf) eqn:E.
    + apply String.eqb_eq in E.
      apply (f_equal String.length) in E. simpl in E.
      rewrite length_append in E. lia.
    + simpl. rewrite IH. reflexivity.
Qed.

Lemma last_char_app a b :
  b <> EmptyString -> last_char (a ++ b) = last_char b.
Proof.
  intros Hb. induction a as [| c a IH]; simpl; [ reflexivity | ].
  destruct (a ++ b)%string eqn:E; [ | exact IH ].
  destruct a; simpl in E; [ congruence | discriminate ].
Qed.

End TextFacts.

(** X1. [vo_re] accepts exactly [/VO/] followed by a word, with or
    without one newline after it, and the group [cue] is that word. *)
Theorem vo_re_accepts_a_word s id :
  HDialogue.vo_re_match s = Some id <->
  SpecMore.word id
  /\ (s = ("/VO/" ++ id)%string
      \/ s = ("/VO/" ++ id ++ HDialogue.newline)%string).
Proof.
  unfold HDialogue.vo_re_match, SpecMore.word. split.
  - destruct (Py.startswith s "/VO/") eqn:P; [ | discriminate ].
    apply TextFacts.startswith_append in P. simpl String.length in P.
    destruct (HDialogue.nonspace_run (HDialogue.skip 4 s)) as [t tail] eqn:R.
    apply TextFacts.nonspace_run_sound in R. destruct R as (R & Hn & _).
    destruct t as [| c t]; [ discriminate | ].
    destruct (String.eqb tail EmptyString) eqn:E1; cbn [orb].
    + apply String.eqb_eq in E1. subst tail. intros H. injection H as <-.
      rewrite TextFacts.append_nil_r in R. rewrite R in P.
      split; [ split; [ discriminate | exact Hn ] | left; exact P ].
    + destruct (String.eqb tail HDialogue.newline) eqn:E2; [ | discriminate ].
      apply String.eqb_eq in E2. subst tail. intros H. injection H as <-.
      rewrite R in P.
      split; [ split; [ discriminate | exact Hn ] | right; exact P ].
  - intros [[Hne Hn] [-> | ->]];
      rewrite (TextFacts.startswith_app "/VO/");
      rewrite (TextFacts.skip_app "/VO/").
    + rewrite <- (TextFacts.append_nil_r id) at 1.
      rewrite (TextFacts.nonspace_run_complete id EmptyString Hn I).
      destruct id; [ congruence | reflexivity ].
    + rewrite (TextFacts.nonspace_run_complete id HDialogue.newline Hn eq_refl).
      destruct id; [ congruence | reflexivity ].
Qed.

(** X2. [ogg_re] accepts exactly the names made of one or more digits, a
    dot, a word and [.ogg], with or without one newline after it; the
    groups are the digits and the word. *)
Theorem ogg_re_accepts_numbered_words filename num vo :
  Ogg.ogg_re_match filename = Some (num, vo) <->
  num <> EmptyString /\ SpecMore.all_digits num = true /\ SpecMore.word vo
  /\ (filename = (num ++ "." ++ vo ++ ".ogg")%string
      \/ filename = (num ++ "." ++ vo ++ ".ogg" ++ HDialogue.newline)%string).
Proof.
  unfold Ogg.ogg_re_match, SpecMore.word. split.
  - destruct (Ogg.digit_run filename) as [d rest] eqn:R.
    apply TextFacts.digit_run_sound in R. destruct R as (-> & Hd & _).
    destruct d as [| c d]; [ discriminate | ].
    destruct rest as [| x body]; [ discriminate | ].
    destruct (Ascii.eqb x ".") eqn:Ex;
      [ apply Ascii.eqb_eq in Ex; subst x
      | destruct x as [[] [] [] [] [] [] [] []]; try discriminate ].
    destruct (Ogg.strip_suffix ".ogg" body) as [v |] eqn:S1.
    + apply TextFacts.strip_suffix_sound in S1. subst body.
      destruct v as [| y v]; [ discriminate | ].
      destruct (Ogg.all_nonspace (String y v)) eqn:Hn; [ | discriminate ].
      intros H. injection H as <- <-.
      repeat split; try discriminate; auto.
    + destruct (Ogg.strip_suffix (".ogg" ++ HDialogue.newline) body)
        as [v |] eqn:S2; [ | discriminate ].
      apply TextFacts.strip_suffix_sound in S2. subst body.
      destruct v as [| y v]; [ discriminate | ].
      destruct (Ogg.all_nonspace (String y v)) eqn:Hn; [ | discriminate ].
      intros H. injection H as <- <-.
      repeat split; try discriminate; auto.
  - intros (Hne & Hd & [Hv Hn] & [-> | ->]);
      change ("." ++ ?r)%string with (String "." r).
    + rewrite (TextFacts.digit_run_complete num "." _ Hd eq_refl).
      destruct num as [| c d]; [ congruence | ].
      rewrite TextFacts.strip_suffix_complete.
      destruct vo; [ congruence | ]. rewrite Hn. reflexivity.
    + rewrite (TextFacts.digit_run_complete num "." _ Hd eq_refl).
      destruct num as [| c d]; [ congruence | ].
      destruct (Ogg.strip_suffix ".ogg" (vo ++ ".ogg" ++ HDialogue.newline))
        as [v |] eqn:S1.
      * apply TextFacts.strip_suffix_sound in S1.
        apply (f_equal SpecMore.last_char) in S1.
        rewrite !TextFacts.last_char_app in S1 by discriminate.
        discriminate.
      * rewrite (TextFacts.strip_suffix_complete (".ogg" ++ HDialogue.newline)).
        destruct vo; [ congruence | ]. rewrite Hn. reflexivity.
Qed.

Module OggFacts.
Import Py HDialogue Ogg SpecMore.

Lemma find_app {A} (p : A -> bool) (a b : list A) :
  find p (a ++ b) = match find p a with
                    | Some x => Some x
                    | None => find p b
                    end.
Proof.
  induction a as [| x a IH]; simpl; [ reflexivity | ].
  destruct (p x); [ reflexivity | exact IH ].
Qed.

Lemma library_lookup base listing vo : forall oggs,
  dict_get (fold_left (fun oggs filename =>
               match ogg_re_match filename with
               | Some (_, vo) => dict_set oggs vo (path_join base filename)
               | None => oggs
               end) listing oggs) vo
  = match find (names vo) (rev listing) with
    | Some filename => Some (path_join base filename)
    | None => dict_get oggs vo
    end.
Proof.
  induction listing as [| f listing IH]; intros oggs; simpl; [ reflexivity | ].
  rewrite IH, find_app. destruct (find (names vo) (rev listing)); [ reflexivity | ].
  simpl. unfold names. destruct (ogg_re_match f) as [[n v] |]; [ | reflexivity ].
  rewrite BankFacts.dict_get_set. destruct (String.eqb v vo); reflexivity.
Qed.

End OggFacts.

(** X3. The library maps a name to the path of the last file of the
    listing whose name gives it, and knows no other name. *)
Theorem library_keeps_last_file base_path listing vo :
  Py.dict_get (Ogg.OggLibrary_init base_path listing) vo
  = option_map (Ogg.path_join base_path)
               (find (SpecMore.names vo) (rev listing)).
Proof.
  unfold Ogg.OggLibrary_init. rewrite OggFacts.library_lookup.
  destruct (find (SpecMore.names vo) (rev listing)); reflexivity.
Qed.

(** ** Playback *)

Module PlayerFacts.
Import Py HDialogue Player.

Lemma index_absent x l : ~ In x l -> index x l = None.
Proof.
  induction l as [| y l IH]; intros H; simpl; [ reflexivity | ].
  destruct (String.eqb y x) eqn:E.
  - apply String.eqb_eq in E. subst y. exfalso. apply H. left. reflexivity.
  - rewrite IH; [ reflexivity | ]. intros Hx. apply H. right. exact Hx.
Qed.

Lemma index_first x pre post :
  ~ In x pre -> index x (pre ++ x :: post) = Some (List.length pre).
Proof.
  induction pre as [| y pre IH]; intros H; simpl.
  - rewrite String.eqb_refl. reflexivity.
  - destruct (String.eqb y x) eqn:E.
    + apply String.eqb_eq in E. subst y. exfalso. apply H. left. reflexivity.
    + rewrite IH; [ reflexivity | ]. intros Hx. apply H. right. exact Hx.
Qed.

Lemma set_item_middle pre x post v :
  set_item (pre ++ x :: post) (List.length pre) v = pre ++ v :: post.
Proof. induction pre as [| y pre IH]; simpl; [ reflexivity | now rewrite IH ]. Qed.

(** Reading the list a second time gives the same list and changes
    nothing. *)
Lemma media_player_list_again config :
  media_player_list (snd (media_player_list config))
  = media_player_list config.
Proof.
  unfold media_player_list.
  destruct (_media_player_list config) as [| w ws] eqn:E; simpl.
  - destruct (split (media_player config)); reflexivity.
  - rewrite E. reflexivity.
Qed.

Lemma media_player_list_same config :
  fst (media_player_list (snd (media_player_list config)))
  = fst (media_player_list config).
Proof. rewrite media_player_list_again. reflexivity. Qed.

(** What one cue adds to the trace. *)
Lemma play_cue_runs file_map config c o r cmd :
  play_cue file_map config c = (o, r) -> In (Run cmd) o ->
  exists path,
    cue c <> EmptyString /\ dict_get file_map (cue c) = Some path
    /\ cmd = command_for (fst (media_player_list config)) path.
Proof.
  unfold play_cue. destruct (text_lines (text c)) as [e | lines] eqn:T.
  - intros H. inversion H; subst. simpl. intros [Hx | []]. discriminate.
  - assert (Hl : ~ In (Run cmd) lines).
    { destruct (text c) as [[] |]; simpl in T; inversion T; subst;
        simpl; intros H; try tauto. destruct H as [H | []]. discriminate. }
    destruct (String.eqb (cue c) EmptyString) eqn:E.
    + intros H. inversion H; subst. simpl.
      intros [Hx | Hx]; [ discriminate | ].
      apply in_app_or in Hx. destruct Hx as [Hx | Hx]; [ tauto | ].
      apply in_app_or in Hx. destruct Hx as [Hx | Hx].
      * destruct (py_gt0 (delay c)); simpl in Hx; [ | tauto ].
        destruct Hx as [Hx | []]. discriminate.
      * simpl in Hx. destruct Hx as [Hx | []]. discriminate.
    + apply String.eqb_neq in E.
      destruct (dict_get file_map (cue c)) as [path |] eqn:D.
      * destruct (media_player_list config) as [command config'] eqn:L.
        intros H. inversion H; subst. simpl.
        intros [Hx | Hx]; [ discriminate | ].
        apply in_app_or in Hx. destruct Hx as [Hx | Hx]; [ tauto | ].
        apply in_app_or in Hx. destruct Hx as [Hx | Hx].
        { destruct (py_gt0 (delay c)); simpl in Hx; [ | tauto ].
          destruct Hx as [Hx | []]. discriminate. }
        simpl in Hx. destruct Hx as [Hx | [Hx | []]]; [ | discriminate ].
        inversion Hx; subst. exists path. auto.
      * intros H. inversion H; subst. simpl.
        intros [Hx | Hx]; [ discriminate | ].
        apply in_app_or in Hx. destruct Hx as [Hx | Hx]; [ tauto | ].
        apply in_app_or in Hx. destruct Hx as [Hx | Hx].
        { destruct (py_gt0 (delay c)); simpl in Hx; [ | tauto ].
          destruct Hx as [Hx | []]. discriminate. }
        simpl in Hx. destruct Hx as [Hx | [Hx | []]]; discriminate.
Qed.

(** The configuration a cue leaves behind reads the same list. *)
Lemma play_cue_config file_map config c o config' :
  play_cue file_map config c = (o, inr config') ->
  fst (media_player_list config') = fst (media_player_list config).
Proof.
  unfold play_cue. destruct (text_lines (text c)) as [e | lines];
    [ discriminate | ].
  destruct (String.eqb (cue c) EmptyString).
  - intros H. inversion H; subst. reflexivity.
  - destruct (dict_get file_map (cue c)).
    + destruct (media_player_list config) as [command c1] eqn:L.
      intros H. inversion H; subst.
      pose proof (media_player_list_same config) as S.
      rewrite L in S. simpl in S. simpl. exact S.
    + intros H. inversion H; subst. reflexivity.
Qed.

Lemma play_cues_runs file_map cs : forall config o r cmd,
  play_cues file_map config cs = (o, r) -> In (Run cmd) o ->
  exists c path,
    In c cs /\ cue c <> EmptyString /\ dict_get file_map (cue c) = Some path
    /\ cmd = command_for (fst (media_player_list config)) path.
Proof.
  induction cs as [| c cs IH]; intros config o r cmd; simpl.
  - intros H. inversion H; subst. intros [].
  - destruct (play_cue file_map config c) as [o1 [e | config1]] eqn:P1.
    + intros H. inversion H; subst. intros Hx.
      destruct (play_cue_runs _ _ _ _ _ _ P1 Hx) as (path & ? & ? & ?).
      exists c, path. auto.
    + destruct (play_cues file_map config1 cs) as [o2 r2] eqn:P2.
      intros H. inversion H; subst. intros Hx.
      apply in_app_or in Hx. destruct Hx as [Hx | Hx].
      * destruct (play_cue_runs _ _ _ _ _ _ P1 Hx) as (path & ? & ? & ?).
        exists c, path. auto.
      * destruct (IH _ _ _ _ P2 Hx) as (c' & path & ? & ? & ? & ->).
        exists c', path. rewrite (play_cue_config _ _ _ _ _ P1). auto.
Qed.

(** A cue whose delay is the integer 0 is played without waiting. *)
Lemma play_cue_at_once file_map config c o r :
  delay c = PInt 0 -> play_cue file_map config c = (o, r) ->
  (forall d, ~ In (Sleep d) o)
  /\ (forall config', r = inr config' -> In Blank o).
Proof.
  intros Hd. unfold play_cue. rewrite Hd. cbn [py_gt0 pynum_sign Z.compare].
  destruct (text_lines (text c)) as [e | lines] eqn:T.
  - intros H. inversion H; subst. split; [ | discriminate ].
    intros d [Hx | []]. discriminate.
  - assert (Hl : forall d, ~ In (Sleep d) lines).
    { intros d. destruct (text c) as [[] |]; simpl in T; inversion T; subst;
        simpl; intros H; try tauto. destruct H as [H | []]. discriminate. }
    match goal with |- (let (_, _) := ?X in _) = _ -> _ =>
      assert (Ha : forall d, ~ In (Sleep d) (fst X));
      [ | destruct X as [audio config1] ] end.
    { intros d. destruct (String.eqb (cue c) EmptyString); [ intros [] | ].
      destruct (dict_get file_map (cue c)).
      - destruct (media_player_list config). simpl.
        intros [Hx | []]. discriminate.
      - simpl. intros [Hx | []]. discriminate. }
    intros H. inversion H; subst. split.
    + intros d [Hx | Hx]; [ discriminate | ].
      apply in_app_or in Hx. destruct Hx as [Hx | Hx]; [ exact (Hl d Hx) | ].
      simpl in Hx. apply in_app_or in Hx.
      destruct Hx as [Hx | [Hx | []]]; [ exact (Ha d Hx) | discriminate ].
    + intros _ _. right. apply in_or_app. right. simpl.
      apply in_or_app. right. left. reflexivity.
Qed.

(** A trace that starts with a part without [Sleep] has its first
    [Sleep] after that part. *)
Lemma sleep_comes_later (a b pre post : list played) d :
  (forall d', ~ In (Sleep d') a) ->
  a ++ b = pre ++ Sleep d :: post ->
  exists pre', pre = a ++ pre'.
Proof.
  revert pre. induction a as [| x a IH]; intros pre Ha H.
  - exists pre. reflexivity.
  - destruct pre as [| y pre]; simpl in H.
    + inversion H; subst. exfalso. apply (Ha d). left. reflexivity.
    + inversion H; subst.
      destruct (IH pre) as [pre' ->]; [ | assumption | ].
      * intros d' Hx. apply (Ha d'). right. exact Hx.
      * exists pre'. reflexivity.
Qed.

End PlayerFacts.

(** X4. The player's command line has the file in place of the first
    [{}] argument, the other arguments as they are; without a [{}] the
    file comes last. *)
Theorem command_places_the_file pre post path :
  ~ In "{}" pre ->
  Player.command_for (pre ++ "{}" :: post) path = pre ++ path :: post
  /\ Player.command_for pre path = pre ++ [path].
Proof.
  intros H. unfold Player.command_for.
  rewrite (PlayerFacts.index_first "{}" pre post H).
  rewrite (PlayerFacts.index_absent "{}" pre H).
  split; [ apply PlayerFacts.set_item_middle | reflexivity ].
Qed.

Lemma command_places_the_file_witness :
  Player.command_for ["mplayer"; "{}"; "-quiet"; "{}"] "1.A.ogg"
  = ["mplayer"; "1.A.ogg"; "-quiet"; "{}"]
  /\ Player.command_for ["mplayer"] "1.A.ogg" = ["mplayer"; "1.A.ogg"].
Proof.
  apply (command_places_the_file ["mplayer"] ["-quiet"; "{}"] "1.A.ogg").
  simpl. intros [H | []]. discriminate.
Defined.

(** X5. Every command that playing a line-set runs is the configured
    player, as the words of [media_player] read at the start, with the
    library's file for one of the line-set's cues. *)
Theorem play_runs_the_configured_player file_map config vo do_prompt cmd :
  In (Player.Run cmd) (fst (Player.play file_map config vo do_prompt)) ->
  exists c path,
    In c (HDialogue.cues vo) /\ HDialogue.cue c <> EmptyString
    /\ Py.dict_get file_map (HDialogue.cue c) = Some path
    /\ cmd = Player.command_for (fst (Player.media_player_list config)) path.
Proof.
  unfold Player.play.
  destruct (Player.play_cues file_map config (HDialogue.cues vo))
    as [o r] eqn:P.
  intros H.
  assert (Ho : In (Player.Run cmd) o).
  { destruct r as [e | config']; simpl in H.
    - destruct H as [H | H]; [ | exact H ].
      destruct (HDialogue.label vo) as [[] |]; discriminate.
    - destruct H as [H | H];
        [ destruct (HDialogue.label vo) as [[] |]; discriminate | ].
      apply in_app_or in H. destruct H as [H | H]; [ exact H | ].
      destruct do_prompt; simpl in H; [ | tauto ].
      destruct H as [H | [H | []]]; discriminate. }
  exact (PlayerFacts.play_cues_runs _ _ _ _ _ _ P Ho).
Qed.

Lemma play_runs_the_configured_player_witness :
  exists c path,
    In c (HDialogue.cues SpecMore.greet_bye_vo)
    /\ HDialogue.cue c <> EmptyString
    /\ Py.dict_get SpecMore.one_file (HDialogue.cue c) = Some path
    /\ ["mplayer"; "-really-quiet"; "/ogg/12.Greet.ogg"]
       = Player.command_for
           (fst (Player.media_player_list SpecMore.mplayer)) path.
Proof.
  apply (play_runs_the_configured_player SpecMore.one_file SpecMore.mplayer
           SpecMore.greet_bye_vo false).
  vm_compute. repeat (first [ left; reflexivity | right ]).
Defined.

(** X6. Playing a line-set that was built never waits before its first
    cue is over: in the trace, every [time.sleep] comes after the empty
    line that ends a cue. *)
Theorem built_line_set_starts_at_once
    float_of_str depth data label vo file_map config do_prompt pre d post :
  Py.result (HDialogue.VO_init float_of_str depth data label) = Py.Ok vo ->
  fst (Player.play file_map config vo do_prompt)
  = pre ++ Player.Sleep d :: post ->
  In Player.Blank pre.
Proof.
  intros Hb.
  destruct (HDialogue.VO_init float_of_str depth data label) as [out r] eqn:B.
  simpl in Hb. subst r.
  destruct (VOFacts.VO_init_finish _ _ _ _ _ _ B) as (first & rest & ->).
  unfold Player.play. cbn [HDialogue.cues HDialogue.label Player.play_cues].
  set (title := match label with
                | Some (String _ _ as l) => Player.Title l
                | _ => Player.NoLabel
                end).
  assert (Ht : forall d', title <> Player.Sleep d').
  { intros d'. subst title. destruct label as [[] |]; discriminate. }
  destruct (Player.play_cue file_map config
              (HDialogue.set_delay first (Py.PInt 0))) as [o1 r1] eqn:P1.
  destruct (PlayerFacts.play_cue_at_once file_map config
              (HDialogue.set_delay first (Py.PInt 0)) o1 r1 eq_refl P1)
    as [Hs Hk].
  assert (Ha : forall d', ~ In (Player.Sleep d') (title :: o1)).
  { intros d' [Hx | Hx]; [ exact (Ht d' Hx) | exact (Hs d' Hx) ]. }
  destruct r1 as [e | config1].
  - simpl. intros H. exfalso. apply (Ha d).
    rewrite H. apply in_or_app. right. left. reflexivity.
  - destruct (Player.play_cues file_map config1 rest) as [o2 r2].
    assert (Hb : In Player.Blank (title :: o1)).
    { right. exact (Hk config1 eq_refl). }
    assert (forall tail,
              title :: (o1 ++ o2) ++ tail = pre ++ Player.Sleep d :: post ->
              In Player.Blank pre) as Hgo.
    { intros tail H.
      destruct (PlayerFacts.sleep_comes_later (title :: o1) (o2 ++ tail)
                  pre post d Ha) as [pre' ->].
      - simpl. rewrite <- H, <- app_assoc. reflexivity.
      - apply in_or_app. left. exact Hb. }
    destruct r2 as [e | config2]; simpl.
    + intros H. apply (Hgo []). rewrite app_nil_r. exact H.
    + apply Hgo.
Qed.

Lemma built_line_set_starts_at_once_witness :
  In Player.Blank
     (firstn 5 (fst (Player.play SpecMore.one_file SpecMore.mplayer
                       SpecMore.greet_bye_vo false))).
Proof.
  apply (built_line_set_starts_at_once Spec.no_float_of_str 2
           Spec.greet_bye (Some "Greeting") SpecMore.greet_bye_vo
           SpecMore.one_file SpecMore.mplayer false _ (Py.PFloat Spec.one)
           [Player.NotFound "Bye"; Player.Blank]).
  - vm_compute. reflexivity.
  - vm_compute. reflexivity.
Defined.

(** ** Banks *)

Module BankMore.
Import Py Py.Notations HDialogue Spec SpecMore PyFacts.

Lemma dict_in_set {V} (kvs : list (string * V)) k v k' :
  dict_in k' (dict_set kvs k v) = String.eqb k k' || dict_in k' kvs.
Proof.
  unfold dict_in. rewrite BankFacts.dict_get_set.
  destruct (String.eqb k k'); reflexivity.
Qed.

Section WithBuild.
Variable build : json -> option string -> M VO.

Lemma add_lineset_filed st item out st' :
add_lineset build st item = (out, Ok st') -> filed build st st'.
Proof.
destruct st as [obj c], item as [l x]. unfold add_lineset.
destruct (build x (Some l)) as [ob [vo | e]] eqn:B; cbn [bind].
- assert (Hb : result (build x (Some l)) = Ok vo) by (rewrite B; reflexivity).
  destruct (dict_in l c) eqn:E.
  + destruct (negb (String.eqb l "HermesPostEnding01")); simpl;
      intros H; inversion H; subst;
      apply (filed_more build obj c l x vo _ Hb); rewrite E;
      apply filed_none.
  + simpl. intros H; inversion H; subst.
    apply (filed_more build obj c l x vo _ Hb); rewrite E.
    apply filed_none.
- simpl. destruct (exn_eqb e NoCuesException); simpl;
    intros H; inversion H; subst. apply filed_none.
Qed.

Lemma filed_trans a b c :
filed build a b -> filed build b c -> filed build a c.
Proof.
induction 1 as [| obj c0 l x vo st' Hb _ IH]; intros H; [ exact H | ].
apply (filed_more build obj c0 l x vo _ Hb). apply IH. exact H.
Qed.

Lemma add_linesets_filed items : forall st out st',
add_linesets build st items = (out, Ok st') -> filed build st st'.
Proof.
induction items as [| item items IH]; intros st out st' H.
- inversion H; subst. apply filed_none.
- cbn [add_linesets] in H. apply bind_Ok in H.
  destruct H as (o1 & st1 & o2 & H1 & H2 & ->).
  apply (filed_trans st st1 st').
  + apply (add_lineset_filed _ _ _ _ H1).
  + apply (IH _ _ _ H2).
Qed.

(** A group keeps its key and its name; its dict and the combined dict
  grow together. *)
Lemma add_group_filed data c key lbl obj out g' c' :
add_group build data c (key, lbl, obj) = (out, Ok (g', c')) ->
fst g' = (key, lbl) /\ filed build (obj, c) (snd g', c').
Proof.
unfold add_group. intros H. apply bind_Ok in H.
destruct H as (o1 & present & o2 & _ & H & _).
destruct present.
- apply bind_Ok in H. destruct H as (o3 & v & o4 & _ & H & _).
  destruct v; try (inversion H; subst; split;
                   [ reflexivity | apply filed_none ]).
  apply bind_Ok in H. destruct H as (o5 & [obj1 c1] & o6 & H1 & H2 & _).
  inversion H2; subst. split; [ reflexivity | ].
  apply (add_linesets_filed _ _ _ _ H1).
- inversion H; subst. split; [ reflexivity | apply filed_none ].
Qed.

(** *** The names of the combined dict *)

Lemma filed_names (c0 : list (string * VO)) st st' :
filed build st st' ->
(forall k, dict_in k (snd st) = dict_in k c0 || dict_in k (fst st)) ->
forall k, dict_in k (snd st') = dict_in k c0 || dict_in k (fst st').
Proof.
induction 1 as [| obj c l x vo st' Hb _ IH]; intros H; [ exact H | ].
apply IH. intros k. cbn [fst snd] in *.
destruct (dict_in l c) eqn:E; rewrite !dict_in_set, ?H.
- destruct (String.eqb l k) eqn:Ek.
  + apply String.eqb_eq in Ek. subst k. rewrite H in E.
    destruct (dict_in l c0), (dict_in l obj); simpl in *; congruence.
  + reflexivity.
- destruct (String.eqb l k), (dict_in k c0); reflexivity.
Qed.

Lemma add_groups_names data gs : forall done c out gs' c',
add_groups build data done c (fresh_groups gs) = (out, Ok (gs', c')) ->
(forall k, dict_in k c
           = existsb (fun g : group => dict_in k (snd g)) done) ->
forall k, dict_in k c'
          = existsb (fun g : group => dict_in k (snd g)) gs'.
Proof.
induction gs as [| [key lbl] gs IH]; intros done c out gs' c' H Hc.
- inversion H; subst. exact Hc.
- cbn [fresh_groups map add_groups fst snd] in H. apply bind_Ok in H.
  destruct H as (o1 & [g1 c1] & o2 & H1 & H2 & _).
  apply add_group_filed in H1. destruct H1 as [_ H1].
  cbn [fst snd] in H2. apply (IH _ _ _ _ _ H2).
  intros k. rewrite existsb_app. simpl. rewrite orb_false_r, <- Hc.
  apply (filed_names c _ _ H1). intros k'. simpl.
  rewrite orb_false_r. reflexivity.
Qed.

(** *** What is stored was built under its name *)

Lemma built_as_set d l x vo :
built_as build d -> result (build x (Some l)) = Ok vo ->
built_as build (dict_set d l vo).
Proof.
intros Hd Hb l' vo'. rewrite BankFacts.dict_get_set.
destruct (String.eqb l l') eqn:E; [ | apply Hd ].
apply String.eqb_eq in E. subst l'. intros H. inversion H; subst.
exists x. exact Hb.
Qed.

Lemma filed_built_as st st' :
filed build st st' ->
built_as build (fst st) /\ built_as build (snd st) ->
built_as build (fst st') /\ built_as build (snd st').
Proof.
induction 1 as [| obj c l x vo st' Hb _ IH]; intros H; [ exact H | ].
apply IH. cbn [fst snd] in *. destruct H as [Ho Hc]. split.
- apply (built_as_set _ _ x); assumption.
- destruct (dict_in l c); [ exact Hc | ].
  apply (built_as_set _ _ x); assumption.
Qed.

Lemma add_groups_built_as data gs : forall done c out gs' c',
add_groups build data done c (fresh_groups gs) = (out, Ok (gs', c')) ->
Forall (fun g : group => built_as build (snd g)) done -> built_as build c ->
Forall (fun g : group => built_as build (snd g)) gs' /\ built_as build c'.
Proof.
induction gs as [| [key lbl] gs IH]; intros done c out gs' c' H Hd Hc.
- inversion H; subst. auto.
- cbn [fresh_groups map add_groups fst snd] in H. apply bind_Ok in H.
  destruct H as (o1 & [g1 c1] & o2 & H1 & H2 & _).
  apply add_group_filed in H1. destruct H1 as [_ H1].
  cbn [fst snd] in H2.
  destruct (filed_built_as _ _ H1) as [Hg1 Hc1].
  { split; [ intros l vo; discriminate | exact Hc ]. }
  apply (IH _ _ _ _ _ H2); [ | exact Hc1 ].
  apply Forall_app. split; [ exact Hd | ]. constructor; [ exact Hg1 | constructor ].
Qed.

(** *** Nothing builds *)



Lemma add_linesets_refused items : forall st,
Forall (fun item => result (build (snd item) (Some (fst item)))
                    = Raise NoCuesException) items ->
exists out, add_linesets build st items = (out, Ok st).
Proof.
induction items as [| [l x] items IH]; intros [obj c] H.
- exists []. reflexivity.
- inversion H as [| ? ? Hx Hr]; subst. cbn [fst snd] in Hx.
  destruct (IH (obj, c) Hr) as [o2 E2].
  cbn [add_linesets]. unfold add_lineset at 1.
  destruct (build x (Some l)) as [ob r] eqn:B. simpl in Hx. subst r.
  cbn [bind try_except exn_eqb ret]. rewrite E2.
  eexists. reflexivity.
Qed.

Lemma add_group_refused kvs c key lbl :
Forall (fun item => result (build (snd item) (Some (fst item)))
                    = Raise NoCuesException)
       (linesets_of [(key, lbl, [])] kvs) ->
exists out, add_group build (JDict kvs) c (key, lbl, [])
            = (out, Ok ((key, lbl, []), c)).
Proof.
unfold linesets_of, add_group. cbn [flat_map fst snd]. rewrite app_nil_r.
simpl py_in. rewrite bind_ret_l. unfold dict_in. simpl py_getitem.
destruct (dict_get kvs key) as [v |]; [ | exists []; reflexivity ].
rewrite bind_ret_l. destruct v; try (exists []; reflexivity).
intros H. destruct (add_linesets_refused kvs0 ([], c) H) as [o E].
rewrite E. eexists. reflexivity.
Qed.

Lemma add_groups_refused kvs gs : forall done c,
Forall (fun item => result (build (snd item) (Some (fst item)))
                    = Raise NoCuesException)
       (linesets_of (fresh_groups gs) kvs) ->
exists out, add_groups build (JDict kvs) done c (fresh_groups gs)
            = (out, Ok (done ++ fresh_groups gs, c)).
Proof.
induction gs as [| [key lbl] gs IH]; intros done c H.
- exists []. simpl. rewrite app_nil_r. reflexivity.
- change (fresh_groups ((key, lbl) :: gs))
    with ((key, lbl, []) :: fresh_groups gs : list group) in *.
  change (linesets_of ((key, lbl, []) :: fresh_groups gs) kvs)
    with (match dict_get kvs key with
          | Some (JDict items) => items
          | _ => []
          end ++ linesets_of (fresh_groups gs) kvs) in H.
  apply Forall_app in H. destruct H as [H1 H2].
  destruct (add_group_refused kvs c key lbl) as [o1 E1].
  { unfold linesets_of. cbn [flat_map fst snd]. rewrite app_nil_r. exact H1. }
  destruct (IH (done ++ [((key, lbl, []) : group)]) c H2) as [o2 E2].
  cbn [add_groups]. rewrite E1. cbn [bind fst snd].
  rewrite E2. rewrite <- app_assoc.
  eexists. reflexivity.
Qed.

Lemma fresh_groups_empty gs :
forallb (fun g : group => Nat.eqb (List.length (snd g)) 0) (fresh_groups gs)
= true.
Proof. induction gs as [| g gs IH]; simpl; [ reflexivity | exact IH ]. Qed.

End WithBuild.
End BankMore.

(** X7. A section in which no line-set builds, for one because it has
    none of the bank's categories, makes the bank raise
    [NoVOsException]. *)
Theorem bank_without_line_sets_is_NoVOs build gs name kvs :
  Forall (fun item : string * Py.json =>
            Py.result (build (snd item) (Some (fst item)))
            = Py.Raise Py.NoCuesException)
         (Spec.linesets_of (HDialogue.fresh_groups gs) kvs) ->
  Py.result (HDialogue.Bank_init build (HDialogue.fresh_groups gs) name
               (Py.JDict kvs))
  = Py.Raise Py.NoVOsException.
Proof.
  intros H. unfold HDialogue.Bank_init.
  destruct (BankMore.add_groups_refused build kvs gs [] [] H) as [o E].
  rewrite E. cbn [Py.bind fst snd app].
  rewrite BankMore.fresh_groups_empty. reflexivity.
Qed.

Lemma bank_without_line_sets_is_NoVOs_witness :
  Py.result (HDialogue.Bank_init (HDialogue.VO_new Spec.no_float_of_str)
               HDialogue.NPCBank_groups "Zagreus"
               (Py.JDict [("GiftTextLineSets",
                           Py.JDict [("Gift01", Py.JList [])]);
                          ("Portrait", Py.JStr "Zagreus")]))
  = Py.Raise Py.NoVOsException.
Proof.
  apply (bank_without_line_sets_is_NoVOs (HDialogue.VO_new Spec.no_float_of_str)
           [ ("InteractTextLineSets", "Interacts");
             ("RepeatableTextLineSets", "Repeatables");
             ("GiftTextLineSets", "Gifts") ]).
  apply Forall_forall. intros item Hin. vm_compute in Hin.
  destruct Hin as [<- | []]. vm_compute. reflexivity.
Defined.

(** X8. In a bank that was built, the names of the combined dict are
    exactly the names of the categories' dicts, and there is at least
    one. *)
Theorem combined_names_are_the_categories_names build gs name data bank :
  Py.result (HDialogue.Bank_init build (HDialogue.fresh_groups gs) name data)
  = Py.Ok bank ->
  (forall k, Py.dict_in k (HDialogue.combined bank)
             = existsb (fun g : HDialogue.group => Py.dict_in k (snd g))
                       (HDialogue.groups bank))
  /\ HDialogue.combined bank <> [].
Proof.
  unfold HDialogue.Bank_init. intros H.
  destruct (HDialogue.add_groups build data [] [] (HDialogue.fresh_groups gs))
    as [o [[gs' c'] | e]] eqn:E; [ | discriminate ].
  cbn [Py.bind fst snd] in H.
  destruct (forallb _ gs') eqn:F; [ discriminate | ].
  simpl in H. inversion H; subst bank. cbn [HDialogue.combined HDialogue.groups].
  assert (Hn := BankMore.add_groups_names build data gs [] [] o gs' c' E
                  (fun k => eq_refl)).
  split; [ exact Hn | ].
  assert (Hex : exists g : HDialogue.group, In g gs' /\ snd g <> []).
  { clear -F. induction gs' as [| g gs' IH]; [ discriminate | ].
    simpl in F. apply andb_false_iff in F. destruct F as [F | F].
    - exists g. split; [ left; reflexivity | ].
      destruct (snd g); [ discriminate | discriminate ].
    - destruct (IH F) as (g' & Hi & Hg). exists g'. split; [ right | ]; auto. }
  destruct Hex as (g & Hi & Hg). intros Hc. subst c'.
  destruct (snd g) as [| [k v] rest] eqn:S; [ congruence | ].
  specialize (Hn k).
  assert (Hx : existsb (fun g0 : HDialogue.group => Py.dict_in k (snd g0)) gs'
               = true).
  { apply existsb_exists. exists g. split; [ exact Hi | ].
    rewrite S. unfold Py.dict_in. simpl. rewrite String.eqb_refl. reflexivity. }
  rewrite <- Hn in Hx. discriminate.
Qed.

Lemma combined_names_are_the_categories_names_witness :
  (forall k, Py.dict_in k (HDialogue.combined NavSpec.demo_bank)
             = existsb (fun g : HDialogue.group => Py.dict_in k (snd g))
                       (HDialogue.groups NavSpec.demo_bank))
  /\ HDialogue.combined NavSpec.demo_bank <> [].
Proof.
  apply (combined_names_are_the_categories_names
           (HDialogue.VO_new Spec.no_float_of_str)
           [ ("InteractTextLineSets", "Interacts");
             ("RepeatableTextLineSets", "Repeatables");
             ("GiftTextLineSets", "Gifts") ]
           "Zagreus" (Py.JDict Spec.twice)).
  vm_compute. reflexivity.
Defined.

(** X9. Every line-set of a bank, in a category's dict or in the combined
    one, has the name it is filed under as its label, and a first cue
    whose delay is the integer 0. *)
Theorem bank_line_sets_carry_their_names float_of_str gs name data bank k vo :
  Py.result (HDialogue.Bank_new float_of_str (HDialogue.fresh_groups gs)
               name data) = Py.Ok bank ->
  Py.dict_get (HDialogue.combined bank) k = Some vo
  \/ (exists g, In g (HDialogue.groups bank)
                /\ Py.dict_get (snd g) k = Some vo) ->
  HDialogue.label vo = Some k
  /\ exists first rest,
       HDialogue.cues vo = HDialogue.set_delay first (Py.PInt 0) :: rest.
Proof.
  unfold HDialogue.Bank_new, HDialogue.Bank_init. intros H Hin.
  destruct (HDialogue.add_groups (HDialogue.VO_new float_of_str) data [] []
              (HDialogue.fresh_groups gs))
    as [o [[gs' c'] | e]] eqn:E; [ | discriminate ].
  cbn [Py.bind fst snd] in H.
  destruct (forallb _ gs'); [ discriminate | ].
  simpl in H. inversion H; subst bank.
  cbn [HDialogue.combined HDialogue.groups] in Hin.
  destruct (BankMore.add_groups_built_as (HDialogue.VO_new float_of_str)
              data gs [] [] o gs' c' E) as [Hg Hc].
  { constructor. }
  { intros l v. discriminate. }
  assert (Hx : exists x, Py.result (HDialogue.VO_new float_of_str x (Some k))
                         = Py.Ok vo).
  { destruct Hin as [Hin | (g & Hi & Hin)].
    - exact (Hc k vo Hin).
    - rewrite Forall_forall in Hg. exact (Hg g Hi k vo Hin). }
  destruct Hx as [x Hx]. unfold HDialogue.VO_new in Hx.
  destruct (HDialogue.VO_init float_of_str (S (HDialogue.json_depth x)) x
              (Some k)) as [ov r] eqn:B.
  simpl in Hx. subst r.
  destruct (VOFacts.VO_init_finish _ _ _ _ _ _ B) as (first & rest & ->).
  split; [ reflexivity | ]. exists first, rest. reflexivity.
Qed.

Lemma bank_line_sets_carry_their_names_witness :
  exists vo,
    Py.dict_get (HDialogue.combined NavSpec.demo_bank) "Greeting" = Some vo
    /\ HDialogue.label vo = Some "Greeting"
    /\ exists first rest,
         HDialogue.cues vo = HDialogue.set_delay first (Py.PInt 0) :: rest.
Proof.
  eexists. split.
  - vm_compute. reflexivity.
  - apply (bank_line_sets_carry_their_names Spec.no_float_of_str
             [ ("InteractTextLineSets", "Interacts");
               ("RepeatableTextLineSets", "Repeatables");
               ("GiftTextLineSets", "Gifts") ]
             "Zagreus" (Py.JDict Spec.twice) NavSpec.demo_bank "Greeting").
    + vm_compute. reflexivity.
    + left. vm_compute. reflexivity.
Defined.

(** ** Registries *)

Module RegistryFacts.
Import Py Py.Notations HDialogue Registries Spec SpecMore PyFacts.

Lemma dict_get_absent {V} (d : list (string * V)) k :
  ~ In k (map fst d) -> dict_get d k = None.
Proof.
  induction d as [| [k' v] d IH]; simpl; intros H; [ reflexivity | ].
  destruct (String.eqb k' k) eqn:E.
  - apply String.eqb_eq in E. subst k'. exfalso. apply H. left. reflexivity.
  - apply IH. intros Hx. apply H. right. exact Hx.
Qed.

Lemma dict_get_present {V} (d : list (string * V)) k v :
  dict_get d k = Some v -> In (k, v) d.
Proof.
  induction d as [| [k' v'] d IH]; simpl; [ discriminate | ].
  destruct (String.eqb k' k) eqn:E.
  - apply String.eqb_eq in E. subst k'. intros H. inversion H. left. reflexivity.
  - intros H. right. apply IH. exact H.
Qed.

Lemma dict_get_wf {V} (d : list (string * V)) k v :
  dict_wf d -> In (k, v) d -> dict_get d k = Some v.
Proof.
  unfold dict_wf. induction d as [| [k' v'] d IH]; simpl; intros W H; [ tauto | ].
  inversion W as [| ? ? Hn Hw]; subst.
  destruct H as [H | H].
  - inversion H; subst. rewrite String.eqb_refl. reflexivity.
  - destruct (String.eqb k' k) eqn:E.
    + apply String.eqb_eq in E. subst k'. exfalso. apply Hn.
      apply (in_map fst) in H. exact H.
    + apply IH; assumption.
Qed.

Lemma dict_set_fresh {V} (d : list (string * V)) k v :
  dict_get d k = None -> dict_set d k v = d ++ [(k, v)].
Proof.
  induction d as [| [k' v'] d IH]; simpl; intros H; [ reflexivity | ].
  destruct (String.eqb k' k); [ discriminate | ].
  rewrite IH; [ reflexivity | exact H ].
Qed.

Lemma dict_set_keys {V} (d : list (string * V)) k v :
  map fst (dict_set d k v)
  = if dict_in k d then map fst d else map fst d ++ [k].
Proof.
  unfold dict_in. induction d as [| [k' v'] d IH]; simpl; [ reflexivity | ].
  destruct (String.eqb k' k) eqn:E; simpl; [ reflexivity | ].
  rewrite IH. destruct (dict_get d k); reflexivity.
Qed.

Lemma dict_set_wf {V} (d : list (string * V)) k v :
  dict_wf d -> dict_wf (dict_set d k v).
Proof.
  unfold dict_wf. rewrite dict_set_keys. unfold dict_in.
  destruct (dict_get d k) eqn:E; intros W; [ exact W | ].
  apply NoDup_app; [ exact W | repeat constructor; intros [] | ].
  intros x Hx [Hk | []]. subst x.
  apply in_map_iff in Hx. destruct Hx as ([k' v'] & Hk & Hi). simpl in Hk. subst k'.
  rewrite (dict_get_wf d k v' W Hi) in E. discriminate.
Qed.

Section WithClass.
Variable data_class : string -> json -> M Bank.

Lemma add_section_wf data item out data' :
add_section data_class data item = (out, Ok data') ->
dict_wf data -> dict_wf data'.
Proof.
destruct item as [k x]. unfold add_section.
destruct (data_class k x) as [o [b | e]]; simpl.
- intros H. inversion H; subst. apply dict_set_wf.
- destruct (exn_eqb e NoVOsException); simpl; intros H; inversion H; subst.
  auto.
Qed.

Lemma add_sections_wf items : forall data out data',
add_sections data_class data items = (out, Ok data') ->
dict_wf data -> dict_wf data'.
Proof.
induction items as [| item items IH]; intros data out data' H W.
- inversion H; subst. exact W.
- cbn [add_sections] in H. apply bind_Ok in H.
  destruct H as (o1 & d1 & o2 & H1 & H2 & _).
  apply (IH _ _ _ H2). apply (add_section_wf _ _ _ _ H1 W).
Qed.

Lemma Registry_init_wf raw out reg :
Registry_init data_class raw = (out, Ok reg) -> dict_wf reg.
Proof.
destruct raw; try discriminate. simpl. intros H.
apply (add_sections_wf _ _ _ _ H). constructor.
Qed.

Lemma add_sections_built items : forall data out data',
NoDup (map fst items) ->
(forall k, In k (map fst items) -> dict_get data k = None) ->
add_sections data_class data items = (out, Ok data') ->
data' = data ++ banks_built data_class items.
Proof.
induction items as [| [k x] items IH]; intros data out data' N F H.
- inversion H; subst. simpl. rewrite app_nil_r. reflexivity.
- cbn [add_sections] in H. apply bind_Ok in H.
  destruct H as (o1 & d1 & o2 & H1 & H2 & _).
  simpl in N. inversion N as [| ? ? Nk Nr]; subst.
  unfold banks_built. cbn [flat_map fst snd]. fold (banks_built data_class items).
  unfold add_section in H1.
  destruct (data_class k x) as [o [b | e]]; simpl in H1 |- *.
  + inversion H1; subst.
    rewrite (dict_set_fresh data k b) in H2
      by (apply F; left; reflexivity).
    assert (F' : forall k', In k' (map fst items) ->
                            dict_get (data ++ [(k, b)]) k' = None).
    { intros k' Hk'. rewrite BankFacts.dict_get_app.
      rewrite (F k') by (right; exact Hk'). simpl.
      destruct (String.eqb k k') eqn:E; [ | reflexivity ].
      apply String.eqb_eq in E. subst k'. contradiction. }
    rewrite (IH _ _ _ Nr F' H2). rewrite <- app_assoc. reflexivity.
  + destruct (exn_eqb e NoVOsException); simpl in H1; inversion H1; subst.
    apply (IH _ _ _ Nr (fun k' Hk' => F k' (or_intror Hk')) H2).
Qed.

Lemma Registry_init_built kvs out reg :
dict_wf kvs ->
Registry_init data_class (JDict kvs) = (out, Ok reg) ->
reg = banks_built data_class kvs.
Proof.
intros W H. simpl in H.
apply (add_sections_built kvs [] out reg W (fun _ _ => eq_refl) H).
Qed.

End WithClass.

Lemma copyfrom_lookup (other : Registry) : forall (self : Registry) k,
  dict_wf other ->
  dict_get (copyfrom self other) k
  = match dict_get other k with
    | Some b => Some b
    | None => dict_get self k
    end.
Proof.
  unfold copyfrom, dict_wf.
  induction other as [| [k0 b0] other IH]; intros self k W; [ reflexivity | ].
  simpl in W. inversion W as [| ? ? Hn Hw]; subst.
  cbn [fold_left fst snd dict_get]. rewrite (IH _ _ Hw).
  rewrite BankFacts.dict_get_set.
  destruct (String.eqb k0 k) eqn:E; [ | reflexivity ].
  apply String.eqb_eq in E. subst k0.
  rewrite (dict_get_absent other k Hn). reflexivity.
Qed.

End RegistryFacts.

(** X10. A registry holds, in the order of the raw document, exactly the
    sections from which a bank builds; the sections that raise
    [NoVOsException] are left out. *)
Theorem registry_holds_the_banks_that_build data_class kvs reg :
  Py.dict_wf kvs ->
  Py.result (Registries.Registry_init data_class (Py.JDict kvs)) = Py.Ok reg ->
  reg = SpecMore.banks_built data_class kvs.
Proof.
  intros W H.
  destruct (Registries.Registry_init data_class (Py.JDict kvs)) as [o r] eqn:E.
  simpl in H. subst r.
  exact (RegistryFacts.Registry_init_built data_class kvs o reg W E).
Qed.

(** X11. After [copyfrom], a name that the other registry has gives the
    other registry's bank, and any other name gives what it gave
    before. *)
Theorem copyfrom_prefers_the_other self other k :
  Py.dict_wf other ->
  Py.dict_get (Registries.copyfrom self other) k
  = match Py.dict_get other k with
    | Some b => Some b
    | None => Py.dict_get self k
    end.
Proof. intros W. apply RegistryFacts.copyfrom_lookup. exact W. Qed.

Ltac distinct_keys :=
  unfold Py.dict_wf; simpl; repeat constructor; simpl;
  intros H; repeat (destruct H as [H | H]; try discriminate); exact H.

Lemma registry_holds_the_banks_that_build_witness :
  SpecMore.demo_registry
  = SpecMore.banks_built (Registries.NPCBank Spec.no_float_of_str)
      SpecMore.npc_sections.
Proof.
  apply (registry_holds_the_banks_that_build
           (Registries.NPCBank Spec.no_float_of_str) SpecMore.npc_sections).
  - distinct_keys.
  - vm_compute. reflexivity.
Defined.

Lemma copyfrom_prefers_the_other_witness :
  Py.dict_get (Registries.copyfrom
                 [("Zagreus", HDialogue.mkBank "old" [] [])]
                 SpecMore.demo_registry) "Zagreus"
  = match Py.dict_get SpecMore.demo_registry "Zagreus" with
    | Some b => Some b
    | None => Some (HDialogue.mkBank "old" [] [])
    end.
Proof.
  apply (copyfrom_prefers_the_other
           [("Zagreus", HDialogue.mkBank "old" [] [])]
           SpecMore.demo_registry "Zagreus").
  vm_compute. repeat constructor; simpl; tauto.
Defined.

(** X12. The two cross-filed registries of [Dialogue]: an entity is in
    the NPC registry when an NPC bank builds from its section of either
    file, and the section of the enemy file wins; it is in the enemy
    registry when an enemy bank builds from its section of either file,
    and the section of the NPC file wins. *)
Theorem cross_filed_entities_are_found
    float_of_str npcdoc enemydoc lootdata npcs enemies d name :
  Py.dict_get npcdoc ".NPCs" = Some (Py.JDict npcs) ->
  Py.dict_get enemydoc ".Enemies" = Some (Py.JDict enemies) ->
  Py.dict_wf npcs -> Py.dict_wf enemies ->
  Py.result (Registries.Dialogue_init float_of_str (Py.JDict npcdoc)
               (Py.JDict enemydoc) lootdata) = Py.Ok d ->
  Py.dict_get (Registries.npc d) name
  = match Py.dict_get (SpecMore.banks_built
                         (Registries.NPCBank float_of_str) enemies) name with
    | Some b => Some b
    | None => Py.dict_get (SpecMore.banks_built
                             (Registries.NPCBank float_of_str) npcs) name
    end
  /\ Py.dict_get (Registries.enemy d) name
     = match Py.dict_get (SpecMore.banks_built
                            (Registries.EnemyBank float_of_str) npcs) name with
       | Some b => Some b
       | None => Py.dict_get (SpecMore.banks_built
                                (Registries.EnemyBank float_of_str) enemies)
                             name
       end.
Proof.
  intros Hn He Wn We H.
  destruct (Registries.Dialogue_init float_of_str (Py.JDict npcdoc)
              (Py.JDict enemydoc) lootdata) as [o r] eqn:E.
  simpl in H. subst r. unfold Registries.Dialogue_init in E.
  simpl Py.py_getitem in E. rewrite Hn, He in E.
  rewrite !PyFacts.bind_ret_l in E.
  apply PyFacts.bind_Ok in E. destruct E as (o1 & r1 & o1' & E1 & E & _).
  rewrite PyFacts.bind_ret_l in E.
  apply PyFacts.bind_Ok in E. destruct E as (o2 & r2 & o2' & E2 & E & _).
  apply PyFacts.bind_Ok in E. destruct E as (o3 & r3 & o3' & E3 & E & _).
  apply PyFacts.bind_Ok in E. destruct E as (o4 & r4 & o4' & E4 & E & _).
  apply PyFacts.bind_Ok in E. destruct E as (o5 & v5 & o5' & _ & E & _).
  apply PyFacts.bind_Ok in E. destruct E as (o6 & r6 & o6' & _ & E & _).
  inversion E; subst d. cbn [Registries.npc Registries.enemy].
  pose proof (RegistryFacts.Registry_init_wf _ _ _ _ E3) as W3.
  pose proof (RegistryFacts.Registry_init_wf _ _ _ _ E4) as W4.
  apply RegistryFacts.Registry_init_built in E1; [ | exact Wn ].
  apply RegistryFacts.Registry_init_built in E2; [ | exact We ].
  apply RegistryFacts.Registry_init_built in E3; [ | exact We ].
  apply RegistryFacts.Registry_init_built in E4; [ | exact Wn ].
  rewrite !RegistryFacts.copyfrom_lookup by assumption.
  subst. split; reflexivity.
Qed.

Lemma cross_filed_entities_are_found_witness :
  Py.dict_get (Registries.npc SpecMore.demo_dialogue) "Skelly"
  = match Py.dict_get (SpecMore.banks_built
                         (Registries.NPCBank Spec.no_float_of_str)
                         SpecMore.enemy_sections) "Skelly" with
    | Some b => Some b
    | None => Py.dict_get (SpecMore.banks_built
                             (Registries.NPCBank Spec.no_float_of_str)
                             SpecMore.npc_sections) "Skelly"
    end
  /\ Py.dict_get (Registries.enemy SpecMore.demo_dialogue) "Skelly"
     = match Py.dict_get (SpecMore.banks_built
                            (Registries.EnemyBank Spec.no_float_of_str)
                            SpecMore.npc_sections) "Skelly" with
       | Some b => Some b
       | None => Py.dict_get (SpecMore.banks_built
                                (Registries.EnemyBank Spec.no_float_of_str)
                                SpecMore.enemy_sections) "Skelly"
       end.
Proof.
  apply (cross_filed_entities_are_found Spec.no_float_of_str
           [(".NPCs", Py.JDict SpecMore.npc_sections)]
           [(".Enemies", Py.JDict SpecMore.enemy_sections)]
           SpecMore.loot_file SpecMore.npc_sections SpecMore.enemy_sections
           SpecMore.demo_dialogue "Skelly").
  - reflexivity.
  - reflexivity.
  - distinct_keys.
  - distinct_keys.
  - vm_compute. reflexivity.
Defined.

(** ** The text handed to the Lua decoder *)

Module LuaFacts.
Import Registries SpecMore.

Lemma wrap_lines_end lines line : forall injecting_comma,
  wrap_lines injecting_comma (lines ++ [line])
  = (if injecting_comma : bool then [comma_line] else [])
    ++ flat_map (fun x => if closes x then [x; comma_line] else [x]) lines
    ++ [line].
Proof.
  induction lines as [| x lines IH]; intros inj; simpl.
  - reflexivity.
  - rewrite IH. fold (closes x).
    destruct inj, (closes x); simpl; reflexivity.
Qed.

End LuaFacts.

(** X13. The text handed to the Lua decoder is the file between [{] and
    [}], with a comma after every line that closes a table except when
    that line is the last one of the file. *)
Theorem comma_after_each_table_but_the_last lines line :
  Registries.wrap_lua (lines ++ [line])
  = Registries.brace_line
    :: flat_map (fun x => if SpecMore.closes x
                          then [x; Registries.comma_line] else [x]) lines
    ++ [line; Registries.close_line].
Proof.
  unfold Registries.wrap_lua. rewrite LuaFacts.wrap_lines_end. simpl.
  rewrite <- app_assoc. reflexivity.
Qed.

(** ** Listing and asking for a line-set *)

Module ListingFacts.
Import Py Py.Notations HDialogue Registries Spec SpecMore PyFacts.

Section WithBuild.
Variable build : json -> option string -> M VO.

Lemma filed_wf st st' :
filed build st st' -> dict_wf (fst st) -> dict_wf (fst st').
Proof.
induction 1 as [| obj c l x vo st' Hb _ IH]; intros H; [ exact H | ].
apply IH. cbn [fst]. apply RegistryFacts.dict_set_wf. exact H.
Qed.

Lemma add_groups_wf data gs : forall done c out gs' c',
add_groups build data done c (fresh_groups gs) = (out, Ok (gs', c')) ->
Forall (fun g : group => dict_wf (snd g)) done ->
Forall (fun g : group => dict_wf (snd g)) gs'.
Proof.
induction gs as [| [key lbl] gs IH]; intros done c out gs' c' H Hd.
- inversion H; subst. exact Hd.
- cbn [fresh_groups map add_groups fst snd] in H. apply bind_Ok in H.
  destruct H as (o1 & [g1 c1] & o2 & H1 & H2 & _).
  apply BankMore.add_group_filed in H1. destruct H1 as [_ H1].
  cbn [fst snd] in H2. apply (IH _ _ _ _ _ H2).
  apply Forall_app. split; [ exact Hd | ].
  constructor; [ | constructor ].
  apply (filed_wf _ _ H1). constructor.
Qed.

End WithBuild.

(** What a bank that was built knows about a line-set it lists. *)
Lemma listed_is_combined float_of_str gs name data bank vo :
  result (Bank_new float_of_str (fresh_groups gs) name data) = Ok bank ->
  In vo (Bank_iter bank) ->
  exists k vo',
    label vo = Some k /\ dict_get (combined bank) k = Some vo'
    /\ label vo' = Some k.
Proof.
  unfold Bank_new, Bank_init. intros H Hin.
  destruct (add_groups (VO_new float_of_str) data [] [] (fresh_groups gs))
    as [o [[gs' c'] | e]] eqn:E; [ | discriminate ].
  cbn [bind fst snd] in H.
  destruct (forallb _ gs'); [ discriminate | ].
  simpl in H. inversion H; subst bank. unfold Bank_iter in Hin.
  cbn [combined groups] in *.
  destruct (BankMore.add_groups_built_as (VO_new float_of_str)
              data gs [] [] o gs' c' E) as [Hg Hc].
  { constructor. }
  { intros l v. discriminate. }
  pose proof (add_groups_wf (VO_new float_of_str) data gs [] [] o gs' c' E
                (Forall_nil _)) as Hw.
  pose proof (BankMore.add_groups_names (VO_new float_of_str) data gs [] []
                o gs' c' E (fun k => eq_refl)) as Hn.
  apply in_flat_map in Hin. destruct Hin as (g & Hi & Hv).
  apply in_map_iff in Hv. destruct Hv as ([k v] & Hk & Hkv).
  simpl in Hk. subst v.
  rewrite Forall_forall in Hg, Hw.
  pose proof (RegistryFacts.dict_get_wf _ _ _ (Hw g Hi) Hkv) as Hget.
  assert (label_of : forall k v, (exists x, result (VO_new float_of_str x (Some k)) = Ok v) ->
                                 label v = Some k).
  { intros k0 v [x Hx]. unfold VO_new in Hx.
    destruct (VO_init float_of_str (S (json_depth x)) x (Some k0))
      as [ov r] eqn:B.
    simpl in Hx. subst r.
    destruct (VOFacts.VO_init_finish _ _ _ _ _ _ B) as (first & rest & ->).
    reflexivity. }
  assert (Hcin : dict_in k c' = true).
  { rewrite Hn. apply existsb_exists. exists g. split; [ exact Hi | ].
    unfold dict_in. rewrite Hget. reflexivity. }
  unfold dict_in in Hcin.
  destruct (dict_get c' k) as [vo' |] eqn:D; [ | discriminate ].
  exists k, vo'. repeat split.
  - apply label_of. exact (Hg g Hi k vo Hget).
  - exact D.
  - apply label_of. exact (Hc k vo' D).
Qed.

End ListingFacts.

(** X14. Every name that [play_cli] lists for an entity can be asked for
    with [--which] (the empty name and the name [list] apart), and what is
    then played is a line-set of that name. *)
Theorem every_listed_name_can_be_played
    float_of_str gs name data bank registry choice file_map config notes k :
  Py.result (HDialogue.Bank_new float_of_str (HDialogue.fresh_groups gs)
               name data) = Py.Ok bank ->
  Py.dict_get registry choice = Some bank ->
  In (Player.Listed (Some k))
     (fst (PlayCli.play_registry file_map config (Some "list") registry
             choice notes)) ->
  k <> EmptyString -> k <> "list" ->
  exists vo,
    HDialogue.label vo = Some k
    /\ PlayCli.play_registry file_map config (Some k) registry choice []
       = Player.play file_map config vo false.
Proof.
  intros Hb Hr Hin Hk Hl. unfold PlayCli.play_registry in *.
  change (String.eqb "list" "list") with true in Hin.
  unfold Registries.Registry_getitem in *. rewrite Hr in *.
  cbn [fst] in Hin. apply in_map_iff in Hin.
  destruct Hin as (vo0 & Hlab & Hin). injection Hlab as Hlab'.
  destruct (ListingFacts.listed_is_combined _ _ _ _ _ _ Hb Hin)
    as (k' & vo & Hk' & Hc & Hv).
  assert (k' = k) by congruence. subst k'.
  exists vo. split; [ exact Hv | ].
  destruct k as [| c k]; [ congruence | ].
  apply String.eqb_neq in Hl. rewrite Hl.
  unfold Registries.Bank_getitem. rewrite Hc. cbn [Py.dict_get].
  destruct (Player.play file_map config vo false). reflexivity.
Qed.

Lemma every_listed_name_can_be_played_witness :
  exists vo,
    HDialogue.label vo = Some "HermesPostEnding01"
    /\ PlayCli.play_registry SpecMore.one_file SpecMore.mplayer
         (Some "HermesPostEnding01") [("Zagreus", NavSpec.demo_bank)]
         "Zagreus" []
       = Player.play SpecMore.one_file SpecMore.mplayer vo false.
Proof.
  apply (every_listed_name_can_be_played Spec.no_float_of_str
           [ ("InteractTextLineSets", "Interacts");
             ("RepeatableTextLineSets", "Repeatables");
             ("GiftTextLineSets", "Gifts") ]
           "Zagreus" (Py.JDict Spec.twice) NavSpec.demo_bank
           [("Zagreus", NavSpec.demo_bank)] "Zagreus"
           SpecMore.one_file SpecMore.mplayer [] "HermesPostEnding01").
  - vm_compute. reflexivity.
  - reflexivity.
  - vm_compute. repeat (first [ left; reflexivity | right ]).
  - discriminate.
  - discriminate.
Defined.
